(** * robotstxt: a shallow embedding of the robots.txt parser and matcher

    The development follows [robotstxt.go].  Go strings are byte sequences;
    they are modelled by [string], whose characters ([ascii]) are the 256
    byte values.  The map [groups map[string]*group] is a [gmap string group]:
    every [*group] is reached through exactly one key, so updating the pointee
    is inserting the updated group under that key. *)

From Stdlib Require Import ZArith Lia Bool List.
From Stdlib Require Import Strings.Ascii Strings.String.
From Stdlib Require Floats.
From stdpp Require Import base option gmap strings.

Local Open Scope string_scope.
Local Open Scope list_scope.

(** ** Package [strings] (byte level) *)

(** [len(s)]. *)
Abbreviation len := String.length (only parsing).

(** [strings.HasPrefix(s, prefix)]. *)
Definition HasPrefix (s pfx : string) : bool := String.prefix pfx s.

(** The slices [s[:n]] and [s[n:]] for [n <= len(s)]. *)
Fixpoint sliceTo (n : nat) (s : string) : string :=
  match n, s with
  | S k, String c s' => String c (sliceTo k s')
  | _, _ => ""
  end.

Fixpoint sliceFrom (n : nat) (s : string) : string :=
  match n, s with
  | S k, String _ s' => sliceFrom k s'
  | _, _ => s
  end.

(** [strings.HasSuffix(s, suffix)]: the last [len(suffix)] bytes of [s] are
    [suffix]. *)
Definition HasSuffix (s sfx : string) : bool :=
  (len sfx <=? len s)%nat && String.eqb (sliceFrom (len s - len sfx) s) sfx.

(** [strings.Replace(s, old, new, -1)] for a non-empty [old]: every
    non-overlapping occurrence of [old], found from the left, is replaced.
    [skip] counts the bytes of an occurrence that is being stepped over. *)
Fixpoint ReplaceFrom (old new : string) (skip : nat) (s : string) : string :=
  match s with
  | "" => ""
  | String c s' =>
      match skip with
      | S k => ReplaceFrom old new k s'
      | O =>
          if String.prefix old s
          then new +:+ ReplaceFrom old new (len old - 1) s'
          else String c (ReplaceFrom old new 0 s')
      end
  end.

Definition Replace (s old new : string) : string := ReplaceFrom old new 0 s.

(** [strings.IndexRune(s, r)] for an ASCII rune [r]: the index of its first
    occurrence, or [-1]. *)
Fixpoint IndexRune (s : string) (r : ascii) : Z :=
  match s with
  | "" => (-1)%Z
  | String c s' =>
      if Ascii.eqb c r then 0%Z
      else let i := IndexRune s' r in if (i <? 0)%Z then (-1)%Z else (i + 1)%Z
  end.

(** [strings.Split(s, sep)] for a one-byte separator: always at least one
    piece. *)
Fixpoint Split (s : string) (sep : ascii) : list string :=
  match s with
  | "" => [""]
  | String c s' =>
      if Ascii.eqb c sep then "" :: Split s' sep
      else match Split s' sep with
           | piece :: rest => String c piece :: rest
           | [] => [String c ""]
           end
  end.

(** [strings.SplitN(s, sep, 2)] for a one-byte separator: [s] itself when the
    separator does not occur, else the text before and the text after its first
    occurrence. *)
Fixpoint SplitN2 (s : string) (sep : ascii) : list string :=
  match s with
  | "" => [""]
  | String c s' =>
      if Ascii.eqb c sep then [""; s']
      else match SplitN2 s' sep with
           | [p0; p1] => [String c p0; p1]
           | _ => [s]
           end
  end.

(** The bytes [strings.TrimSpace] removes on its ASCII path: tab, line feed,
    vertical tab, form feed, carriage return and space.  (Go also trims the
    multi-byte Unicode spaces; they are not modelled.) *)
Definition isSpace (c : ascii) : bool :=
  let n := nat_of_ascii c in ((9 <=? n) && (n <=? 13) || (n =? 32))%nat.

Fixpoint TrimLeft (s : string) : string :=
  match s with
  | String c s' => if isSpace c then TrimLeft s' else s
  | "" => ""
  end.

Fixpoint TrimRight (s : string) : string :=
  match s with
  | String c s' =>
      match TrimRight s' with
      | "" => if isSpace c then "" else String c ""
      | t => String c t
      end
  | "" => ""
  end.

Definition TrimSpace (s : string) : string := TrimRight (TrimLeft s).

(** [strings.ToLower] on ASCII letters; other bytes are kept.  (Go also
    lowers non-ASCII letters; they are not modelled.) *)
Definition lowerByte (c : ascii) : ascii :=
  let n := nat_of_ascii c in
  if ((65 <=? n) && (n <=? 90))%nat then ascii_of_nat (n + 32) else c.

Fixpoint ToLower (s : string) : string :=
  match s with
  | "" => ""
  | String c s' => String (lowerByte c) (ToLower s')
  end.

(** ** Package [regexp], on the syntax [compilePattern] emits

    A compiled expression is a sequence of instructions: a literal byte, the
    non-capturing group around dot-star (any run of characters other than
    line feed, as the dot is compiled without the [s] flag) and the
    end-of-text anchor (the dollar, compiled without the [m] flag).

    Go matches rune by rune; here a rune of the expression is matched through
    the bytes of its UTF-8 encoding, and the dot takes one byte at a time.
    The two agree on every text, but for an expression that contains the
    replacement character U+FFFD, which Go also matches against an ill-formed
    byte of the text. *)
Inductive inst : Type :=
  | Lit (c : ascii)
  | AnyStar
  | EndText.

Definition Regexp : Type := list inst.

Definition isNewline (c : ascii) : bool := Ascii.eqb c "010".

(** The expression matches a prefix of [s]. *)
Fixpoint matchHere (re : Regexp) (s : string) : bool :=
  match re with
  | [] => true
  | Lit c :: re' =>
      match s with
      | String d s' => Ascii.eqb c d && matchHere re' s'
      | "" => false
      end
  | AnyStar :: re' =>
      (fix star (t : string) : bool :=
         matchHere re' t ||
         match t with
         | String d t' => negb (isNewline d) && star t'
         | "" => false
         end) s
  | EndText :: re' =>
      match s with
      | "" => matchHere re' ""
      | String _ _ => false
      end
  end.

(** [Regexp.MatchString]: the text contains a match (the search is not
    anchored at the start). *)
Fixpoint MatchString (re : Regexp) (s : string) : bool :=
  matchHere re s ||
  match s with
  | String _ s' => MatchString re s'
  | "" => false
  end.

(** ** The data model *)

Record rule : Type := mkRule {
  isAllowed : bool;
  path : string;
  pattern : option Regexp
}.

Record group : Type := mkGroup {
  rules : list rule;
  crawlDelay : Z
}.

(** The zero value [&group{}]. *)
Definition emptyGroup : group := {| rules := []; crawlDelay := 0 |}.

(** ** The method [isAllowed] of [group]

    The loop over [r.rules]; [result] and [resultPathLength] are the two
    local variables, and a matching pattern rule returns at once. *)
Fixpoint isAllowedLoop (rs : list rule) (path0 : string)
    (result : bool) (resultPathLength : nat) : bool :=
  match rs with
  | [] => result
  | r :: rs' =>
      match pattern r with
      | Some re =>
          if MatchString re path0 then isAllowed r
          else isAllowedLoop rs' path0 result resultPathLength
      | None =>
          if (len (path r) <? resultPathLength)%nat
          then isAllowedLoop rs' path0 result resultPathLength
          else if HasPrefix path0 (path r)
               then isAllowedLoop rs' path0 (isAllowed r) (len (path r))
               else isAllowedLoop rs' path0 result resultPathLength
      end
  end.

Definition group_isAllowed (g : group) (userAgent path0 : string) : bool :=
  isAllowedLoop (rules g) path0 true 0.

(** ** Pattern compilation *)

(** [replaceSuffix]. *)
Definition replaceSuffix (str sfx replacement : string) : string :=
  if HasSuffix str sfx
  then sliceTo (len str - len sfx) str +:+ replacement
  else str.

(** [isPattern]. *)
Definition isPattern (path0 : string) : bool :=
  (IndexRune path0 "*" >? -1)%Z || HasSuffix path0 "$".

(** The bytes [regexp.QuoteMeta] escapes with a backslash. *)
Definition special (c : ascii) : bool :=
  existsb (Ascii.eqb c) (list_ascii_of_string "\.+*?()|[]{}^$").

(** [regexp.QuoteMeta]. *)
Fixpoint QuoteMeta (s : string) : string :=
  match s with
  | "" => ""
  | String c s' =>
      if special c then String "\" (String c (QuoteMeta s'))
      else String c (QuoteMeta s')
  end.

(** What [regexp.Compile] reports.  [ErrOutsideModel] stands for syntax this
    model does not cover (Go may accept or reject it); [compile_never_outside]
    below shows that [compilePattern] never emits such syntax. *)
Inductive compileError : Type :=
  | ErrInvalidUTF8
  | ErrTrailingBackslash
  | ErrOutsideModel.

(** The continuation bytes [utf8.DecodeRuneInString] accepts after the lead
    byte [c], as inclusive ranges, one per byte; [None] when [c] cannot start
    a rune. *)
Definition runeTail (c : ascii) : option (list (nat * nat)) :=
  let n := nat_of_ascii c in
  if (n <? 128)%nat then Some []
  else if (n <? 194)%nat then None
  else if (n <? 224)%nat then Some [(128, 191)]
  else if (n =? 224)%nat then Some [(160, 191); (128, 191)]
  else if (n =? 237)%nat then Some [(128, 159); (128, 191)]
  else if (n <? 240)%nat then Some [(128, 191); (128, 191)]
  else if (n =? 240)%nat then Some [(144, 191); (128, 191); (128, 191)]
  else if (n <? 244)%nat then Some [(128, 191); (128, 191); (128, 191)]
  else if (n =? 244)%nat then Some [(128, 143); (128, 191); (128, 191)]
  else None.

Definition inRange (c : ascii) (r : nat * nat) : bool :=
  let n := nat_of_ascii c in ((fst r <=? n) && (n <=? snd r))%nat.

(** Where the parser stands: between runes, inside a multi-byte rune (with
    the ranges of the bytes still to come), after a backslash, or inside the
    text of a group (with the text still to come). *)
Inductive parseMode : Type :=
  | Top
  | InRune (tail : list (nat * nat))
  | Escaped
  | InGroup (rest : string).

Definition emit (i : inst) (r : Regexp + compileError) : Regexp + compileError :=
  match r with
  | inl re => inl (i :: re)
  | inr e => inr e
  end.

(** ASCII punctuation: after a backslash such a byte stands for itself. *)
Definition isPunct (c : ascii) : bool :=
  let n := nat_of_ascii c in
  ((n <? 128) &&
   negb ((48 <=? n) && (n <=? 57) || (65 <=? n) && (n <=? 90) ||
         (97 <=? n) && (n <=? 122)))%nat.

(** The parser of [regexp/syntax], one byte at a time.  A multi-byte rune
    becomes the literal bytes of its encoding. *)
Fixpoint parseRegexp (m : parseMode) (s : string) : Regexp + compileError :=
  match s with
  | "" =>
      match m with
      | Top => inl []
      | InRune [] => inl []
      | InRune (_ :: _) => inr ErrInvalidUTF8
      | Escaped => inr ErrTrailingBackslash
      | InGroup _ => inr ErrOutsideModel
      end
  | String c s' =>
      match m with
      | InRune (r :: tail) =>
          if inRange c r then emit (Lit c) (parseRegexp (InRune tail) s')
          else inr ErrInvalidUTF8
      | Escaped =>
          if isPunct c then emit (Lit c) (parseRegexp Top s')
          else inr ErrOutsideModel
      | InGroup (String e "") =>
          if Ascii.eqb c e then emit AnyStar (parseRegexp Top s')
          else inr ErrOutsideModel
      | InGroup (String e rest) =>
          if Ascii.eqb c e then parseRegexp (InGroup rest) s'
          else inr ErrOutsideModel
      | InGroup "" => inr ErrOutsideModel
      | Top | InRune [] =>
          if Ascii.eqb c "\" then parseRegexp Escaped s'
          else if Ascii.eqb c "$" then emit EndText (parseRegexp Top s')
          else if Ascii.eqb c "(" then parseRegexp (InGroup "?:.*)") s'
          else if special c then inr ErrOutsideModel
          else match runeTail c with
               | Some tail => emit (Lit c) (parseRegexp (InRune tail) s')
               | None => inr ErrInvalidUTF8
               end
      end
  end.

(** [regexp.Compile].  The limit that recent Go releases put on the size of
    an expression (some millions of instructions) is not modelled. *)
Definition regexpCompile (expr : string) : Regexp + compileError :=
  parseRegexp Top expr.

(** The expression [compilePattern] hands to [regexp.Compile]. *)
Definition patternSource (pattern0 : string) : string :=
  let p := QuoteMeta pattern0 in
  let p := Replace p "\*" "(?:.*)" in
  let p := replaceSuffix p "\$" "$" in
  let p := replaceSuffix p "%24" "\$" in
  let p := replaceSuffix p "%2524" "%24" in
  Replace p "%2A" "\*".

(** [compilePattern]. *)
Definition compilePattern (pattern0 : string) : Regexp + compileError :=
  regexpCompile (patternSource pattern0).

(** ** Package [net/url]: [PathUnescape] *)

Definition unhex (c : ascii) : option nat :=
  let n := nat_of_ascii c in
  if ((48 <=? n) && (n <=? 57))%nat then Some (n - 48)
  else if ((97 <=? n) && (n <=? 102))%nat then Some (n - 97 + 10)
  else if ((65 <=? n) && (n <=? 70))%nat then Some (n - 65 + 10)
  else None.

(** [url.PathUnescape]: every [%] must be followed by two hexadecimal digits
    and the three bytes become one; [None] is the escape error. *)
Fixpoint PathUnescape (s : string) : option string :=
  match s with
  | "" => Some ""
  | String c s' =>
      if Ascii.eqb c "%" then
        match s' with
        | String h1 (String h2 s'') =>
            match unhex h1, unhex h2 with
            | Some a, Some b =>
                option_map (String (ascii_of_nat (16 * a + b))) (PathUnescape s'')
            | _, _ => None
            end
        | _ => None
        end
      else option_map (String c) (PathUnescape s')
  end.

(** [normaliseUserAgent]. *)
Definition normaliseUserAgent (userAgent : string) : string :=
  let index := IndexRune userAgent "/" in
  let userAgent :=
    if (index >? -1)%Z then sliceTo (Z.to_nat index) userAgent else userAgent in
  ToLower (TrimSpace userAgent).

(** ** [RobotsTxt] *)

(** The fields of [url.URL] the program reads. *)
Module URL.
Record t : Type := mk { Scheme : string; Host : string; Path : string }.
End URL.

Record RobotsTxt : Type := mkRobotsTxt {
  url : URL.t;
  groups : gmap string group;
  sitemaps : list string;
  host : string
}.

Definition setGroup (r : RobotsTxt) (userAgent : string) (g : group) : RobotsTxt :=
  {| url := url r; groups := <[userAgent := g]> (groups r);
     sitemaps := sitemaps r; host := host r |}.

(** The first lines of [addPathRule] and of [addCrawlDelay]: the group of
    the agent, created and stored when the agent has none. *)
Definition getGroup (r : RobotsTxt) (userAgent : string) : group * RobotsTxt :=
  match groups r !! userAgent with
  | Some g => (g, r)
  | None => (emptyGroup, setGroup r userAgent emptyGroup)
  end.

(** The path as [addPathRule] stores or compiles it. *)
Definition preparePath (path0 : string) : string :=
  let path1 :=
    if isPattern path0 then replaceSuffix path0 "%24" "%2524" else path0 in
  let path2 := Replace path1 "%2A" "%252A" in
  match PathUnescape path2 with
  | Some unescapedPath => unescapedPath
  | None => Replace path2 "%252A" "%2A"
  end.

Definition appendRule (g : group) (x : rule) : group :=
  {| rules := rules g ++ [x]; crawlDelay := crawlDelay g |}.

(** [addPathRule]: the updated receiver and the returned error. *)
Definition addPathRule (r : RobotsTxt) (userAgent path0 : string)
    (allowed : bool) : RobotsTxt * option compileError :=
  let '(g, r) := getGroup r userAgent in
  let path1 := preparePath path0 in
  if isPattern path0 then
    match compilePattern path1 with
    | inr err => (r, Some err)
    | inl regexPattern =>
        (setGroup r userAgent
           (appendRule g {| isAllowed := allowed; path := "";
                            pattern := Some regexPattern |}), None)
    end
  else
    (setGroup r userAgent
       (appendRule g {| isAllowed := allowed; path := path1;
                        pattern := None |}), None).

(** [Host] and [Sitemaps]. *)
Definition Host (r : RobotsTxt) : string := host r.
Definition Sitemaps (r : RobotsTxt) : list string := sitemaps r.

(** [CrawlDelay]. *)
Definition CrawlDelay (r : RobotsTxt) (userAgent : string) : Z :=
  match groups r !! normaliseUserAgent userAgent with
  | Some g => crawlDelay g
  | None =>
      match groups r !! "*" with
      | Some g => crawlDelay g
      | None => 0%Z
      end
  end.

(** The errors [Parse] and [IsAllowed] return: the two failures of
    [parseAndNormalizeURL] (both are malformed-URL errors) and
    [InvalidHostError]. *)
Inductive error : Type :=
  | UrlParseError
  | IdnaError
  | InvalidHostError.

Definition malformedURL (e : error) : bool :=
  match e with
  | UrlParseError | IdnaError => true
  | InvalidHostError => false
  end.

(** The local variables of the loop of [Parse]. *)
Record parser : Type := mkParser {
  robotsTxt : RobotsTxt;
  userAgents : list string;
  isNoneUserAgentState : bool
}.

Definition LF : ascii := "010".

(** ** The functions that call the libraries [net/url], [idna] and [strconv]

    The three library functions are parameters: [urlParse] is [url.Parse]
    and [idnaToASCII] is [idna.ToASCII], [None] standing for a returned
    error; [ParseFloat] is [strconv.ParseFloat(_, 64)] and
    [secondsToDuration delay] is
    [time.Duration(delay * float64(time.Second))]. *)
Section WithLibrary.

Variable urlParse : string -> option URL.t.
Variable idnaToASCII : string -> option string.
Variable float64 : Type.
Variable ParseFloat : string -> option float64.
Variable secondsToDuration : float64 -> Z.

(** [parseAndNormalizeURL]. *)
Definition parseAndNormalizeURL (urlStr : string) : URL.t + error :=
  match urlParse urlStr with
  | None => inr UrlParseError
  | Some u =>
      match idnaToASCII (URL.Host u) with
      | None => inr IdnaError
      | Some h =>
          inl {| URL.Scheme := URL.Scheme u; URL.Host := h;
                 URL.Path := URL.Path u |}
      end
  end.

(** [addCrawlDelay]. *)
Definition addCrawlDelay (r : RobotsTxt) (userAgent crawlDelay0 : string)
    : RobotsTxt :=
  let '(g, r) := getGroup r userAgent in
  match ParseFloat crawlDelay0 with
  | Some delay =>
      setGroup r userAgent
        {| rules := rules g; crawlDelay := secondsToDuration delay |}
  | None => r
  end.

(** The body of [if len(parts) > 1]: the [switch] over the lowered key and
    the assignment to [isNoneUserAgentState]. *)
Definition parseDirective (st : parser) (rule0 val : string) : parser :=
  let key := ToLower rule0 in
  let r := robotsTxt st in
  let uas := userAgents st in
  let none := negb (String.eqb key "user-agent") in
  if String.eqb key "user-agent" then
    let uas := if isNoneUserAgentState st then [] else uas in
    mkParser r (uas ++ [normaliseUserAgent val]) none
  else if String.eqb key "allow" then
    mkParser (fold_left (fun r ua => fst (addPathRule r ua val true)) uas r)
      uas none
  else if String.eqb key "disallow" then
    mkParser (fold_left (fun r ua => fst (addPathRule r ua val false)) uas r)
      uas none
  else if String.eqb key "crawl-delay" then
    mkParser (fold_left (fun r ua => addCrawlDelay r ua val) uas r) uas none
  else if String.eqb key "sitemap" then
    mkParser
      (if String.eqb val "" then r
       else {| url := url r; groups := groups r;
               sitemaps := sitemaps r ++ [val]; host := host r |})
      uas none
  else if String.eqb key "host" then
    mkParser
      (if String.eqb val "" then r
       else {| url := url r; groups := groups r;
               sitemaps := sitemaps r; host := val |})
      uas none
  else mkParser r uas none.

(** One turn of the loop of [Parse]. *)
Definition parseLine (st : parser) (line : string) : parser :=
  match SplitN2 line ":" with
  | [part0; part1] => parseDirective st (TrimSpace part0) (TrimSpace part1)
  | _ => st
  end.

Definition parseLines (lines : list string) (st : parser) : parser :=
  fold_left parseLine lines st.

Definition initialParser (u : URL.t) : parser :=
  {| robotsTxt := {| url := u; groups := ∅; sitemaps := []; host := "" |};
     userAgents := []; isNoneUserAgentState := false |}.

(** [Parse]. *)
Definition Parse (contents urlStr : string) : RobotsTxt + error :=
  match parseAndNormalizeURL urlStr with
  | inr err => inr err
  | inl u =>
      inl (robotsTxt (parseLines (Split contents LF) (initialParser u)))
  end.

(** [IsAllowed]: the result and the error. *)
Definition IsAllowed (r : RobotsTxt) (userAgent urlStr : string)
    : bool * option error :=
  match parseAndNormalizeURL urlStr with
  | inr err => (false, Some err)
  | inl u =>
      if negb (String.eqb (URL.Scheme u) (URL.Scheme (url r)))
         || negb (String.eqb (URL.Host u) (URL.Host (url r)))
      then (false, Some InvalidHostError)
      else
        match groups r !! normaliseUserAgent userAgent with
        | Some g => (group_isAllowed g userAgent (URL.Path u), None)
        | None =>
            match groups r !! "*" with
            | Some g => (group_isAllowed g userAgent (URL.Path u), None)
            | None => (true, None)
            end
        end
  end.

End WithLibrary.

(** ** A reference reading of the library functions

    The properties that hold for every behaviour of [url.Parse],
    [idna.ToASCII] and [strconv.ParseFloat] are proved over the parameters of
    the section above.  The scenarios are evaluated with the definitions of
    this module, which follow the libraries on the inputs the scenarios use:
    - [Ref.urlParse]: references of the form
      [scheme://host[:port]/path?query#fragment], opaque references
      ([scheme:rest]) and scheme-less paths; user information, bracketed IP
      literals and escapes in the host are not covered and answered [None];
    - [Ref.idnaToASCII]: the Punycode profile, which keeps ASCII labels as
      they are (no case folding) and encodes every other label after the
      prefix [xn--]; labels that already carry the prefix are taken for
      well-formed encodings and kept, and a host that is not valid UTF-8 is
      not covered and answered [None];
    - [Ref.ParseFloat]: decimal literals [[+-]digits[.digits]], read exactly;
      the duration is exact whenever the product with 10^9 is an integer. *)
Module Ref.

Definition isCTL (c : ascii) : bool :=
  let n := nat_of_ascii c in ((n <? 32) || (n =? 127))%nat.

Definition isAlpha (c : ascii) : bool :=
  let n := nat_of_ascii c in
  ((65 <=? n) && (n <=? 90) || (97 <=? n) && (n <=? 122))%nat.

Definition isDigit (c : ascii) : bool :=
  let n := nat_of_ascii c in ((48 <=? n) && (n <=? 57))%nat.

Fixpoint contains (s : string) (c : ascii) : bool :=
  match s with
  | "" => false
  | String d s' => Ascii.eqb d c || contains s' c
  end.

Fixpoint existsByte (f : ascii -> bool) (s : string) : bool :=
  match s with
  | "" => false
  | String d s' => f d || existsByte f s'
  end.

(** The text before the first occurrence of [c] (all of [s] without one). *)
Fixpoint before (s : string) (c : ascii) : string :=
  match s with
  | "" => ""
  | String d s' => if Ascii.eqb d c then "" else String d (before s' c)
  end.

(** The text from the first occurrence of [c] on (empty without one). *)
Fixpoint from (s : string) (c : ascii) : string :=
  match s with
  | "" => ""
  | String d s' => if Ascii.eqb d c then s else from s' c
  end.

(** [getScheme]: the scheme and the rest, or [None] for a missing protocol
    scheme.  [i] is the index of the byte looked at. *)
Fixpoint getSchemeFrom (whole s : string) (i : nat) : option (string * string) :=
  match s with
  | "" => Some ("", whole)
  | String c s' =>
      if isAlpha c then getSchemeFrom whole s' (S i)
      else if isDigit c || Ascii.eqb c "+" || Ascii.eqb c "-" || Ascii.eqb c "."
      then if (i =? 0)%nat then Some ("", whole) else getSchemeFrom whole s' (S i)
      else if Ascii.eqb c ":"
      then if (i =? 0)%nat then None else Some (sliceTo i whole, s')
      else Some ("", whole)
  end.

Definition getScheme (rawURL : string) : option (string * string) :=
  getSchemeFrom rawURL rawURL 0.

(** The bytes a host may hold unescaped. *)
Definition hostByte (c : ascii) : bool :=
  isAlpha c || isDigit c || (128 <=? nat_of_ascii c)%nat ||
  Ascii.eqb c (ascii_of_nat 34) ||
  existsb (Ascii.eqb c) (list_ascii_of_string "-_.~!$&'()*+,;=:<>").

(** [validOptionalPort] on the text from the last colon of the host. *)
Definition validOptionalPort (port : string) : bool :=
  match port with
  | "" => true
  | String c digits => Ascii.eqb c ":" && negb (existsByte (fun d => negb (isDigit d)) digits)
  end.

Fixpoint lastColon (s : string) : string :=
  match s with
  | "" => ""
  | String c s' =>
      match lastColon s' with
      | "" => if Ascii.eqb c ":" then s else ""
      | t => t
      end
  end.

Definition parseHost (h : string) : option string :=
  if existsByte (fun c => negb (hostByte c)) h then None
  else if validOptionalPort (lastColon h) then Some h else None.

Definition urlParse (rawURL : string) : option URL.t :=
  let u := before rawURL "#" in
  if existsByte isCTL u then None
  else
    match getScheme u with
    | None => None
    | Some (scheme, rest) =>
        let scheme := ToLower scheme in
        let rest := before rest "?" in
        if negb (HasPrefix rest "/") then
          if negb (String.eqb scheme "") then
            Some {| URL.Scheme := scheme; URL.Host := ""; URL.Path := "" |}
          else if contains (before rest "/") ":" then None
          else option_map (URL.mk scheme "") (PathUnescape rest)
        else if HasPrefix rest "//"
                && (negb (String.eqb scheme "") || negb (HasPrefix rest "///"))
        then
          let authority := before (sliceFrom 2 rest) "/" in
          let rest := from (sliceFrom 2 rest) "/" in
          match parseHost authority, PathUnescape rest with
          | Some h, Some p =>
              Some {| URL.Scheme := scheme; URL.Host := h; URL.Path := p |}
          | _, _ => None
          end
        else option_map (URL.mk scheme "") (PathUnescape rest)
    end.

(** The runes of a valid UTF-8 string. *)
Fixpoint runesFrom (tail : list (nat * nat)) (acc : Z) (s : string)
    : option (list Z) :=
  match s with
  | "" => match tail with [] => Some [] | _ => None end
  | String c s' =>
      let n := Z.of_nat (nat_of_ascii c) in
      match tail with
      | r :: tail' =>
          if inRange c r then
            let acc := (acc * 64 + (n - 128))%Z in
            match tail' with
            | [] => option_map (cons acc) (runesFrom [] 0 s')
            | _ => runesFrom tail' acc s'
            end
          else None
      | [] =>
          match runeTail c with
          | Some [] => option_map (cons n) (runesFrom [] 0 s')
          | Some [r1] => runesFrom [r1] (n - 192) s'
          | Some [r1; r2] => runesFrom [r1; r2] (n - 224) s'
          | Some tl => runesFrom tl (n - 240) s'
          | None => None
          end
      end
  end.

Definition runes (s : string) : option (list Z) := runesFrom [] 0 s.

(** Punycode (RFC 3492) with the parameters of [idna]: base 36, tmin 1,
    tmax 26, skew 38, damp 700, initial bias 72, initial n 128. *)
Definition encodeDigit (d : Z) : ascii :=
  if (d <? 26)%Z then ascii_of_nat (Z.to_nat (d + 97))
  else ascii_of_nat (Z.to_nat (d - 26 + 48)).

Fixpoint adaptLoop (fuel : nat) (delta k : Z) : Z :=
  match fuel with
  | O => (k + 36 * delta / (delta + 38))%Z
  | S fuel' =>
      if (delta >? 35 * 26 / 2)%Z then adaptLoop fuel' (delta / 35) (k + 36)
      else (k + 36 * delta / (delta + 38))%Z
  end.

Definition adapt (delta numPoints : Z) (firstTime : bool) : Z :=
  let delta := if firstTime then (delta / 700)%Z else (delta / 2)%Z in
  let delta := (delta + delta / numPoints)%Z in
  adaptLoop 32 delta 0.

(** The digits of one delta: the loop [for k := base; ; k += base]. *)
Fixpoint encodeDelta (fuel : nat) (q k bias : Z) : string :=
  match fuel with
  | O => ""
  | S fuel' =>
      let t := if (k <=? bias)%Z then 1%Z
               else if (k >=? bias + 26)%Z then 26%Z else (k - bias)%Z in
      if (q <? t)%Z then String (encodeDigit q) ""
      else String (encodeDigit (t + (q - t) mod (36 - t)))
             (encodeDelta fuel' ((q - t) / (36 - t)) (k + 36) bias)
  end.

(** The inner loop over the runes for the current [n]: the output so far,
    [delta], [bias] and [h]. *)
Fixpoint encodePass (rs : list Z) (n b : Z) (st : string * Z * Z * Z)
    : string * Z * Z * Z :=
  match rs with
  | [] => st
  | r :: rs' =>
      let '(out, delta, bias, h) := st in
      if (r <? n)%Z then encodePass rs' n b (out, (delta + 1)%Z, bias, h)
      else if (r >? n)%Z then encodePass rs' n b st
      else
        encodePass rs' n b
          (out +:+ encodeDelta 64 delta 36 bias,
           0%Z, adapt delta (h + 1) (h =? b)%Z, (h + 1)%Z)
  end.

(** The outer loop [for remaining != 0]; [None] when [delta] leaves the
    range of [int32]. *)
Fixpoint encodeLoop (fuel : nat) (rs : list Z) (n b : Z)
    (st : string * Z * Z * Z) : option string :=
  let '(out, delta, bias, h) := st in
  if (h >=? Z.of_nat (List.length rs))%Z then Some out
  else
    match fuel with
    | O => None
    | S fuel' =>
        let m := fold_left (fun m r => if (r <? m)%Z && (r >=? n)%Z then r else m)
                   rs 2147483647%Z in
        let delta := (delta + (m - n) * (h + 1))%Z in
        if (delta >? 2147483647)%Z then None
        else
          let '(out, delta, bias, h) := encodePass rs m b (out, delta, bias, h) in
          if (delta >? 2147483647)%Z then None
          else encodeLoop fuel' rs (m + 1) b (out, (delta + 1)%Z, bias, h)
    end.

Definition isASCII (s : string) : bool :=
  negb (existsByte (fun c => (128 <=? nat_of_ascii c)%nat) s).

Definition encode (pfx label : string) : option string :=
  match runes label with
  | None => None
  | Some rs =>
      let basic := filter (fun r => (r <? 128)%Z) rs in
      let out := string_of_list_ascii
                   (map (fun r => ascii_of_nat (Z.to_nat r)) basic) in
      let b := Z.of_nat (List.length basic) in
      let out := if (b >? 0)%Z then pfx +:+ out +:+ "-" else pfx +:+ out in
      encodeLoop (List.length rs) rs 128 b (out, 0%Z, 72%Z, b)
  end.

Fixpoint joinDots (labels : list string) : string :=
  match labels with
  | [] => ""
  | [l] => l
  | l :: ls => l +:+ "." +:+ joinDots ls
  end.

Definition idnaToASCII (s : string) : option string :=
  option_map joinDots
    (mapM (fun label => if isASCII label then Some label else encode "xn--" label)
       (Split s ".")).

(** A decimal literal: the digits as an integer and the number of digits
    after the point. *)
Definition float64 : Type := Z * nat.

Fixpoint digitsFrom (acc : Z) (seen frac : nat) (point : bool) (s : string)
    : option (Z * nat) :=
  match s with
  | "" => if (seen =? 0)%nat then None else Some (acc, frac)
  | String c s' =>
      if isDigit c then
        digitsFrom (acc * 10 + Z.of_nat (nat_of_ascii c - 48)) (S seen)
          (if point then S frac else frac) point s'
      else if Ascii.eqb c "." && negb point then digitsFrom acc seen frac true s'
      else None
  end.

Definition ParseFloat (s : string) : option float64 :=
  match s with
  | String "-" s' =>
      option_map (fun '(m, d) => ((- m)%Z, d)) (digitsFrom 0 0 0 false s')
  | String "+" s' => digitsFrom 0 0 0 false s'
  | _ => digitsFrom 0 0 0 false s
  end.

(** Seconds to nanoseconds, truncated towards zero. *)
Definition secondsToDuration (delay : float64) : Z :=
  let '(m, d) := delay in Z.quot (m * 10 ^ 9) (10 ^ Z.of_nat d).

Definition parseLine := parseLine float64 ParseFloat secondsToDuration.
Definition parseLines := parseLines float64 ParseFloat secondsToDuration.
Definition Parse := Parse urlParse idnaToASCII float64 ParseFloat secondsToDuration.
Definition IsAllowed := IsAllowed urlParse idnaToASCII.

End Ref.

(** ** Vocabulary of the properties *)

(** The key the [switch] of [Parse] looks at and the value of the line;
    [None] for a line without a colon. *)
Definition directive (line : string) : option (string * string) :=
  match SplitN2 line ":" with
  | [part0; part1] => Some (ToLower (TrimSpace part0), TrimSpace part1)
  | _ => None
  end.

(** The keys of the [switch] of [Parse]. *)
Definition recognized (key : string) : bool :=
  existsb (String.eqb key)
    ["user-agent"; "allow"; "disallow"; "crawl-delay"; "sitemap"; "host"].

(** A line the specification calls ignored: it has no colon, or its trimmed
    key is empty or is not one of the six directives.  A comment line is of
    one of these kinds: without a colon, or with a key that starts with the
    number sign. *)
Definition ignoredLine (line : string) : bool :=
  match directive line with
  | None => true
  | Some (key, _) => negb (recognized key)
  end.

(** A comment line: its first byte after the blanks is the number sign. *)
Definition startsWithHash (s : string) : bool :=
  match s with
  | String c _ => Ascii.eqb c "#"
  | "" => false
  end.

(** [strings.Join(lines, "\n")]. *)
Fixpoint joinLines (lines : list string) : string :=
  match lines with
  | [] => ""
  | [l] => l
  | l :: ls => l +:+ String LF (joinLines ls)
  end.

Definition noLF (line : string) : bool := negb (Ref.contains line LF).

(** The rule [addPathRule] appends for a directive value, when the pattern
    compiles. *)
Definition makeRule (path0 : string) (allowed : bool) : option rule :=
  if isPattern path0 then
    match compilePattern (preparePath path0) with
    | inl re => Some {| isAllowed := allowed; path := ""; pattern := Some re |}
    | inr _ => None
    end
  else Some {| isAllowed := allowed; path := preparePath path0;
               pattern := None |}.

(** A group with [n] copies of a rule appended (none when there is no
    rule). *)
Definition attach (x : option rule) (n : nat) (g : group) : group :=
  {| rules := rules g ++ match x with
                         | Some y => repeat y n
                         | None => []
                         end;
     crawlDelay := crawlDelay g |}.

(** A group with its crawl delay replaced (kept when there is no value). *)
Definition withDelay (d : option Z) (g : group) : group :=
  match d with
  | Some z => {| rules := rules g; crawlDelay := z |}
  | None => g
  end.

(** The group of an agent, or the zero group the next directive would
    create. *)
Definition groupOf (r : RobotsTxt) (userAgent : string) : group :=
  default emptyGroup (groups r !! userAgent).

(** A pattern rule whose compiled form matches the path. *)
Definition matchesPattern (path0 : string) (x : rule) : bool :=
  match pattern x with
  | Some re => MatchString re path0
  | None => false
  end.

(** A literal-prefix rule whose path is a prefix of the queried path. *)
Definition matchesLiteral (path0 : string) (x : rule) : bool :=
  match pattern x with
  | Some _ => false
  | None => HasPrefix path0 (path x)
  end.

(** The rules that take part in the answer for a path. *)
Definition matchesRule (path0 : string) (x : rule) : bool :=
  matchesPattern path0 x || matchesLiteral path0 x.

(** ** The kinds of line *)

Section LineKinds.

Variable float64 : Type.
Variable ParseFloat : string -> option float64.
Variable secondsToDuration : float64 -> Z.

(** The seven kinds of line, each with the state one turn of the loop of
    [Parse] leaves. *)
Inductive lineKind (st : parser) (line : string) : parser -> Prop :=
  | NoColon :
      directive line = None -> lineKind st line st
  | UserAgentLine val :
      directive line = Some ("user-agent", val) ->
      lineKind st line
        (mkParser (robotsTxt st)
           ((if isNoneUserAgentState st then [] else userAgents st)
              ++ [normaliseUserAgent val]) false)
  | PathLine val (allowed : bool) :
      directive line = Some (if allowed then "allow" else "disallow", val) ->
      lineKind st line
        (mkParser
           (fold_left (fun r ua => fst (addPathRule r ua val allowed))
              (userAgents st) (robotsTxt st))
           (userAgents st) true)
  | DelayLine val :
      directive line = Some ("crawl-delay", val) ->
      lineKind st line
        (mkParser
           (fold_left
              (fun r ua =>
                 addCrawlDelay float64 ParseFloat secondsToDuration r ua val)
              (userAgents st) (robotsTxt st))
           (userAgents st) true)
  | SitemapLine val :
      directive line = Some ("sitemap", val) ->
      lineKind st line
        (mkParser
           (if String.eqb val "" then robotsTxt st
            else {| url := url (robotsTxt st); groups := groups (robotsTxt st);
                    sitemaps := sitemaps (robotsTxt st) ++ [val];
                    host := host (robotsTxt st) |})
           (userAgents st) true)
  | HostLine val :
      directive line = Some ("host", val) ->
      lineKind st line
        (mkParser
           (if String.eqb val "" then robotsTxt st
            else {| url := url (robotsTxt st); groups := groups (robotsTxt st);
                    sitemaps := sitemaps (robotsTxt st); host := val |})
           (userAgents st) true)
  | OtherLine key val :
      directive line = Some (key, val) -> recognized key = false ->
      lineKind st line (mkParser (robotsTxt st) (userAgents st) true).

End LineKinds.

(** ** The pieces of a compiled pattern *)

(** [utf8.ValidString]: the bytes are a sequence of well-formed runes. *)
Fixpoint utf8From (tail : list (nat * nat)) (s : string) : bool :=
  match s with
  | "" => match tail with [] => true | _ => false end
  | String c s' =>
      match tail with
      | r :: tail' => inRange c r && utf8From tail' s'
      | [] =>
          match runeTail c with
          | Some tail' => utf8From tail' s'
          | None => false
          end
      end
  end.

Definition utf8Valid (s : string) : bool := utf8From [] s.

(** The pieces of the expression [compilePattern] builds: a byte that stands
    for itself, an escaped byte, the wildcard group and the end anchor. *)
Inductive tok : Type :=
  | TByte (c : ascii)
  | TEsc (c : ascii)
  | TWild
  | TEnd.

Definition renderTok (t : tok) : string :=
  match t with
  | TByte c => String c ""
  | TEsc c => String "\" (String c "")
  | TWild => "(?:.*)"
  | TEnd => "$"
  end.

Fixpoint render (ts : list tok) : string :=
  match ts with
  | [] => ""
  | t :: ts' => renderTok t +:+ render ts'
  end.

(** The instruction a piece compiles to. *)
Definition instOf (t : tok) : inst :=
  match t with
  | TByte c | TEsc c => Lit c
  | TWild => AnyStar
  | TEnd => EndText
  end.

(** A byte piece is not a special byte, an escaped byte is. *)
Definition okTok (t : tok) : bool :=
  match t with
  | TByte c => negb (special c)
  | TEsc c => special c
  | TWild | TEnd => true
  end.

Definition notEnd (t : tok) : bool :=
  match t with
  | TEnd => false
  | _ => true
  end.

Definition quoteTok (c : ascii) : tok := if special c then TEsc c else TByte c.

Definition quoteToks (s : string) : list tok :=
  map quoteTok (list_ascii_of_string s).

Definition wildTok (t : tok) : tok :=
  match t with
  | TEsc c => if Ascii.eqb c "*" then TWild else t
  | _ => t
  end.

(** The pieces after every [%2A] has become an escaped asterisk. *)
Fixpoint starToks (ts : list tok) : list tok :=
  match ts with
  | [] => []
  | t :: ts' =>
      match t, ts' with
      | TByte a, TByte b :: TByte c :: rest =>
          if Ascii.eqb a "%" && Ascii.eqb b "2" && Ascii.eqb c "A"
          then TEsc "*" :: starToks rest
          else t :: starToks ts'
      | _, _ => t :: starToks ts'
      end
  end.

(** The validity of the bytes of the pieces as UTF-8: the pieces other than
    bytes are ASCII text. *)
Fixpoint validToks (tail : list (nat * nat)) (ts : list tok) : bool :=
  match ts with
  | [] => match tail with [] => true | _ => false end
  | TByte c :: ts' =>
      match tail with
      | r :: tail' => inRange c r && validToks tail' ts'
      | [] =>
          match runeTail c with
          | Some tail' => validToks tail' ts'
          | None => false
          end
      end
  | _ :: ts' => match tail with [] => validToks [] ts' | _ => false end
  end.

(** Every byte of the text satisfies [f]. *)
Fixpoint allBytes (f : ascii -> bool) (s : string) : bool :=
  match s with
  | "" => true
  | String c s' => f c && allBytes f s'
  end.

(** A byte that is ASCII, is not special and is not the percent sign; a
    plain text is made of such bytes. *)
Definition plainByte (c : ascii) : bool :=
  (nat_of_ascii c <? 128)%nat && negb (special c) && negb (Ascii.eqb c "%").

Definition plain (s : string) : bool := allBytes plainByte s.

(** The literal instructions of a text. *)
Fixpoint lits (s : string) : Regexp :=
  match s with
  | "" => []
  | String c s' => Lit c :: lits s'
  end.

(** The last byte of the text of a piece. *)
Definition lastByte (t : tok) : ascii :=
  match t with
  | TByte c | TEsc c => c
  | TWild => ")"
  | TEnd => "$"
  end.

(** The text of a piece, cut before its last byte. *)
Definition initText (t : tok) : string :=
  match t with
  | TByte _ | TEnd => ""
  | TEsc _ => "\"
  | TWild => "(?:.*"
  end.

(** The pieces of a run of bytes that need no escape. *)
Definition byteToks (w : list ascii) : list tok := map TByte w.

(** The pieces [QuoteMeta] produces: a byte, or an escaped byte. *)
Definition isQuoted (t : tok) : bool :=
  match t with
  | TByte _ | TEsc _ => true
  | TWild | TEnd => false
  end.

(** The ranges of continuation bytes lie above the ASCII bytes. *)
Definition tailOK (tail : list (nat * nat)) : bool :=
  forallb (fun r => (128 <=? fst r)%nat) tail.

(** A piece whose text is ASCII. *)
Definition asciiTok (t : tok) : bool :=
  match t with
  | TByte c => (nat_of_ascii c <? 128)%nat
  | _ => true
  end.

(** What the stages of [compilePattern] keep: the text is the text of
    well-formed pieces, as valid as the pieces [ts0] it comes from. *)
Definition keeps (ts0 : list tok) (s : string) : Prop :=
  exists ts, s = render ts /\ forallb okTok ts = true /\
    forall tail, tailOK tail = true -> validToks tail ts = validToks tail ts0.

(** The pieces start with [%2A]. *)
Definition isStar (ts : list tok) : bool :=
  match ts with
  | TByte a :: TByte b :: TByte c :: _ =>
      Ascii.eqb a "%" && Ascii.eqb b "2" && Ascii.eqb c "A"
  | _ => false
  end.

(** The bytes that differ from [x]. *)
Definition otherThan (x c : ascii) : bool := negb (Ascii.eqb x c).

(** The bytes [QuoteMeta] copies unchanged. *)
Definition nonSpecial (c : ascii) : bool := negb (special c).

(** The last byte of a text. *)
Fixpoint lastChar (s : string) : option ascii :=
  match s with
  | "" => None
  | String c s' =>
      match lastChar s' with
      | None => Some c
      | l => l
      end
  end.

(** The pieces of a plain text. *)
Definition plainToks (a : string) : list tok :=
  byteToks (list_ascii_of_string a).

(** An upper-case ASCII letter. *)
Definition isUpper (c : ascii) : bool :=
  let n := nat_of_ascii c in ((65 <=? n) && (n <=? 90))%nat.

(** The first and the last byte of a text are not white space. *)
Definition trimmed (s : string) : bool :=
  match s with
  | "" => true
  | String c _ =>
      negb (isSpace c) &&
      match lastChar s with
      | Some d => negb (isSpace d)
      | None => true
      end
  end.

(** The text [old] occurs somewhere in [s]. *)
Fixpoint occurs (old s : string) : bool :=
  String.prefix old s ||
  match s with
  | "" => false
  | String _ s' => occurs old s'
  end.

(** The three suffix replacements of [compilePattern]. *)
Definition stages (s : string) : string :=
  replaceSuffix (replaceSuffix (replaceSuffix s "\$" "$") "%24" "\$")
    "%2524" "%24".

(** ** Scenarios *)

Definition exampleURL : string := "http://www.example.com/robots.txt".

(** The parsed value, for a file whose URL is well formed. *)
Definition parsed (contents urlStr : string) : option RobotsTxt :=
  match Ref.Parse contents urlStr with
  | inl r => Some r
  | inr _ => None
  end.

(** The state of the loop of [Parse] after the given lines. *)
Definition stateAfter (lines : list string) : parser :=
  Ref.parseLines lines
    (initialParser
       {| URL.Scheme := "http"; URL.Host := "www.example.com";
          URL.Path := "/robots.txt" |}).

(** The scenario of the specification for an agent with a rule set of its
    own. *)
Definition ownRuleSetText : string :=
  joinLines ["User-agent: *"; "Disallow: /test/"; "Crawl-delay: 1";
             "User-agent: b"; "Allow:"].

(** Two [user-agent] lines with an unknown directive between them, and the
    same text without that line. *)
Definition unknownBetweenAgents : list string :=
  ["User-agent: a"; "Unknown: x"; "User-agent: b"; "Disallow: /"].

Definition consecutiveAgents : list string :=
  ["User-agent: a"; "User-agent: b"; "Disallow: /"].

(** [www.münich.com], in UTF-8. *)
Definition munichURL : string :=
  "http://www.m" +:+ String (ascii_of_nat 195) (String (ascii_of_nat 188)
    "nich.com/index.html").

(** A group with two matching literal rules of the same, greatest length
    for the path [/abc]. *)
Definition tieGroup : group :=
  {| rules := [ {| isAllowed := true; path := "/a"; pattern := None |};
                {| isAllowed := false; path := "/ab"; pattern := None |};
                {| isAllowed := true; path := "/ab"; pattern := None |};
                {| isAllowed := false; path := "/abd"; pattern := None |} ];
     crawlDelay := 0 |}.

(** The rule set [Allow:] created for [b], with no rules of [*] in it. *)
Definition ownGroup : group :=
  {| rules := [ {| isAllowed := true; path := ""; pattern := None |} ];
     crawlDelay := 0 |}.

(** A file with this rule set for [b] and a [*] rule set of its own. *)
Definition ownRuleSetFile : RobotsTxt :=
  {| url := {| URL.Scheme := "http"; URL.Host := "www.example.com";
               URL.Path := "/robots.txt" |};
     groups := <["b" := ownGroup]>
                 (<["*" := {| rules := [ {| isAllowed := false;
                                            path := "/test/";
                                            pattern := None |} ];
                              crawlDelay := 1000000000 |}]> ∅);
     sitemaps := []; host := "" |}.

(** The file of [www.xn--mnich-kva.com]. *)
Definition munichFile : RobotsTxt :=
  {| url := {| URL.Scheme := "http"; URL.Host := "www.xn--mnich-kva.com";
               URL.Path := "/robots.txt" |};
     groups := ∅; sitemaps := []; host := "" |}.

(** The file of [User-agent: *] followed by a blank [Disallow:]. *)
Definition blankDisallowFile : RobotsTxt :=
  {| url := {| URL.Scheme := "http"; URL.Host := "www.example.com";
               URL.Path := "/robots.txt" |};
     groups := <["*" := {| rules := [ {| isAllowed := false; path := "";
                                         pattern := None |} ];
                           crawlDelay := 0 |}]> ∅;
     sitemaps := []; host := "" |}.

(** A file without a [user-agent] line: two sitemaps, two hosts and a rule
    that no agent gets. *)
Definition sitemapText : string :=
  joinLines ["Sitemap: http://www.example.com/a.xml"; "Host: example.com";
             "sitemap:"; "Disallow: /private/"; "SITEMAP : /b.xml";
             "host: www.example.com"; "Host:"].

Definition sitemapFile : RobotsTxt :=
  {| url := {| URL.Scheme := "http"; URL.Host := "www.example.com";
               URL.Path := "/robots.txt" |};
     groups := ∅;
     sitemaps := ["http://www.example.com/a.xml"; "/b.xml"];
     host := "www.example.com" |}.

(** The file of [User-agent: *] followed by [Disallow: /fish/]. *)
Definition fishFile : RobotsTxt :=
  {| url := {| URL.Scheme := "http"; URL.Host := "www.example.com";
               URL.Path := "/robots.txt" |};
     groups := <["*" := {| rules := [ {| isAllowed := false; path := "/fish/";
                                         pattern := None |} ];
                           crawlDelay := 0 |}]> ∅;
     sitemaps := []; host := "" |}.

(** The carriage return. *)
Definition CR : ascii := "013".

(** ** The program over its libraries

    The functions of [robotstxt.go] once more, with the behaviour of the
    libraries left open where the definitions above fix a reading of it:
    - [ToLower] and [TrimSpace] are [strings.ToLower] and
      [strings.TrimSpace], which in Go follow the Unicode tables (the
      definitions above are their values on ASCII text);
    - [tooLarge expr] says that [regexp.Compile] refuses [expr] with the
      error [expression too large], the limit recent Go releases put on the
      size of a parsed expression; an expression it does not refuse so is
      parsed as [parseRegexp] does;
    - [ParseFloat] is [strconv.ParseFloat(_, 64)], [None] standing for a
      returned error, and [overflow] is what the conversion of a [float64]
      to [int64] gives for a value that is no number or lies outside
      [int64], which Go leaves to the implementation;
    - [urlParse] and [idnaToASCII] are [url.Parse] and [idna.ToASCII].
    A [float64] is a primitive binary64 float. *)

Module Generic.

(** [time.Second], in nanoseconds. *)
Definition Second : Z := 1000000000.

(** The integer part of a float, when it is a number. *)
Definition truncate (x : PrimFloat.float) : option Z :=
  match FloatOps.Prim2SF x with
  | SpecFloat.S754_zero _ => Some 0%Z
  | SpecFloat.S754_finite s m e =>
      let v := if (0 <=? e)%Z then (Z.pos m * 2 ^ e)%Z
               else Z.quot (Z.pos m) (2 ^ (- e)) in
      Some (if s then (- v)%Z else v)
  | SpecFloat.S754_infinity _ | SpecFloat.S754_nan => None
  end.

(** The conversion [float64(n)] of an integer below 2^63 in size. *)
Definition float64 (n : Z) : PrimFloat.float :=
  match n with
  | Z0 => PrimFloat.zero
  | Zpos _ => PrimFloat.of_uint63 (Uint63.of_Z n)
  | Zneg p => PrimFloat.opp (PrimFloat.of_uint63 (Uint63.of_Z (Zpos p)))
  end.

(** What [regexp.Compile] reports, with the error of its size limit. *)
Inductive compileFailure : Type :=
  | ErrLarge
  | ErrSyntax (e : compileError).

Section WithLibraries.

Variable ToLower : string -> string.
Variable TrimSpace : string -> string.
Variable tooLarge : string -> bool.
Variable ParseFloat : string -> option PrimFloat.float.
Variable overflow : PrimFloat.float -> Z.
Variable urlParse : string -> option URL.t.
Variable idnaToASCII : string -> option string.

(** [regexp.Compile]. *)
Definition regexpCompile (expr : string) : Regexp + compileFailure :=
  if tooLarge expr then inr ErrLarge
  else match parseRegexp Top expr with
       | inl re => inl re
       | inr e => inr (ErrSyntax e)
       end.

(** [compilePattern]. *)
Definition compilePattern (pattern0 : string) : Regexp + compileFailure :=
  regexpCompile (patternSource pattern0).

(** [normaliseUserAgent]. *)
Definition normaliseUserAgent (userAgent : string) : string :=
  let index := IndexRune userAgent "/" in
  let userAgent :=
    if (index >? -1)%Z then sliceTo (Z.to_nat index) userAgent else userAgent in
  ToLower (TrimSpace userAgent).

(** [addPathRule]: the updated receiver and the returned error. *)
Definition addPathRule (r : RobotsTxt) (userAgent path0 : string)
    (allowed : bool) : RobotsTxt * option compileFailure :=
  let '(g, r) := getGroup r userAgent in
  let path1 := preparePath path0 in
  if isPattern path0 then
    match compilePattern path1 with
    | inr err => (r, Some err)
    | inl regexPattern =>
        (setGroup r userAgent
           (appendRule g {| isAllowed := allowed; path := "";
                            pattern := Some regexPattern |}), None)
    end
  else
    (setGroup r userAgent
       (appendRule g {| isAllowed := allowed; path := path1;
                        pattern := None |}), None).

(** The conversion [time.Duration(x)] of a [float64]: the fraction is
    discarded. *)
Definition Duration (x : PrimFloat.float) : Z :=
  match truncate x with
  | Some z =>
      if ((- 2 ^ 63 <=? z) && (z <? 2 ^ 63))%Z then z else overflow x
  | None => overflow x
  end.

(** [addCrawlDelay]. *)
Definition addCrawlDelay (r : RobotsTxt) (userAgent crawlDelay0 : string)
    : RobotsTxt :=
  let '(g, r) := getGroup r userAgent in
  match ParseFloat crawlDelay0 with
  | Some delay =>
      setGroup r userAgent
        {| rules := rules g;
           crawlDelay := Duration (PrimFloat.mul delay (float64 Second)) |}
  | None => r
  end.

(** The body of [if len(parts) > 1]: the [switch] over the lowered key and
    the assignment to [isNoneUserAgentState]. *)
Definition parseDirective (st : parser) (rule0 val : string) : parser :=
  let key := ToLower rule0 in
  let r := robotsTxt st in
  let uas := userAgents st in
  let none := negb (String.eqb key "user-agent") in
  if String.eqb key "user-agent" then
    let uas := if isNoneUserAgentState st then [] else uas in
    mkParser r (uas ++ [normaliseUserAgent val]) none
  else if String.eqb key "allow" then
    mkParser (fold_left (fun r ua => fst (addPathRule r ua val true)) uas r)
      uas none
  else if String.eqb key "disallow" then
    mkParser (fold_left (fun r ua => fst (addPathRule r ua val false)) uas r)
      uas none
  else if String.eqb key "crawl-delay" then
    mkParser (fold_left (fun r ua => addCrawlDelay r ua val) uas r) uas none
  else if String.eqb key "sitemap" then
    mkParser
      (if String.eqb val "" then r
       else {| url := url r; groups := groups r;
               sitemaps := sitemaps r ++ [val]; host := host r |})
      uas none
  else if String.eqb key "host" then
    mkParser
      (if String.eqb val "" then r
       else {| url := url r; groups := groups r;
               sitemaps := sitemaps r; host := val |})
      uas none
  else mkParser r uas none.

(** One turn of the loop of [Parse]. *)
Definition parseLine (st : parser) (line : string) : parser :=
  match SplitN2 line ":" with
  | [part0; part1] => parseDirective st (TrimSpace part0) (TrimSpace part1)
  | _ => st
  end.

Definition parseLines (lines : list string) (st : parser) : parser :=
  fold_left parseLine lines st.

(** [Parse]. *)
Definition Parse (contents urlStr : string) : RobotsTxt + error :=
  match parseAndNormalizeURL urlParse idnaToASCII urlStr with
  | inr err => inr err
  | inl u =>
      inl (robotsTxt (parseLines (Split contents LF) (initialParser u)))
  end.

(** [CrawlDelay]. *)
Definition CrawlDelay (r : RobotsTxt) (userAgent : string) : Z :=
  match groups r !! normaliseUserAgent userAgent with
  | Some g => crawlDelay g
  | None =>
      match groups r !! "*" with
      | Some g => crawlDelay g
      | None => 0%Z
      end
  end.

(** [IsAllowed]: the result and the error. *)
Definition IsAllowed (r : RobotsTxt) (userAgent urlStr : string)
    : bool * option error :=
  match parseAndNormalizeURL urlParse idnaToASCII urlStr with
  | inr err => (false, Some err)
  | inl u =>
      if negb (String.eqb (URL.Scheme u) (URL.Scheme (url r)))
         || negb (String.eqb (URL.Host u) (URL.Host (url r)))
      then (false, Some InvalidHostError)
      else
        match groups r !! normaliseUserAgent userAgent with
        | Some g => (group_isAllowed g userAgent (URL.Path u), None)
        | None =>
            match groups r !! "*" with
            | Some g => (group_isAllowed g userAgent (URL.Path u), None)
            | None => (true, None)
            end
        end
  end.

(** *** Vocabulary *)

(** The key the [switch] of [Parse] looks at and the value of the line;
    [None] for a line without a colon. *)
Definition directive (line : string) : option (string * string) :=
  match SplitN2 line ":" with
  | [part0; part1] => Some (ToLower (TrimSpace part0), TrimSpace part1)
  | _ => None
  end.

(** A line that adds nothing of its own: it has no colon, or its key is
    empty or is none of the six directives. *)
Definition ignoredLine (line : string) : bool :=
  match directive line with
  | None => true
  | Some (key, _) => negb (recognized key)
  end.

(** The key of the last line with a colon. *)
Definition lastKey (lines : list string) : option string :=
  fold_left (fun k line => match directive line with
                           | Some (key, _) => Some key
                           | None => k
                           end) lines None.

(** The key of the first line with a colon. *)
Fixpoint firstKey (lines : list string) : option string :=
  match lines with
  | [] => None
  | line :: rest =>
      match directive line with
      | Some (key, _) => Some key
      | None => firstKey rest
      end
  end.

(** A line whose key is [k]. *)
Definition hasKey (k line : string) : bool :=
  match directive line with
  | Some (key, _) => String.eqb key k
  | None => false
  end.

(** The value of a line whose key is [k], when the value is not empty. *)
Definition valueOf (k line : string) : list string :=
  match directive line with
  | Some (key, val) =>
      if String.eqb key k && negb (String.eqb val "") then [val] else []
  | None => []
  end.

(** The non-empty values of the lines with key [k], in the order of the
    lines. *)
Definition valuesOf (k : string) (lines : list string) : list string :=
  flat_map (valueOf k) lines.

(** The rule [addPathRule] appends for a directive value, when the pattern
    compiles. *)
Definition makeRule (path0 : string) (allowed : bool) : option rule :=
  if isPattern path0 then
    match compilePattern (preparePath path0) with
    | inl re => Some {| isAllowed := allowed; path := ""; pattern := Some re |}
    | inr _ => None
    end
  else Some {| isAllowed := allowed; path := preparePath path0;
               pattern := None |}.

(** The delay a [crawl-delay] value stands for, when it parses. *)
Definition delayOf (val : string) : option Z :=
  option_map (fun delay => Duration (PrimFloat.mul delay (float64 Second)))
    (ParseFloat val).

(** The seven kinds of line, each with the state one turn of the loop of
    [Parse] leaves. *)
Inductive lineKind (st : parser) (line : string) : parser -> Prop :=
  | NoColon :
      directive line = None -> lineKind st line st
  | UserAgentLine val :
      directive line = Some ("user-agent", val) ->
      lineKind st line
        (mkParser (robotsTxt st)
           ((if isNoneUserAgentState st then [] else userAgents st)
              ++ [normaliseUserAgent val]) false)
  | PathLine val (allowed : bool) :
      directive line = Some (if allowed then "allow" else "disallow", val) ->
      lineKind st line
        (mkParser
           (fold_left (fun r ua => fst (addPathRule r ua val allowed))
              (userAgents st) (robotsTxt st))
           (userAgents st) true)
  | DelayLine val :
      directive line = Some ("crawl-delay", val) ->
      lineKind st line
        (mkParser
           (fold_left (fun r ua => addCrawlDelay r ua val)
              (userAgents st) (robotsTxt st))
           (userAgents st) true)
  | SitemapLine val :
      directive line = Some ("sitemap", val) ->
      lineKind st line
        (mkParser
           (if String.eqb val "" then robotsTxt st
            else {| url := url (robotsTxt st); groups := groups (robotsTxt st);
                    sitemaps := sitemaps (robotsTxt st) ++ [val];
                    host := host (robotsTxt st) |})
           (userAgents st) true)
  | HostLine val :
      directive line = Some ("host", val) ->
      lineKind st line
        (mkParser
           (if String.eqb val "" then robotsTxt st
            else {| url := url (robotsTxt st); groups := groups (robotsTxt st);
                    sitemaps := sitemaps (robotsTxt st); host := val |})
           (userAgents st) true)
  | OtherLine key val :
      directive line = Some (key, val) -> recognized key = false ->
      lineKind st line (mkParser (robotsTxt st) (userAgents st) true).

End WithLibraries.

End Generic.

(** ** A reading of the libraries on short ASCII texts

    The values of the library functions on the texts of the scenarios:
    [strings.ToLower] and [strings.TrimSpace] on ASCII text, decimal
    literals for [strconv.ParseFloat], expressions far below the size limit
    of [regexp.Compile], and the conversion of the amd64 port for a float
    outside [int64]. *)
Module Reading.

Definition tooLarge (expr : string) : bool := false.

(** A decimal literal [m / 10^d] as the nearest float. *)
Definition ParseFloat (s : string) : option PrimFloat.float :=
  option_map
    (fun '(m, d) =>
       PrimFloat.div (Generic.float64 m) (Generic.float64 (10 ^ Z.of_nat d)))
    (Ref.ParseFloat s).

Definition overflow (x : PrimFloat.float) : Z := (- 2 ^ 63)%Z.

Definition makeRule := Generic.makeRule tooLarge.
Definition directive := Generic.directive ToLower TrimSpace.
Definition parseLine :=
  Generic.parseLine ToLower TrimSpace tooLarge ParseFloat overflow.
Definition parseLines :=
  Generic.parseLines ToLower TrimSpace tooLarge ParseFloat overflow.
Definition Parse :=
  Generic.Parse ToLower TrimSpace tooLarge ParseFloat overflow
    Ref.urlParse Ref.idnaToASCII.
Definition CrawlDelay := Generic.CrawlDelay ToLower TrimSpace.
Definition IsAllowed :=
  Generic.IsAllowed ToLower TrimSpace Ref.urlParse Ref.idnaToASCII.

(** The parsed value, for a file whose URL is well formed. *)
Definition parsed (contents urlStr : string) : option RobotsTxt :=
  match Parse contents urlStr with
  | inl r => Some r
  | inr _ => None
  end.

(** The state of the loop of [Parse] after the given lines. *)
Definition stateAfter (lines : list string) : parser :=
  parseLines lines
    (initialParser
       {| URL.Scheme := "http"; URL.Host := "www.example.com";
          URL.Path := "/robots.txt" |}).

End Reading.

(** Two agents with a comment between them that holds a colon. *)
Definition commentBetweenAgents : list string :=
  ["User-agent: a"; "# see: the notes"; "User-agent: b"; "Disallow: /"].

(** * Properties *)

(** ** The rule-matching engine *)

Lemma isAllowedLoop_no_pattern rs path0 x result n :
  matchesPattern path0 x = false ->
  matchesLiteral path0 x = false ->
  isAllowedLoop (x :: rs) path0 result n = isAllowedLoop rs path0 result n.
Proof.
  unfold matchesPattern, matchesLiteral. simpl.
  destruct (pattern x) as [re|]; intros Hp Hl.
  - now rewrite Hp.
  - rewrite Hl. now destruct (_ <? _)%nat.
Qed.

Lemma isAllowedLoop_first_pattern pre x post path0 :
  Forall (fun y => matchesPattern path0 y = false) pre ->
  matchesPattern path0 x = true ->
  forall result n,
    isAllowedLoop (pre ++ x :: post) path0 result n = isAllowed x.
Proof.
  intros Hpre Hx. induction Hpre as [|y pre Hy _ IH]; intros result n.
  - simpl. unfold matchesPattern in Hx.
    destruct (pattern x) as [re|]; [now rewrite Hx | discriminate].
  - simpl. unfold matchesPattern in Hy.
    destruct (pattern y) as [re|].
    + rewrite Hy. apply IH.
    + destruct (_ <? _)%nat; [apply IH|].
      destruct (HasPrefix _ _); apply IH.
Qed.

Lemma find_split {A} (f : A -> bool) (l : list A) (x : A) :
  find f l = Some x ->
  exists pre post,
    l = pre ++ x :: post /\ f x = true /\ Forall (fun y => f y = false) pre.
Proof.
  induction l as [|a l IH]; simpl; [discriminate|].
  destruct (f a) eqn:Ha.
  - intros [= ->]. exists [], l. repeat split; auto.
  - intros H. destruct (IH H) as (pre & post & -> & Hx & Hpre).
    exists (a :: pre), post. repeat split; auto.
Qed.

(** C1.  When some pattern rule of the group matches the path, [isAllowed]
    returns the permission of the first pattern rule, in the order of the rule
    list, whose compiled form matches; the rules after it are not looked at,
    so a literal rule with a longer matching prefix that comes later changes
    nothing. *)
Theorem C1_first_matching_pattern_wins (g : group) (userAgent path0 : string)
    (x : rule) :
  find (matchesPattern path0) (rules g) = Some x ->
  group_isAllowed g userAgent path0 = isAllowed x.
Proof.
  intros H. apply find_split in H as (pre & post & Hg & Hx & Hpre).
  unfold group_isAllowed. rewrite Hg.
  now apply isAllowedLoop_first_pattern.
Qed.

(** The scenario of C1: a matching pattern that disallows, followed by a
    literal rule that allows and has a longer matching prefix. *)
Lemma C1_witness :
  group_isAllowed
    {| rules := [ {| isAllowed := false; path := "";
                     pattern := Some [Lit "/"; Lit "f"; AnyStar] |};
                  {| isAllowed := true; path := "/fish/index.php";
                     pattern := None |} ];
       crawlDelay := 0 |} "*" "/fish/index.php" = false.
Proof.
  apply (C1_first_matching_pattern_wins _ "*" "/fish/index.php"
           {| isAllowed := false; path := "";
              pattern := Some [Lit "/"; Lit "f"; AnyStar] |}).
  reflexivity.
Defined.

Lemma isAllowedLoop_before_best pre rest path0 best :
  Forall (fun y => matchesPattern path0 y = false) pre ->
  Forall (fun y => matchesLiteral path0 y = true ->
                   len (path y) <= best) pre ->
  forall result n, n <= best ->
    exists result' n', n' <= best /\
      isAllowedLoop (pre ++ rest) path0 result n =
      isAllowedLoop rest path0 result' n'.
Proof.
  intros Hpat. induction Hpat as [|y pre Hy _ IH]; intros Hlit result n Hn.
  - exists result, n. now split.
  - inversion Hlit as [|? ? Hy' Hlit']; subst.
    simpl. unfold matchesPattern in Hy. unfold matchesLiteral in Hy'.
    destruct (pattern y) as [re|].
    + rewrite Hy. now apply IH.
    + destruct (_ <? _)%nat; [now apply IH|].
      destruct (HasPrefix _ _); [|now apply IH].
      apply IH; auto.
Qed.

Lemma isAllowedLoop_after_best post path0 result best :
  Forall (fun y => matchesPattern path0 y = false) post ->
  Forall (fun y => matchesLiteral path0 y = true ->
                   len (path y) < best) post ->
  isAllowedLoop post path0 result best = result.
Proof.
  intros Hpat. induction Hpat as [|y post Hy _ IH]; intros Hlit.
  - reflexivity.
  - inversion Hlit as [|? ? Hy' Hlit']; subst.
    simpl. unfold matchesPattern in Hy. unfold matchesLiteral in Hy'.
    destruct (pattern y) as [re|].
    + rewrite Hy. now apply IH.
    + destruct (len (path y) <? best)%nat eqn:Hlt; [now apply IH|].
      destruct (HasPrefix _ _); [|now apply IH].
      apply Nat.ltb_ge in Hlt. specialize (Hy' eq_refl). lia.
Qed.

(** C2.  When no pattern rule matches the path: (1) [isAllowed] returns the
    permission of a matching literal rule that is at least as long as every
    matching literal rule before it and strictly longer than every matching
    literal rule after it, that is, of the longest matching literal rule and,
    among those of the greatest length, of the last one; (2) when no rule
    matches at all, the result is [true]. *)
Theorem C2_longest_literal_wins (g : group) (userAgent path0 : string) :
  Forall (fun y => matchesPattern path0 y = false) (rules g) ->
  (forall pre x post,
      rules g = pre ++ x :: post ->
      matchesLiteral path0 x = true ->
      Forall (fun y => matchesLiteral path0 y = true ->
                       len (path y) <= len (path x)) pre ->
      Forall (fun y => matchesLiteral path0 y = true ->
                       len (path y) < len (path x)) post ->
      group_isAllowed g userAgent path0 = isAllowed x) /\
  (Forall (fun y => matchesLiteral path0 y = false) (rules g) ->
   group_isAllowed g userAgent path0 = true).
Proof.
  intros Hpat. unfold group_isAllowed. split.
  - intros pre x post Hg Hx Hpre Hpost. rewrite Hg in *.
    apply Forall_app in Hpat as [Hpat1 Hpat2].
    inversion Hpat2 as [|? ? Hxp Hpat3]; subst.
    destruct (isAllowedLoop_before_best pre (x :: post) path0 (len (path x))
                Hpat1 Hpre true 0) as (res & n & Hn & ->); [lia|].
    simpl. unfold matchesLiteral in Hx.
    destruct (pattern x) as [re|]; [discriminate|].
    apply Nat.ltb_ge in Hn. rewrite Hn, Hx.
    now apply isAllowedLoop_after_best.
  - intros Hlit. induction (rules g) as [|y rs IH]; [reflexivity|].
    inversion Hpat; inversion Hlit; subst.
    rewrite isAllowedLoop_no_pattern; auto.
Qed.

(** The scenario of C2: among the two longest matching rules the later one
    decides. *)
Lemma C2_witness : group_isAllowed tieGroup "*" "/abc" = true.
Proof.
  refine (proj1 (C2_longest_literal_wins tieGroup "*" "/abc" _)
            [ {| isAllowed := true; path := "/a"; pattern := None |};
              {| isAllowed := false; path := "/ab"; pattern := None |} ]
            {| isAllowed := true; path := "/ab"; pattern := None |}
            [ {| isAllowed := false; path := "/abd"; pattern := None |} ]
            eq_refl eq_refl _ _).
  - repeat constructor.
  - repeat constructor; simpl; intros; lia.
  - repeat constructor; simpl; intros; discriminate.
Defined.

(** ** The directive parser *)

Lemma getGroup_fst r ua : fst (getGroup r ua) = groupOf r ua.
Proof. unfold getGroup, groupOf. now destruct (groups r !! ua). Qed.

Lemma getGroup_snd_groups r ua :
  groups (snd (getGroup r ua)) = <[ua := groupOf r ua]> (groups r).
Proof.
  unfold getGroup, groupOf. destruct (groups r !! ua) as [g|] eqn:E; simpl.
  - now rewrite insert_id.
  - reflexivity.
Qed.

Lemma getGroup_snd_rest r ua :
  url (snd (getGroup r ua)) = url r /\
  sitemaps (snd (getGroup r ua)) = sitemaps r /\
  host (snd (getGroup r ua)) = host r.
Proof. unfold getGroup. now destruct (groups r !! ua). Qed.

(** What [addPathRule] does to the map of groups. *)
Lemma addPathRule_groups r ua path0 allowed :
  groups (fst (addPathRule r ua path0 allowed)) =
  <[ua := match makeRule path0 allowed with
          | Some x => appendRule (groupOf r ua) x
          | None => groupOf r ua
          end]> (groups r).
Proof.
  unfold addPathRule, makeRule.
  pose proof (getGroup_fst r ua) as Hg.
  pose proof (getGroup_snd_groups r ua) as Hr.
  destruct (getGroup r ua) as [g r']. simpl in Hg, Hr. subst g.
  destruct (isPattern path0).
  - destruct (compilePattern _); simpl; rewrite Hr; [|reflexivity].
    now rewrite insert_insert_eq.
  - simpl. rewrite Hr. now rewrite insert_insert_eq.
Qed.

Lemma addPathRule_rest r ua path0 allowed :
  url (fst (addPathRule r ua path0 allowed)) = url r /\
  sitemaps (fst (addPathRule r ua path0 allowed)) = sitemaps r /\
  host (fst (addPathRule r ua path0 allowed)) = host r.
Proof.
  unfold addPathRule.
  pose proof (getGroup_snd_rest r ua) as Hr.
  destruct (getGroup r ua) as [g r']. simpl in Hr.
  destruct (isPattern path0); [destruct (compilePattern _)|]; exact Hr.
Qed.

Lemma attach_zero x g : attach x 0 g = g.
Proof.
  destruct g as [rs d]. unfold attach. simpl.
  destruct x; now rewrite app_nil_r.
Qed.

Lemma attach_succ x n g :
  attach x n (match x with Some y => appendRule g y | None => g end) =
  attach x (S n) g.
Proof.
  unfold attach, appendRule. destruct x as [y|]; simpl; [|reflexivity].
  now rewrite <- app_assoc.
Qed.

Lemma fold_addPathRule_lookup val allowed uas : forall r ua,
  groups (fold_left (fun r ua => fst (addPathRule r ua val allowed)) uas r) !! ua
  = if decide (ua ∈ uas)
    then Some (attach (makeRule val allowed) (count_occ string_dec uas ua)
                 (groupOf r ua))
    else groups r !! ua.
Proof.
  induction uas as [|a uas IH]; intros r ua.
  - destruct (decide (ua ∈ [])) as [Hin|_]; [|reflexivity].
    now apply not_elem_of_nil in Hin.
  - cbn [fold_left]. rewrite IH. unfold groupOf at 1.
    rewrite addPathRule_groups. cbn [count_occ].
    destruct (string_dec a ua) as [->|Hne].
    + rewrite lookup_insert_eq. unfold default, from_option, id.
      destruct (decide (ua ∈ ua :: uas)) as [_|Hnot];
        [|exfalso; apply Hnot, list_elem_of_here].
      destruct (decide (ua ∈ uas)) as [Hin|Hnot].
      * now rewrite attach_succ.
      * assert (count_occ string_dec uas ua = 0) as ->.
        { apply count_occ_not_In. now rewrite <- list_elem_of_In. }
        now rewrite <- attach_succ, attach_zero.
    + rewrite lookup_insert_ne by exact Hne.
      destruct (decide (ua ∈ uas)) as [Hin|Hnot];
        destruct (decide (ua ∈ a :: uas)) as [Hin'|Hnot']; try reflexivity.
      * exfalso. apply Hnot'. now apply list_elem_of_further.
      * exfalso. apply elem_of_cons in Hin' as [->|?]; congruence.
Qed.

Lemma fold_addPathRule_rest val allowed uas : forall r,
  let r' := fold_left (fun r ua => fst (addPathRule r ua val allowed)) uas r in
  url r' = url r /\ sitemaps r' = sitemaps r /\ host r' = host r.
Proof.
  induction uas as [|a uas IH]; intros r; simpl; [auto|].
  destruct (IH (fst (addPathRule r a val allowed))) as (H1 & H2 & H3).
  destruct (addPathRule_rest r a val allowed) as (G1 & G2 & G3).
  repeat split; congruence.
Qed.

(** ** Comment lines *)

Lemma TrimRight_hash s :
  startsWithHash s = true -> startsWithHash (TrimRight s) = true.
Proof.
  destruct s as [|c s]; [discriminate|]. cbn [startsWithHash TrimRight].
  intros Hc. destruct (TrimRight s); [|exact Hc].
  apply Ascii.eqb_eq in Hc as ->. reflexivity.
Qed.

Lemma ToLower_hash s :
  startsWithHash s = true -> startsWithHash (ToLower s) = true.
Proof.
  destruct s as [|c s]; [discriminate|]. cbn [startsWithHash ToLower].
  intros Hc. apply Ascii.eqb_eq in Hc as ->. reflexivity.
Qed.

Lemma recognized_hash key : startsWithHash key = true -> recognized key = false.
Proof.
  destruct key as [|c key]; [discriminate|]. cbn [startsWithHash].
  intros Hc. apply Ascii.eqb_eq in Hc as ->. reflexivity.
Qed.

(** The text before the first colon starts, blanks apart, like the line. *)
Lemma SplitN2_hash line part0 part1 :
  SplitN2 line ":" = [part0; part1] ->
  startsWithHash (TrimLeft line) = true ->
  startsWithHash (TrimLeft part0) = true.
Proof.
  revert part0. induction line as [|c line IH]; intros part0; [discriminate|].
  cbn [SplitN2]. destruct (Ascii.eqb c ":") eqn:Ec.
  - apply Ascii.eqb_eq in Ec as ->. intros [= <- <-]. discriminate.
  - destruct (SplitN2 line ":") as [|q0 [|q1 [|q2 l]]]; try discriminate.
    intros [= <- <-]. cbn [TrimLeft].
    destruct (isSpace c); [now apply IH | exact id].
Qed.

(** A comment line, whose first byte after the blanks is the number sign,
    is one of the ignored lines. *)
Lemma comment_is_ignored line :
  startsWithHash (TrimLeft line) = true -> ignoredLine line = true.
Proof.
  intros H. unfold ignoredLine, directive.
  destruct (SplitN2 line ":") as [|p0 [|p1 [|p2 l]]] eqn:E; try reflexivity.
  apply negb_true_iff, recognized_hash, ToLower_hash, TrimRight_hash.
  exact (SplitN2_hash line p0 p1 E H).
Qed.

Section ParserProperties.

Variable urlParse : string -> option URL.t.
Variable idnaToASCII : string -> option string.
Variable float64 : Type.
Variable ParseFloat : string -> option float64.
Variable secondsToDuration : float64 -> Z.

Local Abbreviation addCrawlDelay' :=
  (addCrawlDelay float64 ParseFloat secondsToDuration).
Local Abbreviation parseDirective' :=
  (parseDirective float64 ParseFloat secondsToDuration).
Local Abbreviation parseLine' :=
  (parseLine float64 ParseFloat secondsToDuration).
Local Abbreviation parseLines' :=
  (parseLines float64 ParseFloat secondsToDuration).
Local Abbreviation Parse' :=
  (Parse urlParse idnaToASCII float64 ParseFloat secondsToDuration).
Local Abbreviation IsAllowed' := (IsAllowed urlParse idnaToASCII).
Local Abbreviation parseAndNormalizeURL' :=
  (parseAndNormalizeURL urlParse idnaToASCII).

(** The delay a [crawl-delay] value stands for, when it parses. *)
Definition delayOf (val : string) : option Z :=
  option_map secondsToDuration (ParseFloat val).

Lemma addCrawlDelay_groups r ua val :
  groups (addCrawlDelay' r ua val) =
  <[ua := withDelay (delayOf val) (groupOf r ua)]> (groups r).
Proof.
  unfold addCrawlDelay, delayOf.
  pose proof (getGroup_fst r ua) as Hg.
  pose proof (getGroup_snd_groups r ua) as Hr.
  destruct (getGroup r ua) as [g r']. simpl in Hg, Hr. subst g.
  destruct (ParseFloat val); simpl; rewrite Hr; [|reflexivity].
  now rewrite insert_insert_eq.
Qed.

Lemma addCrawlDelay_rest r ua val :
  url (addCrawlDelay' r ua val) = url r /\
  sitemaps (addCrawlDelay' r ua val) = sitemaps r /\
  host (addCrawlDelay' r ua val) = host r.
Proof.
  unfold addCrawlDelay.
  pose proof (getGroup_snd_rest r ua) as Hr.
  destruct (getGroup r ua) as [g r']. simpl in Hr.
  destruct (ParseFloat val); exact Hr.
Qed.

Lemma withDelay_idem d g : withDelay d (withDelay d g) = withDelay d g.
Proof. now destruct d. Qed.

(** The loop [for _, ua := range userAgents] around [addCrawlDelay]. *)
Lemma fold_addCrawlDelay_lookup val uas : forall r ua,
  groups (fold_left (fun r ua => addCrawlDelay' r ua val) uas r) !! ua
  = if decide (ua ∈ uas)
    then Some (withDelay (delayOf val) (groupOf r ua))
    else groups r !! ua.
Proof.
  induction uas as [|a uas IH]; intros r ua.
  - destruct (decide (ua ∈ [])) as [Hin|_]; [|reflexivity].
    now apply not_elem_of_nil in Hin.
  - cbn [fold_left]. rewrite IH. unfold groupOf at 1.
    rewrite addCrawlDelay_groups.
    destruct (string_dec a ua) as [->|Hne].
    + rewrite lookup_insert_eq. unfold default, from_option, id.
      destruct (decide (ua ∈ ua :: uas)) as [_|Hnot];
        [|exfalso; apply Hnot, list_elem_of_here].
      destruct (decide (ua ∈ uas)); [now rewrite withDelay_idem | reflexivity].
    + rewrite lookup_insert_ne by exact Hne.
      destruct (decide (ua ∈ uas)) as [Hin|Hnot];
        destruct (decide (ua ∈ a :: uas)) as [Hin'|Hnot']; try reflexivity.
      * exfalso. apply Hnot'. now apply list_elem_of_further.
      * exfalso. apply elem_of_cons in Hin' as [->|?]; congruence.
Qed.

Lemma fold_addCrawlDelay_rest val uas : forall r,
  let r' := fold_left (fun r ua => addCrawlDelay' r ua val) uas r in
  url r' = url r /\ sitemaps r' = sitemaps r /\ host r' = host r.
Proof.
  induction uas as [|a uas IH]; intros r; simpl; [auto|].
  destruct (IH (addCrawlDelay' r a val)) as (H1 & H2 & H3).
  destruct (addCrawlDelay_rest r a val) as (G1 & G2 & G3).
  repeat split; congruence.
Qed.

(** A line without a colon leaves the three variables of the loop as they
    are. *)
Lemma parseLine_no_colon st line :
  directive line = None -> parseLine' st line = st.
Proof.
  unfold directive, parseLine.
  destruct (SplitN2 line ":") as [|p0 [|p1 [|p2 l]]]; try reflexivity.
  discriminate.
Qed.

Lemma parseLine_colon line key val :
  directive line = Some (key, val) ->
  exists rule0, key = ToLower rule0 /\
    forall st, parseLine' st line = parseDirective' st rule0 val.
Proof.
  unfold directive, parseLine.
  destruct (SplitN2 line ":") as [|p0 [|p1 [|p2 l]]]; try discriminate.
  intros [= <- <-]. now exists (TrimSpace p0).
Qed.

Lemma parseLine_user_agent st line val :
  directive line = Some ("user-agent", val) ->
  parseLine' st line =
  mkParser (robotsTxt st)
    ((if isNoneUserAgentState st then [] else userAgents st)
       ++ [normaliseUserAgent val]) false.
Proof. intros H. apply parseLine_colon in H as (rule0 & Hk & ->).
  unfold parseDirective. now rewrite <- Hk. Qed.

Lemma parseLine_path_rule st line val (allowed : bool) :
  directive line = Some (if allowed then "allow" else "disallow", val) ->
  parseLine' st line =
  mkParser
    (fold_left (fun r ua => fst (addPathRule r ua val allowed))
       (userAgents st) (robotsTxt st))
    (userAgents st) true.
Proof. intros H. apply parseLine_colon in H as (rule0 & Hk & ->).
  unfold parseDirective. rewrite <- Hk. now destruct allowed. Qed.

Lemma parseLine_crawl_delay st line val :
  directive line = Some ("crawl-delay", val) ->
  parseLine' st line =
  mkParser
    (fold_left (fun r ua => addCrawlDelay' r ua val)
       (userAgents st) (robotsTxt st))
    (userAgents st) true.
Proof. intros H. apply parseLine_colon in H as (rule0 & Hk & ->).
  unfold parseDirective. now rewrite <- Hk. Qed.

Lemma recognized_false key :
  recognized key = false ->
  String.eqb key "user-agent" = false /\ String.eqb key "allow" = false /\
  String.eqb key "disallow" = false /\ String.eqb key "crawl-delay" = false /\
  String.eqb key "sitemap" = false /\ String.eqb key "host" = false.
Proof.
  unfold recognized. cbn [existsb]. intros H.
  repeat (apply orb_false_elim in H as [? H]). auto 10.
Qed.

(** A line with a colon and a key that is empty or unknown changes one
    thing: it sets [isNoneUserAgentState]. *)
Lemma parseLine_unrecognized st line key val :
  directive line = Some (key, val) ->
  recognized key = false ->
  parseLine' st line = mkParser (robotsTxt st) (userAgents st) true.
Proof.
  intros H Hr. apply parseLine_colon in H as (rule0 & Hk & ->).
  unfold parseDirective. rewrite <- Hk.
  apply recognized_false in Hr as (-> & -> & -> & -> & -> & ->).
  reflexivity.
Qed.

(** ** The lines of a text *)

Lemma Split_noLF l : noLF l = true -> Split l LF = [l].
Proof.
  unfold noLF. induction l as [|c l IH]; [reflexivity|].
  cbn [Ref.contains Split]. rewrite negb_orb. intros [Hc Hl]%andb_true_iff.
  apply negb_true_iff in Hc. rewrite Hc, (IH Hl). reflexivity.
Qed.

Lemma Split_cons_line l rest :
  noLF l = true -> Split (l +:+ String LF rest) LF = l :: Split rest LF.
Proof.
  unfold noLF. induction l as [|c l IH].
  - intros _. cbn. reflexivity.
  - cbn [Ref.contains]. rewrite negb_orb. intros [Hc Hl]%andb_true_iff.
    apply negb_true_iff in Hc. simpl. rewrite Hc.
    simpl in IH. rewrite (IH Hl). reflexivity.
Qed.

(** Splitting the joined lines gives the lines back. *)
Lemma Split_joinLines ls :
  ls <> [] -> Forall (fun l => noLF l = true) ls ->
  Split (joinLines ls) LF = ls.
Proof.
  induction ls as [|l ls IH]; [congruence|]. intros _ H.
  inversion H as [|? ? Hl Hls]; subst.
  destruct ls as [|l' ls]; [now apply Split_noLF|].
  change (joinLines (l :: l' :: ls)) with (l +:+ String LF (joinLines (l' :: ls))).
  rewrite Split_cons_line by exact Hl. f_equal. now apply IH.
Qed.

(** ** The query functions *)

Lemma IsAllowed_same_origin r userAgent urlStr u :
  parseAndNormalizeURL' urlStr = inl u ->
  URL.Scheme u = URL.Scheme (url r) ->
  URL.Host u = URL.Host (url r) ->
  IsAllowed' r userAgent urlStr =
  match groups r !! normaliseUserAgent userAgent with
  | Some g => (group_isAllowed g userAgent (URL.Path u), None)
  | None =>
      match groups r !! "*" with
      | Some g => (group_isAllowed g userAgent (URL.Path u), None)
      | None => (true, None)
      end
  end.
Proof.
  intros Hu Hs Hh. unfold IsAllowed. rewrite Hu, Hs, Hh, !String.eqb_refl.
  reflexivity.
Qed.

Lemma IsAllowed_other_origin r userAgent urlStr u :
  parseAndNormalizeURL' urlStr = inl u ->
  URL.Scheme u <> URL.Scheme (url r) \/ URL.Host u <> URL.Host (url r) ->
  IsAllowed' r userAgent urlStr = (false, Some InvalidHostError).
Proof.
  intros Hu H. unfold IsAllowed. rewrite Hu.
  destruct H as [H|H]; apply String.eqb_neq in H; rewrite H;
    [reflexivity | now rewrite orb_true_r].
Qed.


Lemma parseDirective_url st rule0 val :
  url (robotsTxt (parseDirective' st rule0 val)) = url (robotsTxt st).
Proof.
  unfold parseDirective.
  repeat (match goal with |- context [if ?b then _ else _] =>
            destruct b end; cbn [robotsTxt url]; try reflexivity).
  - apply fold_addPathRule_rest.
  - apply fold_addPathRule_rest.
  - apply fold_addCrawlDelay_rest.
Qed.

Lemma parseLines_url lines : forall st,
  url (robotsTxt (parseLines' lines st)) = url (robotsTxt st).
Proof.
  induction lines as [|l lines IH]; intros st; [reflexivity|].
  unfold parseLines in *. cbn [fold_left]. rewrite IH.
  unfold parseLine.
  destruct (SplitN2 l ":") as [|p0 [|p1 [|p2 l']]]; try reflexivity.
  apply parseDirective_url.
Qed.

(** The URL a parsed file keeps is the normalised URL it was parsed with. *)
Lemma Parse_url contents base r :
  Parse' contents base = inl r -> parseAndNormalizeURL' base = inl (url r).
Proof.
  unfold Parse. destruct (parseAndNormalizeURL' base) as [u|e]; [|discriminate].
  intros [= <-]. now rewrite parseLines_url.
Qed.

(** C7, as amended.  (1) [IsAllowed] fails with a malformed-URL error exactly
    when the URL string does not parse or its host cannot be normalised to
    ASCII.  (2) It fails with [InvalidHostError] exactly when the URL
    normalises and its scheme or its normalised host differs from that of the
    URL of the file.  (3) For a file parsed with the URL [base], a query URL
    with the scheme of [base] whose host has the same ASCII form as the host
    of [base] (which is the case of a Unicode host and its Punycode form) is
    accepted: no error is returned.  Hosts are compared byte for byte; two
    hosts that differ in letter case are different hosts. *)
Theorem C7_errors_of_IsAllowed (r : RobotsTxt) (userAgent urlStr : string) :
  ((exists e, snd (IsAllowed' r userAgent urlStr) = Some e /\
              malformedURL e = true) <->
   (urlParse urlStr = None \/
    exists u, urlParse urlStr = Some u /\ idnaToASCII (URL.Host u) = None)) /\
  (snd (IsAllowed' r userAgent urlStr) = Some InvalidHostError <->
   exists u, parseAndNormalizeURL' urlStr = inl u /\
     (URL.Scheme u <> URL.Scheme (url r) \/ URL.Host u <> URL.Host (url r))) /\
  (forall contents base ub uq h,
     Parse' contents base = inl r ->
     urlParse base = Some ub ->
     urlParse urlStr = Some uq ->
     URL.Scheme uq = URL.Scheme ub ->
     idnaToASCII (URL.Host ub) = Some h ->
     idnaToASCII (URL.Host uq) = Some h ->
     snd (IsAllowed' r userAgent urlStr) = None).
Proof.
  split; [|split].
  - unfold IsAllowed, parseAndNormalizeURL.
    destruct (urlParse urlStr) as [u|].
    + destruct (idnaToASCII (URL.Host u)) as [h|] eqn:Eh.
      * split.
        -- intros (e & He & Hm). exfalso. revert He.
           destruct (_ || _); cbn; [intros [= <-]; discriminate|].
           destruct (groups r !! _); [discriminate|].
           destruct (groups r !! _); discriminate.
        -- intros [?|(u' & [= <-] & ?)]; congruence.
      * split; [right; now exists u|]. intros _. now exists IdnaError.
    + split; [now left|]. intros _. now exists UrlParseError.
  - split.
    + unfold IsAllowed.
      destruct (parseAndNormalizeURL' urlStr) as [u|e] eqn:Hu.
      * destruct (negb (String.eqb (URL.Scheme u) (URL.Scheme (url r)))) eqn:Hs.
        -- intros _. exists u. split; [reflexivity|left].
           now apply negb_true_iff, String.eqb_neq in Hs.
        -- destruct (negb (String.eqb (URL.Host u) (URL.Host (url r)))) eqn:Hh.
           ++ intros _. exists u. split; [reflexivity|right].
              now apply negb_true_iff, String.eqb_neq in Hh.
           ++ cbn. destruct (groups r !! _); [discriminate|].
              destruct (groups r !! _); discriminate.
      * cbn. intros [= ->]. unfold parseAndNormalizeURL in Hu.
        destruct (urlParse urlStr) as [u|]; [|discriminate].
        destruct (idnaToASCII _); discriminate.
    + intros (u & Hu & H). now rewrite (IsAllowed_other_origin _ _ _ _ Hu H).
  - intros contents base ub uq h HP Hb Hq Hs Hhb Hhq.
    apply Parse_url in HP. unfold parseAndNormalizeURL in HP.
    rewrite Hb, Hhb in HP. injection HP as HP.
    rewrite (IsAllowed_same_origin r userAgent urlStr
               {| URL.Scheme := URL.Scheme uq; URL.Host := h;
                  URL.Path := URL.Path uq |}).
    + destruct (groups r !! _); [reflexivity|].
      now destruct (groups r !! _).
    + unfold parseAndNormalizeURL. now rewrite Hq, Hhq.
    + rewrite <- HP. exact Hs.
    + now rewrite <- HP.
Qed.

(** C9.  (1) A [Disallow:] directive with an empty value appends, for every
    active agent, a literal rule that disallows and whose path is the empty
    string.  (2) For an agent whose rule set holds only that rule,
    [IsAllowed] answers [false], without an error, for every URL of the
    origin of the file. *)
Theorem C9_empty_disallow_blocks_everything :
  (forall st line ua,
     directive line = Some ("disallow", "") ->
     ua ∈ userAgents st ->
     exists g,
       groups (robotsTxt (parseLine' st line)) !! ua = Some g /\
       crawlDelay g = crawlDelay (groupOf (robotsTxt st) ua) /\
       rules g =
       rules (groupOf (robotsTxt st) ua) ++
       repeat {| isAllowed := false; path := ""; pattern := None |}
         (count_occ string_dec (userAgents st) ua)) /\
  (forall r userAgent g urlStr u,
     groups r !! normaliseUserAgent userAgent = Some g ->
     rules g = [ {| isAllowed := false; path := ""; pattern := None |} ] ->
     parseAndNormalizeURL' urlStr = inl u ->
     URL.Scheme u = URL.Scheme (url r) ->
     URL.Host u = URL.Host (url r) ->
     IsAllowed' r userAgent urlStr = (false, None)).
Proof.
  split.
  - intros st line ua H Hin.
    rewrite (parseLine_path_rule _ _ _ false H). cbn [robotsTxt].
    rewrite fold_addPathRule_lookup.
    destruct (decide (ua ∈ userAgents st)); [|contradiction].
    eexists. split; [reflexivity|]. split; reflexivity.
  - intros r userAgent g urlStr u Hg Hrules Hu Hs Hh.
    rewrite (IsAllowed_same_origin r userAgent urlStr u Hu Hs Hh), Hg.
    unfold group_isAllowed. rewrite Hrules. cbn. unfold HasPrefix.
    now destruct (URL.Path u).
Qed.

End ParserProperties.

(** ** Scenarios and witnesses, with the reference reading of the libraries *)

(** C4, as stated, fails: the line [Unknown: x] is an ignored line (its key
    is not a directive), and deleting it changes the parsed value.  With the
    line, the agent [a] has no rule set and every path is allowed for it;
    without the line, [a] and [b] share the rule [Disallow: /]. *)
Lemma C4_counterexample :
  ignoredLine "Unknown: x" = true /\
  Ref.Parse (joinLines unknownBetweenAgents) exampleURL <>
  Ref.Parse (joinLines consecutiveAgents) exampleURL /\
  (exists r, parsed (joinLines unknownBetweenAgents) exampleURL = Some r /\
     groups r !! "a" = None /\
     Ref.IsAllowed r "a" "http://www.example.com/x" = (true, None)) /\
  (exists r, parsed (joinLines consecutiveAgents) exampleURL = Some r /\
     Ref.IsAllowed r "a" "http://www.example.com/x" = (false, None)).
Proof.
  split; [reflexivity|]. split; [vm_compute; discriminate|]. split.
  - eexists. split; [vm_compute; reflexivity|]. vm_compute. now split.
  - eexists. split; [vm_compute; reflexivity|]. vm_compute. reflexivity.
Qed.



(** C7, as stated, fails in its last part: the host [WWW.EXAMPLE.COM] differs
    from the host of the file only in letter case, and the query is refused
    with [InvalidHostError]. *)
Lemma C7_counterexample :
  ToLower "WWW.EXAMPLE.COM" = "www.example.com" /\
  exists r, parsed "" "http://www.example.com/robots.txt" = Some r /\
    Ref.IsAllowed r "*" "http://WWW.EXAMPLE.COM/index.html" =
    (false, Some InvalidHostError).
Proof.
  split; [reflexivity|]. eexists. split; [vm_compute; reflexivity|].
  vm_compute. reflexivity.
Qed.

(** A query with the Unicode form of the host of the file is accepted. *)
Lemma C7_witness : snd (Ref.IsAllowed munichFile "*" munichURL) = None.
Proof.
  refine (proj2 (proj2 (C7_errors_of_IsAllowed Ref.urlParse Ref.idnaToASCII
                          Ref.float64 Ref.ParseFloat Ref.secondsToDuration
                          munichFile "*" munichURL))
            "" "http://www.xn--mnich-kva.com/robots.txt"
            {| URL.Scheme := "http"; URL.Host := "www.xn--mnich-kva.com";
               URL.Path := "/robots.txt" |}
            {| URL.Scheme := "http";
               URL.Host := "www.m" +:+ String (ascii_of_nat 195)
                             (String (ascii_of_nat 188) "nich.com");
               URL.Path := "/index.html" |}
            "www.xn--mnich-kva.com" _ _ _ _ _ _); vm_compute; reflexivity.
Defined.

(** The scenario of C9: the text parses to [blankDisallowFile], and a path
    of the origin is refused. *)
Lemma C9_witness :
  parsed (joinLines ["User-agent: *"; "Disallow:"]) exampleURL =
  Some blankDisallowFile /\
  Ref.IsAllowed blankDisallowFile "*" "http://www.example.com/any/page.html" =
  (false, None).
Proof.
  split; [vm_compute; reflexivity|].
  exact (proj2 (C9_empty_disallow_blocks_everything Ref.urlParse
                  Ref.idnaToASCII Ref.float64 Ref.ParseFloat
                  Ref.secondsToDuration)
           blankDisallowFile "*" _ "http://www.example.com/any/page.html"
           {| URL.Scheme := "http"; URL.Host := "www.example.com";
              URL.Path := "/any/page.html" |}
           eq_refl eq_refl eq_refl eq_refl eq_refl).
Defined.

(** ** The pattern compiler *)

#[local] Arguments String.append !_ _ : simpl nomatch.

(** ** Strings *)

Lemma append_nil_r s : s +:+ "" = s.
Proof. induction s as [|c s IH]; simpl; congruence. Qed.

Lemma append_assoc a b c : (a +:+ b) +:+ c = a +:+ (b +:+ c).
Proof. induction a as [|x a IH]; simpl; congruence. Qed.

Lemma length_append a b : len (a +:+ b) = len a + len b.
Proof. induction a as [|x a IH]; simpl; congruence. Qed.

Lemma sliceFrom_append a b : sliceFrom (len a) (a +:+ b) = b.
Proof. induction a as [|x a IH]; simpl; [now destruct b | exact IH]. Qed.

Lemma sliceTo_append a b : sliceTo (len a) (a +:+ b) = a.
Proof. induction a as [|x a IH]; simpl; [now destruct b | congruence]. Qed.

Lemma slice_split n : forall s, sliceTo n s +:+ sliceFrom n s = s.
Proof.
  induction n as [|n IH]; intros [|c s]; simpl; try reflexivity.
  now rewrite IH.
Qed.

Lemma HasSuffix_append a b : HasSuffix (a +:+ b) b = true.
Proof.
  unfold HasSuffix. rewrite length_append.
  replace (len a + len b - len b) with (len a) by lia.
  rewrite sliceFrom_append, String.eqb_refl, andb_true_r.
  apply Nat.leb_le. lia.
Qed.

Lemma HasSuffix_inv s sfx :
  HasSuffix s sfx = true -> exists pre, s = pre +:+ sfx.
Proof.
  unfold HasSuffix. intros [_ H]%andb_true_iff. apply String.eqb_eq in H.
  exists (sliceTo (len s - len sfx) s).
  pose proof (slice_split (len s - len sfx) s) as E. rewrite H in E.
  now symmetry.
Qed.

Lemma replaceSuffix_append a sfx rep :
  replaceSuffix (a +:+ sfx) sfx rep = a +:+ rep.
Proof.
  unfold replaceSuffix. rewrite HasSuffix_append, length_append.
  replace (len a + len sfx - len sfx) with (len a) by lia.
  now rewrite sliceTo_append.
Qed.

Lemma replaceSuffix_none s sfx rep :
  HasSuffix s sfx = false -> replaceSuffix s sfx rep = s.
Proof. unfold replaceSuffix. now intros ->. Qed.

Lemma list_of_append a b :
  list_ascii_of_string (a +:+ b) =
  list_ascii_of_string a ++ list_ascii_of_string b.
Proof. induction a as [|x a IH]; simpl; congruence. Qed.

Lemma list_of_length a : length (list_ascii_of_string a) = len a.
Proof. induction a as [|x a IH]; simpl; congruence. Qed.

Lemma list_of_inj a b :
  list_ascii_of_string a = list_ascii_of_string b -> a = b.
Proof.
  intros H. rewrite <- (string_of_list_ascii_of_string a),
    <- (string_of_list_ascii_of_string b). now rewrite H.
Qed.

(** Two texts with equally long ends are equal piece by piece. *)
Lemma append_inj_r a b x y :
  len x = len y -> a +:+ x = b +:+ y -> a = b /\ x = y.
Proof.
  intros Hl H. apply (f_equal list_ascii_of_string) in H.
  rewrite !list_of_append in H. apply app_inj_2 in H as [H1 H2].
  - split; now apply list_of_inj.
  - now rewrite !list_of_length.
Qed.

(** ** The pieces of an expression *)

Lemma render_app ts1 ts2 : render (ts1 ++ ts2) = render ts1 +:+ render ts2.
Proof.
  induction ts1 as [|t ts1 IH]; simpl; [reflexivity|].
  now rewrite IH, append_assoc.
Qed.

Lemma render_snoc ts t :
  render (ts ++ [t]) = (render ts +:+ initText t) +:+ String (lastByte t) "".
Proof.
  rewrite render_app, append_assoc. f_equal. simpl. rewrite append_nil_r.
  now destruct t.
Qed.

Lemma render_nonempty ts pre c : render ts = pre +:+ String c "" -> ts <> [].
Proof.
  intros H ->. simpl in H. apply (f_equal String.length) in H.
  rewrite length_append in H. simpl in H. lia.
Qed.

(** A text that ends with a byte that is not special ends with a byte
    piece. *)
Lemma render_snoc_byte ts pre c :
  forallb okTok ts = true ->
  render ts = pre +:+ String c "" ->
  special c = false ->
  exists ts', ts = ts' ++ [TByte c] /\ render ts' = pre.
Proof.
  intros Hok H Hc. pose proof (render_nonempty _ _ _ H) as Hne.
  destruct ts as [|t ts'] using rev_ind; [congruence|]. clear IHts'.
  rewrite render_snoc in H. apply append_inj_r in H as [Hpre Hlast];
    [|reflexivity].
  injection Hlast as Hlast.
  rewrite forallb_app in Hok. apply andb_true_iff in Hok as [_ Hok].
  simpl in Hok. rewrite andb_true_r in Hok.
  exists ts'. destruct t as [c'|c'| |]; simpl in *; subst.
  - now rewrite append_nil_r.
  - congruence.
  - discriminate.
  - discriminate.
Qed.

Lemma render_byteToks w : render (byteToks w) = string_of_list_ascii w.
Proof. induction w as [|c w IH]; simpl; congruence. Qed.

Lemma string_of_list_app l1 l2 :
  string_of_list_ascii (l1 ++ l2) =
  string_of_list_ascii l1 +:+ string_of_list_ascii l2.
Proof. induction l1 as [|c l1 IH]; simpl; congruence. Qed.

(** A text that ends with bytes that are not special ends with their byte
    pieces. *)
Lemma render_snoc_word w : forall ts pre,
  forallb okTok ts = true ->
  render ts = pre +:+ string_of_list_ascii w ->
  forallb (fun c => negb (special c)) w = true ->
  exists ts', ts = ts' ++ byteToks w /\ render ts' = pre.
Proof.
  induction w as [|c w IH] using rev_ind; intros ts pre Hok H Hw.
  - exists ts. simpl in *. rewrite app_nil_r. now rewrite append_nil_r in H.
  - rewrite forallb_app in Hw. apply andb_true_iff in Hw as [Hw Hc].
    simpl in Hc. rewrite andb_true_r in Hc. apply negb_true_iff in Hc.
    rewrite string_of_list_app, <- append_assoc in H. simpl in H.
    destruct (render_snoc_byte ts _ c Hok H Hc) as (ts1 & -> & H1).
    rewrite forallb_app in Hok. apply andb_true_iff in Hok as [Hok _].
    destruct (IH ts1 pre Hok H1 Hw) as (ts2 & -> & H2).
    exists ts2. split; [|exact H2].
    unfold byteToks. now rewrite map_app, app_assoc.
Qed.

(** Before the end anchor is written, a text that ends with an escaped
    dollar ends with its piece. *)
Lemma render_snoc_esc_dollar ts pre :
  forallb okTok ts = true ->
  forallb notEnd ts = true ->
  render ts = pre +:+ "\$" ->
  exists ts', ts = ts' ++ [TEsc "$"] /\ render ts' = pre.
Proof.
  intros Hok Hne H.
  change "\$" with ("\" +:+ "$") in H. rewrite <- append_assoc in H.
  pose proof (render_nonempty _ _ _ H) as Hnil.
  destruct ts as [|t ts'] using rev_ind; [congruence|]. clear IHts'.
  rewrite render_snoc in H. apply append_inj_r in H as [Hpre Hlast];
    [|reflexivity].
  injection Hlast as Hlast.
  rewrite forallb_app in Hok, Hne.
  apply andb_true_iff in Hok as [_ Hok]. apply andb_true_iff in Hne as [_ Hne].
  simpl in Hok, Hne. exists ts'.
  destruct t as [c'|c'| |]; simpl in *; subst; try discriminate.
  split; [reflexivity|].
  now apply append_inj_r in Hpre as [Hpre _].
Qed.

Lemma prefix_cons a s1 b s2 :
  String.prefix (String a s1) (String b s2) =
  Ascii.eqb a b && String.prefix s1 s2.
Proof.
  simpl. destruct (ascii_dec a b) as [->|Hne].
  - now rewrite Ascii.eqb_refl.
  - apply Ascii.eqb_neq in Hne. now rewrite Hne.
Qed.

Lemma prefix_nil s : String.prefix "" s = true.
Proof. now destruct s. Qed.

Lemma ReplaceFrom_here old new c s :
  ReplaceFrom old new 0 (String c s) =
  if String.prefix old (String c s)
  then new +:+ ReplaceFrom old new (len old - 1) s
  else String c (ReplaceFrom old new 0 s).
Proof. reflexivity. Qed.

Lemma ReplaceFrom_skip old new k c s :
  ReplaceFrom old new (S k) (String c s) = ReplaceFrom old new k s.
Proof. reflexivity. Qed.

(** A byte that is not special is none of the bytes the expression gives a
    meaning to. *)
Lemma not_special c x :
  special c = false -> special x = true -> Ascii.eqb x c = false.
Proof.
  intros Hc Hx. apply Ascii.eqb_neq. intros ->. congruence.
Qed.

Lemma QuoteMeta_render p : QuoteMeta p = render (quoteToks p).
Proof.
  unfold quoteToks. induction p as [|c p IH]; [reflexivity|].
  simpl. unfold quoteTok. destruct (special c); simpl; now rewrite IH.
Qed.

Lemma quoteToks_ok p :
  forallb okTok (quoteToks p) = true /\ forallb isQuoted (quoteToks p) = true.
Proof.
  unfold quoteToks. induction p as [|c p [IH1 IH2]]; [now split|].
  simpl. unfold quoteTok at 1 3. destruct (special c) eqn:E; simpl;
    rewrite ?E, IH1, IH2; now split.
Qed.

Lemma head_not_star ts :
  forallb okTok ts = true -> forallb isQuoted ts = true ->
  String.prefix "*" (render ts) = false.
Proof.
  destruct ts as [|[c|c| |] ts]; try reflexivity; try discriminate.
  intros [Hc _]%andb_true_iff _. simpl in Hc. apply negb_true_iff in Hc.
  change (render (TByte c :: ts)) with (String c (render ts)).
  now rewrite prefix_cons, (not_special c "*" Hc eq_refl).
Qed.

(** The first replacement of [compilePattern]: every escaped asterisk
    becomes the wildcard group. *)
Lemma Replace_wild ts :
  forallb okTok ts = true -> forallb isQuoted ts = true ->
  Replace (render ts) "\*" "(?:.*)" = render (map wildTok ts).
Proof.
  unfold Replace. induction ts as [|t ts IH]; [reflexivity|].
  intros [Ht Hok]%andb_true_iff [Hq Hqs]%andb_true_iff.
  specialize (IH Hok Hqs).
  destruct t as [c|c| |]; try discriminate; simpl in Ht.
  - apply negb_true_iff in Ht.
    change (render (TByte c :: ts)) with (String c (render ts)).
    rewrite ReplaceFrom_here, prefix_cons, (not_special c "\" Ht eq_refl).
    simpl. now rewrite IH.
  - change (render (TEsc c :: ts)) with (String "\" (String c (render ts))).
    rewrite ReplaceFrom_here, !prefix_cons, prefix_nil.
    rewrite andb_true_l, andb_true_r.
    destruct (Ascii.eqb_spec "*" c) as [<-|Hne].
    + simpl. now rewrite IH.
    + rewrite ReplaceFrom_here, prefix_cons, (head_not_star ts Hok Hqs).
      rewrite andb_false_r. simpl. rewrite IH.
      destruct (Ascii.eqb_spec c "*") as [->|_]; [congruence|reflexivity].
Qed.

Lemma wildToks_ok ts :
  forallb okTok ts = true -> forallb isQuoted ts = true ->
  forallb okTok (map wildTok ts) = true /\
  forallb notEnd (map wildTok ts) = true.
Proof.
  induction ts as [|t ts IH]; [now split|].
  intros [Ht Hok]%andb_true_iff [Hq Hqs]%andb_true_iff.
  destruct (IH Hok Hqs) as [IH1 IH2]. simpl. rewrite IH1, IH2.
  destruct t as [c|c| |]; try discriminate; simpl in *.
  - now rewrite Ht.
  - destruct (Ascii.eqb c "*"); simpl; now rewrite ?Ht.
Qed.

(** ** UTF-8 validity of the pieces *)

Lemma runeTail_ok c tail : runeTail c = Some tail -> tailOK tail = true.
Proof.
  unfold runeTail.
  repeat (match goal with |- context [if ?b then _ else _] =>
            destruct b end; try discriminate);
    intros [= <-]; reflexivity.
Qed.

Lemma runeTail_ascii c : nat_of_ascii c < 128 -> runeTail c = Some [].
Proof.
  intros H. unfold runeTail. apply Nat.ltb_lt in H. now rewrite H.
Qed.

Lemma inRange_ascii c r tail :
  nat_of_ascii c < 128 -> tailOK (r :: tail) = true -> inRange c r = false.
Proof.
  intros H [Hr _]%andb_true_iff. apply Nat.leb_le in Hr.
  unfold inRange. apply andb_false_iff. left. apply Nat.leb_gt. lia.
Qed.

Lemma special_cases c :
  special c = true ->
  In c (list_ascii_of_string "\.+*?()|[]{}^$").
Proof.
  unfold special. intros H. apply existsb_exists in H as (x & Hin & Hx).
  apply Ascii.eqb_eq in Hx. now subst.
Qed.

Lemma special_ascii c : special c = true -> nat_of_ascii c < 128.
Proof.
  intros H. apply special_cases in H. simpl in H.
  repeat (destruct H as [<-|H]; [apply Nat.ltb_lt; reflexivity|]).
  contradiction.
Qed.

Lemma special_punct c : special c = true -> isPunct c = true.
Proof.
  intros H. apply special_cases in H. simpl in H.
  repeat (destruct H as [<-|H]; [reflexivity|]). contradiction.
Qed.

Lemma validToks_ascii t ts tail :
  asciiTok t = true -> tailOK tail = true ->
  validToks tail (t :: ts) =
  match tail with [] => validToks [] ts | _ => false end.
Proof.
  intros Ht Hok. destruct t as [c|c| |]; try reflexivity.
  simpl in Ht. apply Nat.ltb_lt in Ht. destruct tail as [|r tail]; simpl.
  - now rewrite (runeTail_ascii c Ht).
  - now rewrite (inRange_ascii c r tail Ht Hok).
Qed.

(** A run of ASCII pieces needs a rune boundary before it and leaves one
    after it. *)
Lemma validToks_run run ts tail :
  run <> [] -> forallb asciiTok run = true -> tailOK tail = true ->
  validToks tail (run ++ ts) =
  match tail with [] => validToks [] ts | _ => false end.
Proof.
  intros Hne Hrun Hok. destruct run as [|t run]; [congruence|]. clear Hne.
  apply andb_true_iff in Hrun as [Ht Hrun]. simpl app.
  rewrite (validToks_ascii t _ tail Ht Hok).
  destruct tail; [|reflexivity]. clear Ht Hok.
  induction run as [|t' run IH]; [reflexivity|].
  apply andb_true_iff in Hrun as [Ht' Hrun]. simpl app.
  rewrite (validToks_ascii t' _ [] Ht' eq_refl). now apply IH.
Qed.

Lemma validToks_cons_congr t ts1 ts2 :
  (forall tail, tailOK tail = true -> validToks tail ts1 = validToks tail ts2) ->
  forall tail, tailOK tail = true ->
    validToks tail (t :: ts1) = validToks tail (t :: ts2).
Proof.
  intros H tail Hok. destruct t as [c|c| |]; simpl.
  - destruct tail as [|r tail].
    + destruct (runeTail c) as [tail'|] eqn:E; [|reflexivity].
      apply H. now apply runeTail_ok in E.
    + apply andb_true_iff in Hok as [_ Hok]. now rewrite (H tail Hok).
  - destruct tail; [now apply H|reflexivity].
  - destruct tail; [now apply H|reflexivity].
  - destruct tail; [now apply H|reflexivity].
Qed.

(** Replacing a run of ASCII pieces by another one keeps the validity. *)
Lemma validToks_swap_run ts1 run1 run2 ts2 :
  run1 <> [] -> run2 <> [] ->
  forallb asciiTok run1 = true -> forallb asciiTok run2 = true ->
  forall tail, tailOK tail = true ->
    validToks tail (ts1 ++ run1 ++ ts2) = validToks tail (ts1 ++ run2 ++ ts2).
Proof.
  intros N1 N2 A1 A2. induction ts1 as [|t ts1 IH]; intros tail Hok.
  - simpl app. now rewrite !validToks_run.
  - simpl app. now apply validToks_cons_congr.
Qed.

Lemma quoteToks_valid p : forall tail,
  tailOK tail = true -> validToks tail (quoteToks p) = utf8From tail p.
Proof.
  unfold quoteToks. induction p as [|c p IH]; intros tail Hok; [reflexivity|].
  simpl. unfold quoteTok. destruct (special c) eqn:E.
  - pose proof (special_ascii c E) as Hc. destruct tail as [|r tail].
    + rewrite (runeTail_ascii c Hc). now apply IH.
    + now rewrite (inRange_ascii c r tail Hc Hok).
  - destruct tail as [|r tail].
    + destruct (runeTail c) as [tail'|] eqn:Er; [|reflexivity].
      apply IH. now apply runeTail_ok in Er.
    + apply andb_true_iff in Hok as [_ Hok]. f_equal. now apply IH.
Qed.

Lemma wildToks_valid ts : forall tail,
  validToks tail (map wildTok ts) = validToks tail ts.
Proof.
  induction ts as [|t ts IH]; intros tail; [reflexivity|].
  destruct t as [c|c| |]; cbn [map wildTok].
  - cbn [validToks]. destruct tail as [|r tail]; [|now rewrite IH].
    destruct (runeTail c); [apply IH|reflexivity].
  - destruct (Ascii.eqb c "*"); cbn [validToks];
      destruct tail; try reflexivity; apply IH.
  - cbn [validToks]. destruct tail; [apply IH|reflexivity].
  - cbn [validToks]. destruct tail; [apply IH|reflexivity].
Qed.

(** ** The three suffix replacements and the last replacement *)

(** One suffix replacement, for a suffix that is the text of the pieces
    [old], whenever a text that ends with it ends with these pieces. *)
Lemma replaceSuffix_keeps ts old new :
  old <> [] -> new <> [] ->
  forallb asciiTok old = true -> forallb asciiTok new = true ->
  forallb okTok new = true ->
  (forall pre, render ts = pre +:+ render old ->
     exists ts', ts = ts' ++ old /\ render ts' = pre) ->
  forallb okTok ts = true ->
  keeps ts (replaceSuffix (render ts) (render old) (render new)).
Proof.
  intros N1 N2 A1 A2 Hnew Hcut Hok.
  destruct (HasSuffix (render ts) (render old)) eqn:E.
  - destruct (HasSuffix_inv _ _ E) as (pre & Hpre).
    destruct (Hcut pre Hpre) as (ts' & -> & <-).
    rewrite render_app, replaceSuffix_append, <- render_app.
    exists (ts' ++ new). split; [reflexivity|]. split.
    + rewrite forallb_app in *. apply andb_true_iff in Hok as [-> _].
      now rewrite Hnew.
    + intros tail Htail.
      rewrite <- (app_nil_r new), <- (app_nil_r old).
      now apply validToks_swap_run.
  - rewrite (replaceSuffix_none _ _ _ E). exists ts. now repeat split.
Qed.

(** The text of pieces starts with a byte that is not special exactly when
    the first piece is that byte. *)
Lemma prefix_render c w ts :
  special c = false ->
  String.prefix (String c w) (render ts) =
  match ts with
  | TByte b :: ts' => Ascii.eqb c b && String.prefix w (render ts')
  | _ => false
  end.
Proof.
  intros Hc. destruct ts as [|[b|b| |] ts]; try reflexivity.
  - change (render (TByte b :: ts)) with (String b (render ts)).
    apply prefix_cons.
  - change (render (TEsc b :: ts)) with (String "\" (String b (render ts))).
    now rewrite prefix_cons, (Ascii.eqb_sym c), (not_special c "\" Hc eq_refl).
  - change (render (TWild :: ts)) with (String "(" ("?:.*)" +:+ render ts)).
    now rewrite prefix_cons, (Ascii.eqb_sym c), (not_special c "(" Hc eq_refl).
  - change (render (TEnd :: ts)) with (String "$" (render ts)).
    now rewrite prefix_cons, (Ascii.eqb_sym c), (not_special c "$" Hc eq_refl).
Qed.

Lemma isStar_prefix ts : String.prefix "%2A" (render ts) = isStar ts.
Proof.
  rewrite prefix_render by reflexivity.
  destruct ts as [|[a|a| |] ts]; try reflexivity.
  rewrite prefix_render by reflexivity.
  destruct ts as [|[b|b| |] ts]; simpl; rewrite ?andb_false_r; try reflexivity.
  rewrite prefix_render by reflexivity.
  destruct ts as [|[c|c| |] ts]; simpl; rewrite ?andb_false_r; try reflexivity.
  rewrite prefix_nil, andb_true_r.
  now rewrite (Ascii.eqb_sym a), (Ascii.eqb_sym b), (Ascii.eqb_sym c), andb_assoc.
Qed.

Lemma isStar_true ts :
  isStar ts = true ->
  exists rest, ts = TByte "%" :: TByte "2" :: TByte "A" :: rest /\
    starToks ts = TEsc "*" :: starToks rest.
Proof.
  destruct ts as [|[a|a| |] [|[b|b| |] [|[c|c| |] rest]]]; try discriminate.
  intros H. exists rest. cbn [starToks]. unfold isStar in H. rewrite H.
  apply andb_true_iff in H as [[Ha Hb]%andb_true_iff Hc].
  apply Ascii.eqb_eq in Ha, Hb, Hc. now subst.
Qed.

Lemma isStar_false t ts :
  isStar (t :: ts) = false -> starToks (t :: ts) = t :: starToks ts.
Proof.
  destruct t as [a|a| |]; try reflexivity.
  destruct ts as [|[b|b| |] [|[c|c| |] rest]]; try reflexivity.
  intros H. cbn [starToks]. unfold isStar in H. now rewrite H.
Qed.

(** The last replacement of [compilePattern]: every [%2A] becomes an
    escaped asterisk. *)
Lemma Replace_star_keeps n : forall ts,
  length ts <= n -> forallb okTok ts = true ->
  ReplaceFrom "%2A" "\*" 0 (render ts) = render (starToks ts) /\
  forallb okTok (starToks ts) = true /\
  forall tail, tailOK tail = true ->
    validToks tail (starToks ts) = validToks tail ts.
Proof.
  induction n as [|n IH]; intros ts Hlen Hok.
  { destruct ts; [|simpl in Hlen; lia]. now repeat split. }
  destruct ts as [|t ts]; [now repeat split|].
  destruct (isStar (t :: ts)) eqn:E.
  - destruct (isStar_true _ E) as (rest & Hts & ->). rewrite Hts in *.
    simpl in Hlen. apply andb_true_iff in Hok as [_ Hok].
    apply andb_true_iff in Hok as [_ Hok]. apply andb_true_iff in Hok as [_ Hok].
    destruct (IH rest ltac:(lia) Hok) as (H1 & H2 & H3).
    split; [|split].
    + change (render (TByte "%" :: TByte "2" :: TByte "A" :: rest))
        with (String "%" (String "2" (String "A" (render rest)))).
      change (render (TEsc "*" :: starToks rest))
        with ("\*" +:+ render (starToks rest)).
      rewrite ReplaceFrom_here, !prefix_cons, prefix_nil, !Ascii.eqb_refl.
      cbn [andb]. change (len "%2A" - 1) with 2.
      now rewrite !ReplaceFrom_skip, H1.
    + simpl. exact H2.
    + intros tail Htail.
      change (TByte "%" :: TByte "2" :: TByte "A" :: rest)
        with ([TByte "%"; TByte "2"; TByte "A"] ++ rest).
      rewrite validToks_run by (try discriminate; auto).
      rewrite (validToks_ascii (TEsc "*")) by auto.
      destruct tail; [now apply H3|reflexivity].
  - rewrite (isStar_false _ _ E). simpl in Hlen.
    apply andb_true_iff in Hok as [Ht Hok].
    destruct (IH ts ltac:(lia) Hok) as (H1 & H2 & H3).
    split; [|split].
    + rewrite <- isStar_prefix in E.
      destruct t as [c|c| |].
      * change (render (TByte c :: ts)) with (String c (render ts)) in *.
        rewrite ReplaceFrom_here, E, H1. reflexivity.
      * change (render (TEsc c :: ts))
          with (String "\" (String c (render ts))) in *.
        rewrite ReplaceFrom_here, E, ReplaceFrom_here, prefix_cons.
        simpl in Ht. rewrite (Ascii.eqb_sym "%"), (not_special "%" c eq_refl Ht).
        rewrite andb_false_l, H1. reflexivity.
      * change (render (TWild :: ts)) with ("(?:.*)" +:+ render ts).
        change (render (TWild :: starToks ts))
          with ("(?:.*)" +:+ render (starToks ts)).
        rewrite <- H1. reflexivity.
      * change (render (TEnd :: ts)) with ("$" +:+ render ts).
        change (render (TEnd :: starToks ts))
          with ("$" +:+ render (starToks ts)).
        rewrite <- H1. reflexivity.
    + simpl. now rewrite Ht, H2.
    + now apply validToks_cons_congr.
Qed.

(** ** Compiling the text of pieces *)

Lemma parseRegexp_Top s : parseRegexp Top s = parseRegexp (InRune []) s.
Proof. now destruct s. Qed.

Lemma parseRegexp_boundary c s :
  parseRegexp (InRune []) (String c s) =
  if Ascii.eqb c "\" then parseRegexp Escaped s
  else if Ascii.eqb c "$" then emit EndText (parseRegexp Top s)
  else if Ascii.eqb c "(" then parseRegexp (InGroup "?:.*)") s
  else if special c then inr ErrOutsideModel
  else match runeTail c with
       | Some tail => emit (Lit c) (parseRegexp (InRune tail) s)
       | None => inr ErrInvalidUTF8
       end.
Proof. reflexivity. Qed.

Lemma parseRegexp_inside c s r tail :
  parseRegexp (InRune (r :: tail)) (String c s) =
  if inRange c r then emit (Lit c) (parseRegexp (InRune tail) s)
  else inr ErrInvalidUTF8.
Proof. reflexivity. Qed.

Lemma emit_if i (b : bool) re :
  emit i (if b then inl re else inr ErrInvalidUTF8) =
  if b then inl (i :: re) else inr ErrInvalidUTF8.
Proof. now destruct b. Qed.

(** The parser on the text of well-formed pieces: it fails only on bytes
    that are not UTF-8, and otherwise gives one instruction for each
    piece. *)
Lemma parseRegexp_render ts :
  forallb okTok ts = true ->
  forall tail, tailOK tail = true ->
    parseRegexp (InRune tail) (render ts) =
    if validToks tail ts then inl (map instOf ts) else inr ErrInvalidUTF8.
Proof.
  induction ts as [|t ts IH]; intros Hok tail Htail.
  { now destruct tail. }
  apply andb_true_iff in Hok as [Ht Hok]. specialize (IH Hok).
  destruct tail as [|r tail].
  - destruct t as [c|c| |]; simpl in Ht.
    + apply negb_true_iff in Ht.
      change (render (TByte c :: ts)) with (String c (render ts)).
      rewrite parseRegexp_boundary, Ht.
      rewrite (Ascii.eqb_sym c "\"), (not_special c "\" Ht eq_refl).
      rewrite (Ascii.eqb_sym c "$"), (not_special c "$" Ht eq_refl).
      rewrite (Ascii.eqb_sym c "("), (not_special c "(" Ht eq_refl).
      cbn [validToks]. destruct (runeTail c) as [tail'|] eqn:E; [|reflexivity].
      rewrite (IH tail' (runeTail_ok _ _ E)). apply emit_if.
    + change (render (TEsc c :: ts)) with (String "\" (String c (render ts))).
      rewrite parseRegexp_boundary. cbn [Ascii.eqb Bool.eqb].
      cbn [parseRegexp]. rewrite (special_punct c Ht), parseRegexp_Top.
      rewrite (IH [] eq_refl). cbn [validToks map instOf]. apply emit_if.
    + change (render (TWild :: ts)) with ("(?:.*)" +:+ render ts).
      transitivity (emit AnyStar (parseRegexp Top (render ts)));
        [reflexivity|].
      rewrite parseRegexp_Top, (IH [] eq_refl). apply emit_if.
    + change (render (TEnd :: ts)) with (String "$" (render ts)).
      transitivity (emit EndText (parseRegexp Top (render ts)));
        [reflexivity|].
      rewrite parseRegexp_Top, (IH [] eq_refl). apply emit_if.
  - pose proof Htail as Htail'. apply andb_true_iff in Htail' as [_ Htail'].
    destruct t as [c|c| |]; simpl in Ht.
    + change (render (TByte c :: ts)) with (String c (render ts)).
      rewrite parseRegexp_inside. cbn [validToks].
      destruct (inRange c r); [|reflexivity].
      rewrite (IH tail Htail'). apply emit_if.
    + change (render (TEsc c :: ts)) with (String "\" (String c (render ts))).
      rewrite parseRegexp_inside.
      now rewrite (inRange_ascii "\" r tail) by (auto; apply Nat.ltb_lt; reflexivity).
    + change (render (TWild :: ts)) with (String "(" ("?:.*)" +:+ render ts)).
      rewrite parseRegexp_inside.
      now rewrite (inRange_ascii "(" r tail) by (auto; apply Nat.ltb_lt; reflexivity).
    + change (render (TEnd :: ts)) with (String "$" (render ts)).
      rewrite parseRegexp_inside.
      now rewrite (inRange_ascii "$" r tail) by (auto; apply Nat.ltb_lt; reflexivity).
Qed.

(** The expression [compilePattern] builds is the text of well-formed
    pieces, as valid as the pattern. *)
Lemma patternSource_pieces p :
  exists ts, patternSource p = render ts /\ forallb okTok ts = true /\
    forall tail, tailOK tail = true -> validToks tail ts = utf8From tail p.
Proof.
  unfold patternSource. rewrite QuoteMeta_render.
  destruct (quoteToks_ok p) as [Hok Hq].
  rewrite (Replace_wild _ Hok Hq).
  destruct (wildToks_ok _ Hok Hq) as [Hok2 Hne2].
  set (ts2 := map wildTok (quoteToks p)) in *.
  assert (V2 : forall tail, tailOK tail = true ->
                 validToks tail ts2 = utf8From tail p).
  { intros tail Htail. unfold ts2.
    now rewrite wildToks_valid, quoteToks_valid. }
  (* the end anchor *)
  destruct (replaceSuffix_keeps ts2 [TEsc "$"] [TEnd]) as (ts3 & E3 & Hok3 & V3);
    try discriminate; try reflexivity; try exact Hok2.
  { intros pre H. now apply render_snoc_esc_dollar. }
  change (render [TEsc "$"]) with "\$" in E3.
  change (render [TEnd]) with "$" in E3. rewrite E3.
  (* the escaped dollar *)
  destruct (replaceSuffix_keeps ts3 (byteToks (list_ascii_of_string "%24"))
              [TEsc "$"]) as (ts4 & E4 & Hok4 & V4);
    try discriminate; try reflexivity; try exact Hok3.
  { intros pre H. apply render_snoc_word; auto. }
  change (render (byteToks (list_ascii_of_string "%24"))) with "%24" in E4.
  change (render [TEsc "$"]) with "\$" in E4. rewrite E4.
  (* the doubly escaped dollar *)
  destruct (replaceSuffix_keeps ts4 (byteToks (list_ascii_of_string "%2524"))
              (byteToks (list_ascii_of_string "%24")))
    as (ts5 & E5 & Hok5 & V5);
    try discriminate; try reflexivity; try exact Hok4.
  { intros pre H. apply render_snoc_word; auto. }
  change (render (byteToks (list_ascii_of_string "%2524"))) with "%2524" in E5.
  change (render (byteToks (list_ascii_of_string "%24"))) with "%24" in E5.
  rewrite E5.
  (* the escaped asterisks *)
  destruct (Replace_star_keeps (length ts5) ts5 (le_n _) Hok5)
    as (E6 & Hok6 & V6).
  unfold Replace. rewrite E6. exists (starToks ts5).
  split; [reflexivity|]. split; [exact Hok6|].
  intros tail Htail. now rewrite V6, V5, V4, V3, V2.
Qed.

(** What [compilePattern] returns: an error when, and only when, the
    pattern is not valid UTF-8, and the error is then [ErrInvalidUTF8]. *)
Lemma compilePattern_result p :
  if utf8Valid p
  then exists re, compilePattern p = inl re
  else compilePattern p = inr ErrInvalidUTF8.
Proof.
  destruct (patternSource_pieces p) as (ts & E & Hok & V).
  unfold compilePattern, regexpCompile. rewrite E, parseRegexp_Top.
  rewrite (parseRegexp_render ts Hok [] eq_refl), (V [] eq_refl).
  unfold utf8Valid. destruct (utf8From [] p); [|reflexivity].
  now eexists.
Qed.

(** ** Plain text through the pipeline *)

Lemma allBytes_app f a b : allBytes f (a +:+ b) = allBytes f a && allBytes f b.
Proof.
  induction a as [|c a IH]; [reflexivity|].
  simpl. now rewrite IH, andb_assoc.
Qed.

Lemma allBytes_impl (f g : ascii -> bool) s :
  (forall c, f c = true -> g c = true) ->
  allBytes f s = true -> allBytes g s = true.
Proof.
  intros H. induction s as [|c s IH]; [reflexivity|].
  simpl. intros [Hc Hs]%andb_true_iff. now rewrite (H c Hc), IH.
Qed.

Lemma plainByte_inv c :
  plainByte c = true ->
  nat_of_ascii c < 128 /\ special c = false /\ Ascii.eqb c "%" = false.
Proof.
  unfold plainByte. intros [[H1 H2]%andb_true_iff H3]%andb_true_iff.
  apply Nat.ltb_lt in H1. apply negb_true_iff in H2, H3. auto.
Qed.

Lemma plain_otherThan x a :
  special x = true \/ x = "%"%char ->
  plain a = true -> allBytes (otherThan x) a = true.
Proof.
  intros Hx. apply allBytes_impl. intros c (_ & Hs & Hp)%plainByte_inv.
  unfold otherThan. apply negb_true_iff. destruct Hx as [Hx| ->].
  - now apply not_special.
  - now rewrite Ascii.eqb_sym.
Qed.

Lemma plain_nonSpecial a : plain a = true -> allBytes nonSpecial a = true.
Proof.
  apply allBytes_impl. intros c (_ & Hs & _)%plainByte_inv.
  unfold nonSpecial. now rewrite Hs.
Qed.

(** The replacement steps over a text without the first byte of [old]. *)
Lemma ReplaceFrom_app x o new s rest :
  allBytes (otherThan x) s = true ->
  ReplaceFrom (String x o) new 0 (s +:+ rest) =
  s +:+ ReplaceFrom (String x o) new 0 rest.
Proof.
  induction s as [|c s IH]; [reflexivity|].
  simpl allBytes. intros [Hc Hs]%andb_true_iff.
  apply negb_true_iff in Hc.
  change (String c s +:+ rest) with (String c (s +:+ rest)).
  rewrite ReplaceFrom_here, prefix_cons, Hc.
  cbn [andb]. now rewrite (IH Hs).
Qed.

Lemma ReplaceFrom_all x o new s :
  allBytes (otherThan x) s = true -> ReplaceFrom (String x o) new 0 s = s.
Proof.
  intros H. rewrite <- (append_nil_r s) at 1.
  rewrite (ReplaceFrom_app x o new s "" H). simpl. apply append_nil_r.
Qed.

Lemma PathUnescape_app s rest :
  allBytes (otherThan "%") s = true ->
  PathUnescape (s +:+ rest) = option_map (String.append s) (PathUnescape rest).
Proof.
  induction s as [|c s IH];
    [intros _; simpl; now destruct (PathUnescape rest)|].
  simpl allBytes. intros [Hc Hs]%andb_true_iff.
  apply negb_true_iff in Hc. rewrite Ascii.eqb_sym in Hc.
  change (String c s +:+ rest) with (String c (s +:+ rest)).
  cbn [PathUnescape]. rewrite Hc, (IH Hs).
  now destruct (PathUnescape rest).
Qed.

Lemma PathUnescape_all s :
  allBytes (otherThan "%") s = true -> PathUnescape s = Some s.
Proof.
  intros H. rewrite <- (append_nil_r s) at 1.
  rewrite (PathUnescape_app s "" H). simpl. now rewrite append_nil_r.
Qed.

Lemma QuoteMeta_app s rest :
  allBytes nonSpecial s = true -> QuoteMeta (s +:+ rest) = s +:+ QuoteMeta rest.
Proof.
  induction s as [|c s IH]; [reflexivity|].
  simpl allBytes. intros [Hc Hs]%andb_true_iff.
  apply negb_true_iff in Hc.
  change (String c s +:+ rest) with (String c (s +:+ rest)).
  cbn [QuoteMeta]. now rewrite Hc, (IH Hs).
Qed.

Lemma IndexRune_found a c rest :
  (IndexRune (a +:+ String c rest) c >? -1)%Z = true.
Proof.
  apply Z.gtb_lt. induction a as [|d a IH]; simpl.
  - rewrite Ascii.eqb_refl. lia.
  - destruct (Ascii.eqb d c); [lia|].
    destruct (IndexRune (a +:+ String c rest) c <? 0)%Z eqn:E; [|lia].
    apply Z.ltb_lt in E. lia.
Qed.

Lemma IndexRune_none s c :
  allBytes (otherThan c) s = true -> IndexRune s c = (-1)%Z.
Proof.
  induction s as [|d s IH]; [reflexivity|].
  simpl allBytes. intros [Hd Hs]%andb_true_iff.
  apply negb_true_iff in Hd. rewrite Ascii.eqb_sym in Hd.
  simpl. now rewrite Hd, (IH Hs).
Qed.

Lemma lastChar_app x y :
  lastChar (x +:+ y) = match lastChar y with
                       | None => lastChar x
                       | l => l
                       end.
Proof.
  induction x as [|c x IH]; simpl; [now destruct (lastChar y)|].
  rewrite IH. now destruct (lastChar y).
Qed.

Lemma HasSuffix_lasts s w c d :
  lastChar s = Some c -> lastChar w = Some d -> c <> d ->
  HasSuffix s w = false.
Proof.
  intros Hs Hw Hne. destruct (HasSuffix s w) eqn:E; [|reflexivity].
  apply HasSuffix_inv in E as (pre & ->).
  rewrite lastChar_app, Hw in Hs. congruence.
Qed.

Ltac no_suffix :=
  eapply HasSuffix_lasts;
  [rewrite ?lastChar_app; reflexivity | reflexivity | discriminate].

Lemma plainToks_render a : render (plainToks a) = a.
Proof.
  unfold plainToks. rewrite render_byteToks.
  apply string_of_list_ascii_of_string.
Qed.

Lemma plainToks_ok a :
  plain a = true ->
  forallb okTok (plainToks a) = true /\ forallb asciiTok (plainToks a) = true.
Proof.
  unfold plainToks, byteToks, plain. induction a as [|c a IH]; [now split|].
  simpl allBytes. intros [Hc Ha]%andb_true_iff.
  destruct (IH Ha) as [IH1 IH2].
  apply plainByte_inv in Hc as (H1 & H2 & _). apply Nat.ltb_lt in H1.
  simpl. now rewrite H1, H2, IH1, IH2.
Qed.

Lemma plainToks_insts a : map instOf (plainToks a) = lits a.
Proof.
  unfold plainToks, byteToks. induction a as [|c a IH]; [reflexivity|].
  simpl. now rewrite IH.
Qed.

(** Compiling the text of ASCII pieces gives their instructions. *)
Lemma regexpCompile_ascii ts :
  forallb okTok ts = true -> forallb asciiTok ts = true ->
  regexpCompile (render ts) = inl (map instOf ts).
Proof.
  intros Hok Ha. unfold regexpCompile.
  rewrite parseRegexp_Top, (parseRegexp_render ts Hok [] eq_refl).
  destruct ts as [|t ts]; [reflexivity|].
  rewrite <- (app_nil_r (t :: ts)).
  now rewrite (validToks_run (t :: ts) [] []).
Qed.

(** Compiling plain texts with ASCII pieces between and after them. *)
Lemma regexpCompile_shape a mid b last :
  plain a = true -> plain b = true ->
  forallb okTok (mid ++ last) = true ->
  forallb asciiTok (mid ++ last) = true ->
  regexpCompile (a +:+ render mid +:+ b +:+ render last) =
  inl (lits a ++ map instOf mid ++ lits b ++ map instOf last).
Proof.
  intros Ha Hb Hok Has.
  destruct (plainToks_ok a Ha) as [Oa Aa].
  destruct (plainToks_ok b Hb) as [Ob Ab].
  rewrite forallb_app in Hok, Has.
  apply andb_true_iff in Hok as [Om Ol]. apply andb_true_iff in Has as [Am Al].
  rewrite <- (plainToks_render a), <- (plainToks_render b) at 1.
  rewrite <- !render_app, regexpCompile_ascii.
  - now rewrite !map_app, !plainToks_insts.
  - now rewrite !forallb_app, Oa, Om, Ob, Ol.
  - now rewrite !forallb_app, Aa, Am, Ab, Al.
Qed.

(** ** Shapes of directive paths *)

Ltac all_bytes :=
  rewrite ?allBytes_app;
  repeat (apply andb_true_intro; split);
  first [ reflexivity
        | apply plain_nonSpecial; assumption
        | apply plain_otherThan;
          [first [left; reflexivity | right; reflexivity] | assumption] ].

Lemma PathUnescape_pct25 rest :
  PathUnescape ("%25" +:+ rest) = option_map (String "%") (PathUnescape rest).
Proof. reflexivity. Qed.

Lemma PathUnescape_pct24 rest :
  PathUnescape ("%24" +:+ rest) = option_map (String "$") (PathUnescape rest).
Proof. reflexivity. Qed.

Lemma prefix_app o r : String.prefix o (o +:+ r) = true.
Proof.
  induction o as [|c o IH]; [apply prefix_nil|].
  change (String c o +:+ r) with (String c (o +:+ r)).
  now rewrite prefix_cons, Ascii.eqb_refl, IH.
Qed.

Lemma ReplaceFrom_skips old new o rest :
  ReplaceFrom old new (len o) (o +:+ rest) = ReplaceFrom old new 0 rest.
Proof. induction o as [|c o IH]; [reflexivity | exact IH]. Qed.

(** An occurrence of [old] is replaced. *)
Lemma ReplaceFrom_hit x o new rest :
  ReplaceFrom (String x o) new 0 (String x o +:+ rest) =
  new +:+ ReplaceFrom (String x o) new 0 rest.
Proof.
  change (String x o +:+ rest) with (String x (o +:+ rest)).
  rewrite ReplaceFrom_here, prefix_cons, Ascii.eqb_refl, prefix_app.
  cbn [andb]. f_equal.
  replace (len (String x o) - 1) with (len o) by (simpl; lia).
  apply ReplaceFrom_skips.
Qed.

Section Shapes.

Variables a b : string.
Hypothesis plain_a : plain a = true.
Hypothesis plain_b : plain b = true.

(** *** Pattern paths *)

Lemma isPattern_wild x y : isPattern (x +:+ "*" +:+ y) = true.
Proof.
  unfold isPattern. change ("*" +:+ y) with (String "*" y).
  now rewrite IndexRune_found.
Qed.

Lemma isPattern_wild_end x : isPattern (x +:+ "*") = true.
Proof. unfold isPattern. now rewrite IndexRune_found. Qed.

Lemma isPattern_dollar x : isPattern (x +:+ "$") = true.
Proof. unfold isPattern. rewrite HasSuffix_append. apply orb_true_r. Qed.

(** *** Literal paths *)

Lemma HasSuffix_absent s c :
  allBytes (otherThan c) s = true -> HasSuffix s (String c "") = false.
Proof.
  intros H. destruct (HasSuffix _ _) eqn:E; [|reflexivity].
  apply HasSuffix_inv in E as (pre & ->). rewrite allBytes_app in H.
  apply andb_true_iff in H as [_ H]. simpl in H. unfold otherThan in H.
  now rewrite Ascii.eqb_refl in H.
Qed.

Lemma isPattern_literal s :
  allBytes (otherThan "*") s = true -> allBytes (otherThan "$") s = true ->
  isPattern s = false.
Proof.
  intros H1 H2. unfold isPattern.
  now rewrite (IndexRune_none s "*" H1), (HasSuffix_absent s "$" H2).
Qed.

Lemma preparePath_literal_star :
  isPattern (a +:+ "%2A" +:+ b) = false /\
  preparePath (a +:+ "%2A" +:+ b) = a +:+ "%2A" +:+ b.
Proof.
  assert (H : isPattern (a +:+ "%2A" +:+ b) = false)
    by (apply isPattern_literal; all_bytes).
  split; [exact H|]. unfold preparePath. rewrite H.
  unfold Replace. rewrite ReplaceFrom_app by all_bytes.
  rewrite ReplaceFrom_hit, ReplaceFrom_all by all_bytes.
  rewrite PathUnescape_app by all_bytes.
  change ("%252A" +:+ b) with ("%25" +:+ "2A" +:+ b).
  rewrite PathUnescape_pct25, PathUnescape_all by all_bytes.
  reflexivity.
Qed.

End Shapes.

(** ** Matching *)

Lemma MatchString_iff re x :
  MatchString re x = true <->
  exists pre t, x = pre +:+ t /\ matchHere re t = true.
Proof.
  induction x as [|c x IH].
  - simpl. rewrite orb_false_r. split.
    + intros H. now exists "", "".
    + intros (pre & t & E & H). destruct pre, t; try discriminate. exact H.
  - cbn [MatchString]. rewrite orb_true_iff, IH. split.
    + intros [H|(pre & t & -> & H)].
      * now exists "", (String c x).
      * now exists (String c pre), t.
    + intros (pre & t & E & H). destruct pre as [|d pre].
      * left. simpl in E. now subst.
      * right. injection E as -> ->. now exists pre, t.
Qed.

Lemma prefix_same a x y :
  String.prefix (a +:+ x) (a +:+ y) = String.prefix x y.
Proof.
  induction a as [|c a IH]; [reflexivity|].
  change (String c a +:+ x) with (String c (a +:+ x)).
  change (String c a +:+ y) with (String c (a +:+ y)).
  now rewrite prefix_cons, Ascii.eqb_refl, IH.
Qed.

(** ** The properties of compiled rules *)

Lemma makeRule_pattern p allowed re :
  isPattern p = true ->
  patternSource (preparePath p) = re ->
  makeRule p allowed =
  match regexpCompile re with
  | inl x => Some {| isAllowed := allowed; path := ""; pattern := Some x |}
  | inr _ => None
  end.
Proof. intros H <-. unfold makeRule, compilePattern. now rewrite H. Qed.

(** C3, as stated, fails for a path whose percent-encoding is not valid,
    as in the rule [Disallow: /%24%A/test$] of the tests: the path is not
    unescaped, and the [%24], which is not the last token, matches the three
    bytes of [%24] and not a dollar.  The request path [/%24%A/test] is
    refused and the request path [/$%A/test] is allowed. *)
Lemma C3_counterexample :
  makeRule "/%24%A/test$" false =
    Some {| isAllowed := false; path := "";
            pattern := Some (lits "/%24%A/test" ++ [EndText]) |} /\
  exists r,
    parsed (joinLines ["User-agent: *"; "Disallow: /%24%A/test$"]) exampleURL
      = Some r /\
    Ref.IsAllowed r "*" "http://www.example.com/%2524%25A/test" = (false, None) /\
    Ref.IsAllowed r "*" "http://www.example.com/$%25A/test" = (true, None).
Proof.
  split; [vm_compute; reflexivity|].
  eexists. split; [vm_compute; reflexivity|]. vm_compute. now split.
Qed.

(** What the code does with an escaped asterisk in a literal rule: the
    stored path keeps the three bytes of [%2A], which are no prefix of a
    request path that has an asterisk there. *)
Lemma literal_rule_keeps_escaped_asterisk (a b c : string) (allowed : bool) :
  plain a = true -> plain b = true ->
  makeRule (a +:+ "%2A" +:+ b) allowed =
    Some {| isAllowed := allowed; path := a +:+ "%2A" +:+ b; pattern := None |} /\
  HasPrefix (a +:+ "*" +:+ c) (a +:+ "%2A" +:+ b) = false.
Proof.
  intros Ha Hb. destruct (preparePath_literal_star a b Ha Hb) as [Hp Hq].
  split.
  - unfold makeRule. now rewrite Hp, Hq.
  - unfold HasPrefix. now rewrite prefix_same.
Qed.

(** [compilePattern] never leaves the syntax the model of [regexp.Compile]
    covers. *)
Lemma compile_never_outside p : compilePattern p <> inr ErrOutsideModel.
Proof.
  pose proof (compilePattern_result p) as H.
  destruct (utf8Valid p); [destruct H as [re ->]|rewrite H]; discriminate.
Qed.

(** C10, as stated, fails: the pattern path [/%FF*] unescapes to a string
    that is not valid UTF-8, [compilePattern] returns an error, and the
    directive is dropped: the rule set of the agent is created and stays
    empty. *)
Lemma C10_counterexample :
  isPattern "/%FF*" = true /\
  compilePattern (preparePath "/%FF*") = inr ErrInvalidUTF8 /\
  exists r,
    parsed (joinLines ["User-agent: *"; "Disallow: /%FF*"]) exampleURL = Some r /\
    groups r !! "*" = Some emptyGroup.
Proof.
  split; [reflexivity|]. split; [reflexivity|].
  eexists. split; [vm_compute; reflexivity|]. reflexivity.
Qed.

(** * Further properties *)

(** ** White space and letter case *)

Lemma isSpace_lowerByte c : isSpace (lowerByte c) = isSpace c.
Proof. destruct c as [[] [] [] [] [] [] [] []]; reflexivity. Qed.

Lemma lowerByte_idem c : lowerByte (lowerByte c) = lowerByte c.
Proof. destruct c as [[] [] [] [] [] [] [] []]; reflexivity. Qed.

Lemma lowerByte_not_upper c : isUpper (lowerByte c) = false.
Proof. destruct c as [[] [] [] [] [] [] [] []]; reflexivity. Qed.

Lemma lowerByte_slash c : Ascii.eqb (lowerByte c) "/" = Ascii.eqb c "/".
Proof. destruct c as [[] [] [] [] [] [] [] []]; reflexivity. Qed.

Lemma lowerByte_colon c : Ascii.eqb (lowerByte c) ":" = Ascii.eqb c ":".
Proof. destruct c as [[] [] [] [] [] [] [] []]; reflexivity. Qed.

Lemma ToLower_idem s : ToLower (ToLower s) = ToLower s.
Proof.
  induction s as [|c s IH]; [reflexivity|].
  simpl. now rewrite lowerByte_idem, IH.
Qed.

Lemma ToLower_app a b : ToLower (a +:+ b) = ToLower a +:+ ToLower b.
Proof. induction a as [|c a IH]; simpl; congruence. Qed.

Lemma TrimLeft_ToLower s : TrimLeft (ToLower s) = ToLower (TrimLeft s).
Proof.
  induction s as [|c s IH]; [reflexivity|].
  simpl. rewrite isSpace_lowerByte. now destruct (isSpace c).
Qed.

Lemma TrimRight_ToLower s : TrimRight (ToLower s) = ToLower (TrimRight s).
Proof.
  induction s as [|c s IH]; [reflexivity|].
  simpl. rewrite IH, isSpace_lowerByte.
  destruct (TrimRight s); simpl; [now destruct (isSpace c)|reflexivity].
Qed.

Lemma TrimSpace_ToLower s : TrimSpace (ToLower s) = ToLower (TrimSpace s).
Proof. unfold TrimSpace. now rewrite TrimLeft_ToLower, TrimRight_ToLower. Qed.

(** After a first byte that is no white space, only the end is trimmed. *)
Lemma TrimRight_cons c s :
  isSpace c = false -> TrimRight (String c s) = String c (TrimRight s).
Proof. intros H. simpl. rewrite H. now destruct (TrimRight s). Qed.

Lemma TrimLeft_cases s :
  TrimLeft s = "" \/
  exists c t, TrimLeft s = String c t /\ isSpace c = false.
Proof.
  induction s as [|c s IH]; [now left|].
  simpl. destruct (isSpace c) eqn:E; [exact IH|].
  right. now exists c, s.
Qed.

Lemma TrimRight_idem s : TrimRight (TrimRight s) = TrimRight s.
Proof.
  induction s as [|c s IH]; [reflexivity|].
  simpl. destruct (TrimRight s) as [|d t] eqn:E.
  - destruct (isSpace c) eqn:Ec; [reflexivity|]. simpl. now rewrite Ec.
  - cbn [TrimRight] in *. now rewrite IH.
Qed.

Lemma TrimSpace_cases s :
  TrimSpace s = "" \/
  exists c t, TrimSpace s = String c (TrimRight t) /\ isSpace c = false.
Proof.
  unfold TrimSpace. destruct (TrimLeft_cases s) as [->|(c & t & -> & Hc)].
  - now left.
  - right. exists c, t. split; [now apply TrimRight_cons|exact Hc].
Qed.

Lemma TrimSpace_idem s : TrimSpace (TrimSpace s) = TrimSpace s.
Proof.
  destruct (TrimSpace_cases s) as [->|(c & t & -> & Hc)]; [reflexivity|].
  unfold TrimSpace. cbn [TrimLeft]. rewrite Hc.
  now rewrite (TrimRight_cons _ _ Hc), TrimRight_idem.
Qed.

Lemma lastChar_TrimRight s :
  match lastChar (TrimRight s) with
  | Some d => isSpace d = false
  | None => True
  end.
Proof.
  induction s as [|c s IH]; [exact I|].
  simpl. destruct (TrimRight s) as [|d t] eqn:E.
  - destruct (isSpace c) eqn:Ec; [exact I|exact Ec].
  - cbn [lastChar] in *. destruct (lastChar t); exact IH.
Qed.

Lemma trimmed_TrimSpace s : trimmed (TrimSpace s) = true.
Proof.
  destruct (TrimSpace_cases s) as [->|(c & t & E & Hc)]; [reflexivity|].
  pose proof (lastChar_TrimRight (TrimLeft s)) as H.
  fold (TrimSpace s) in H. rewrite E in *. unfold trimmed. rewrite Hc.
  destruct (lastChar _); [now rewrite H|reflexivity].
Qed.

Lemma lastChar_ToLower t :
  lastChar (ToLower t) = option_map lowerByte (lastChar t).
Proof.
  induction t as [|c t IH]; [reflexivity|].
  cbn [ToLower lastChar]. rewrite IH. now destruct (lastChar t).
Qed.

Lemma trimmed_ToLower s : trimmed (ToLower s) = trimmed s.
Proof.
  destruct s as [|c s]; [reflexivity|].
  unfold trimmed. rewrite lastChar_ToLower. cbn [ToLower].

  rewrite isSpace_lowerByte.
  destruct (lastChar (String c s)); cbn [option_map]; [|reflexivity].
  now rewrite isSpace_lowerByte.
Qed.

(** ** [normaliseUserAgent] *)

(** The cut at the first slash. *)
Lemma sliceTo_IndexRune s c :
  (if (IndexRune s c >? -1)%Z then sliceTo (Z.to_nat (IndexRune s c)) s else s)
  = Ref.before s c.
Proof.
  induction s as [|d s IH]; [reflexivity|].
  simpl. destruct (Ascii.eqb d c); [reflexivity|].
  destruct (IndexRune s c <? 0)%Z eqn:E.
  - apply Z.ltb_lt in E. f_equal. rewrite <- IH.
    destruct (IndexRune s c >? -1)%Z eqn:E'; [|reflexivity].
    apply Z.gtb_lt in E'. lia.
  - apply Z.ltb_ge in E.
    assert ((IndexRune s c + 1 >? -1)%Z = true) as -> by (apply Z.gtb_lt; lia).
    assert ((IndexRune s c >? -1)%Z = true) as H by (apply Z.gtb_lt; lia).
    rewrite H in IH. rewrite <- IH.
    replace (Z.to_nat (IndexRune s c + 1)) with (S (Z.to_nat (IndexRune s c)))
      by lia.
    reflexivity.
Qed.

Lemma normaliseUserAgent_before s :
  normaliseUserAgent s = ToLower (TrimSpace (Ref.before s "/")).
Proof. unfold normaliseUserAgent. cbv zeta. now rewrite sliceTo_IndexRune. Qed.

Lemma before_app s c rest : Ref.before (s +:+ String c rest) c = Ref.before s c.
Proof.
  induction s as [|d s IH]; simpl.
  - now rewrite Ascii.eqb_refl.
  - destruct (Ascii.eqb d c); [reflexivity|]. now rewrite IH.
Qed.

Lemma before_none s c :
  allBytes (otherThan c) s = true -> Ref.before s c = s.
Proof.
  induction s as [|d s IH]; [reflexivity|].
  simpl. unfold otherThan at 1. intros [Hd Hs]%andb_true_iff.
  apply negb_true_iff in Hd. rewrite Ascii.eqb_sym in Hd.
  now rewrite Hd, (IH Hs).
Qed.

Lemma before_otherThan s c : allBytes (otherThan c) (Ref.before s c) = true.
Proof.
  induction s as [|d s IH]; [reflexivity|].
  simpl. destruct (Ascii.eqb d c) eqn:E; [reflexivity|].
  simpl. unfold otherThan at 1. now rewrite Ascii.eqb_sym, E, IH.
Qed.

Lemma before_ToLower s :
  Ref.before (ToLower s) "/" = ToLower (Ref.before s "/").
Proof.
  induction s as [|d s IH]; [reflexivity|].
  simpl. rewrite lowerByte_slash. destruct (Ascii.eqb d "/"); [reflexivity|].
  simpl. now rewrite IH.
Qed.

Lemma allBytes_TrimLeft f s : allBytes f s = true -> allBytes f (TrimLeft s) = true.
Proof.
  induction s as [|c s IH]; [reflexivity|].
  simpl. intros [Hc Hs]%andb_true_iff.
  destruct (isSpace c); [now apply IH|]. simpl. now rewrite Hc, Hs.
Qed.

Lemma allBytes_TrimRight f s : allBytes f s = true -> allBytes f (TrimRight s) = true.
Proof.
  induction s as [|c s IH]; [reflexivity|].
  simpl. intros [Hc Hs]%andb_true_iff. specialize (IH Hs).
  destruct (TrimRight s).
  - destruct (isSpace c); [reflexivity|]. simpl. now rewrite Hc.
  - change (allBytes f (String c (String a s0))) with (f c && allBytes f (String a s0)).
    now rewrite Hc, IH.
Qed.

Lemma allBytes_ToLower f s :
  (forall c, f c = true -> f (lowerByte c) = true) ->
  allBytes f s = true -> allBytes f (ToLower s) = true.
Proof.
  intros H. induction s as [|c s IH]; [reflexivity|].
  simpl. intros [Hc Hs]%andb_true_iff. now rewrite (H c Hc), IH.
Qed.

Lemma allBytes_lower s : allBytes (fun c => negb (isUpper c)) (ToLower s) = true.
Proof.
  induction s as [|c s IH]; [reflexivity|].
  simpl. now rewrite lowerByte_not_upper, IH.
Qed.

Lemma normaliseUserAgent_no_slash s :
  allBytes (otherThan "/") (normaliseUserAgent s) = true.
Proof.
  rewrite normaliseUserAgent_before. apply allBytes_ToLower.
  - intros c. unfold otherThan. now rewrite (Ascii.eqb_sym _ (lowerByte c)),
      lowerByte_slash, (Ascii.eqb_sym c).
  - unfold TrimSpace. apply allBytes_TrimRight, allBytes_TrimLeft, before_otherThan.
Qed.

(** Normalising a normal form changes nothing. *)
Lemma normaliseUserAgent_idem s :
  normaliseUserAgent (normaliseUserAgent s) = normaliseUserAgent s.
Proof.
  rewrite (normaliseUserAgent_before (normaliseUserAgent s)).
  rewrite (before_none _ _ (normaliseUserAgent_no_slash s)).
  rewrite normaliseUserAgent_before.
  now rewrite TrimSpace_ToLower, TrimSpace_idem, ToLower_idem.
Qed.

(** X1.  The key [normaliseUserAgent] computes is in normal form: it holds
    no slash and no upper-case ASCII letter, it neither starts nor ends with
    white space, and normalising it again gives the same key. *)
Theorem normaliseUserAgent_normal_form (userAgent : string) :
  let key := normaliseUserAgent userAgent in
  IndexRune key "/" = (-1)%Z /\
  allBytes (fun c => negb (isUpper c)) key = true /\
  trimmed key = true /\
  normaliseUserAgent key = key.
Proof.
  cbv zeta. split; [|split; [|split]].
  - apply IndexRune_none, normaliseUserAgent_no_slash.
  - rewrite normaliseUserAgent_before. apply allBytes_lower.
  - rewrite normaliseUserAgent_before, trimmed_ToLower. apply trimmed_TrimSpace.
  - apply normaliseUserAgent_idem.
Qed.

(** X2.  Everything from the first slash on is ignored: a product token and
    the same token followed by a slash and a version have the same key. *)
Theorem normaliseUserAgent_drops_version (product version : string) :
  normaliseUserAgent (product +:+ "/" +:+ version) = normaliseUserAgent product.
Proof.
  rewrite !normaliseUserAgent_before.
  change ("/" +:+ version) with (String "/" version).
  now rewrite before_app.
Qed.

Lemma normaliseUserAgent_ToLower s :
  normaliseUserAgent (ToLower s) = normaliseUserAgent s.
Proof.
  rewrite !normaliseUserAgent_before, before_ToLower.
  now rewrite TrimSpace_ToLower, ToLower_idem.
Qed.

(** X3.  The agent of a query is matched without regard to letter case:
    two agent strings that differ only in the case of ASCII letters get the
    same answer from [IsAllowed] and from [CrawlDelay]. *)
Theorem queries_ignore_letter_case
    (urlParse : string -> option URL.t) (idnaToASCII : string -> option string)
    (r : RobotsTxt) (userAgent1 userAgent2 urlStr : string) :
  ToLower userAgent1 = ToLower userAgent2 ->
  IsAllowed urlParse idnaToASCII r userAgent1 urlStr =
  IsAllowed urlParse idnaToASCII r userAgent2 urlStr /\
  CrawlDelay r userAgent1 = CrawlDelay r userAgent2.
Proof.
  intros H.
  assert (E : normaliseUserAgent userAgent1 = normaliseUserAgent userAgent2).
  { rewrite <- (normaliseUserAgent_ToLower userAgent1), H.
    apply normaliseUserAgent_ToLower. }
  unfold IsAllowed, CrawlDelay, group_isAllowed. now rewrite E.
Qed.

(** ** Splitting a line at its first colon *)

Lemma SplitN2_cases s c :
  SplitN2 s c = [s] \/ exists p0 p1, SplitN2 s c = [p0; p1].
Proof.
  induction s as [|d s IH]; [now left|].
  simpl. destruct (Ascii.eqb d c); [right; eauto|].
  destruct IH as [->|(p0 & p1 & ->)]; [now left|right; eauto].
Qed.

(** Before the first occurrence of the separator stands the first part. *)
Lemma SplitN2_first k c v :
  allBytes (otherThan c) k = true ->
  SplitN2 (k +:+ String c v) c = [k; v].
Proof.
  induction k as [|d k IH]; simpl.
  - intros _. now rewrite Ascii.eqb_refl.
  - unfold otherThan at 1. intros [Hd Hk]%andb_true_iff.
    apply negb_true_iff in Hd. rewrite Ascii.eqb_sym in Hd.
    now rewrite Hd, (IH Hk).
Qed.

Lemma SplitN2_none s c :
  allBytes (otherThan c) s = true -> SplitN2 s c = [s].
Proof.
  induction s as [|d s IH]; [reflexivity|]. simpl.
  unfold otherThan at 1. intros [Hd Hs]%andb_true_iff.
  apply negb_true_iff in Hd. rewrite Ascii.eqb_sym in Hd.
  now rewrite Hd, (IH Hs).
Qed.

Lemma SplitN2_app_l w s c :
  allBytes (otherThan c) w = true ->
  SplitN2 (w +:+ s) c =
  match SplitN2 s c with
  | [p0; p1] => [w +:+ p0; p1]
  | _ => [w +:+ s]
  end.
Proof.
  induction w as [|d w IH].
  - intros _. simpl.
    destruct (SplitN2_cases s c) as [->|(p0 & p1 & ->)]; reflexivity.
  - simpl allBytes. unfold otherThan at 1. intros [Hd Hw]%andb_true_iff.
    apply negb_true_iff in Hd. rewrite Ascii.eqb_sym in Hd.
    change (String d w +:+ s) with (String d (w +:+ s)).
    cbn [SplitN2]. rewrite Hd, (IH Hw).
    destruct (SplitN2_cases s c) as [->|(p0 & p1 & ->)]; reflexivity.
Qed.

Lemma SplitN2_app_r s w c :
  allBytes (otherThan c) w = true ->
  SplitN2 (s +:+ w) c =
  match SplitN2 s c with
  | [p0; p1] => [p0; p1 +:+ w]
  | _ => [s +:+ w]
  end.
Proof.
  intros Hw. induction s as [|d s IH].
  - simpl. now apply SplitN2_none.
  - change (String d s +:+ w) with (String d (s +:+ w)).
    cbn [SplitN2]. destruct (Ascii.eqb d c); [reflexivity|].
    rewrite IH.
    destruct (SplitN2_cases s c) as [->|(p0 & p1 & ->)]; reflexivity.
Qed.

Lemma TrimLeft_space w s :
  allBytes isSpace w = true -> TrimLeft (w +:+ s) = TrimLeft s.
Proof.
  induction w as [|c w IH]; [reflexivity|].
  simpl. intros [Hc Hw]%andb_true_iff. now rewrite Hc, (IH Hw).
Qed.

Lemma TrimRight_all_space w : allBytes isSpace w = true -> TrimRight w = "".
Proof.
  induction w as [|c w IH]; [reflexivity|].
  simpl. intros [Hc Hw]%andb_true_iff. now rewrite (IH Hw), Hc.
Qed.

Lemma TrimRight_space s w :
  allBytes isSpace w = true -> TrimRight (s +:+ w) = TrimRight s.
Proof.
  intros Hw. induction s as [|c s IH].
  - simpl. now apply TrimRight_all_space.
  - change (String c s +:+ w) with (String c (s +:+ w)).
    cbn [TrimRight]. now rewrite IH.
Qed.

Lemma TrimLeft_app_space s w :
  allBytes isSpace w = true ->
  exists w', allBytes isSpace w' = true /\ TrimLeft (s +:+ w) = TrimLeft s +:+ w'.
Proof.
  intros Hw. induction s as [|c s IH].
  - exists "". split; [reflexivity|]. simpl.
    rewrite <- (append_nil_r w), (TrimLeft_space w "" Hw). reflexivity.
  - change (String c s +:+ w) with (String c (s +:+ w)).
    cbn [TrimLeft]. destruct (isSpace c); [exact IH|]. now exists w.
Qed.

Lemma TrimSpace_space w1 s w2 :
  allBytes isSpace w1 = true -> allBytes isSpace w2 = true ->
  TrimSpace (w1 +:+ s +:+ w2) = TrimSpace s.
Proof.
  intros H1 H2. unfold TrimSpace. rewrite (TrimLeft_space _ _ H1).
  destruct (TrimLeft_app_space s w2 H2) as (w' & Hw' & ->).
  now apply TrimRight_space.
Qed.

Lemma space_no_colon w :
  allBytes isSpace w = true -> allBytes (otherThan ":") w = true.
Proof.
  apply allBytes_impl. intros c.
  destruct c as [[] [] [] [] [] [] [] []]; (reflexivity || discriminate).
Qed.

(** White space around a line does not change its key and value. *)
Lemma directive_space w1 line w2 :
  allBytes isSpace w1 = true -> allBytes isSpace w2 = true ->
  directive (w1 +:+ line +:+ w2) = directive line.
Proof.
  intros H1 H2. unfold directive.
  rewrite (SplitN2_app_l _ _ _ (space_no_colon _ H1)).
  rewrite (SplitN2_app_r _ _ _ (space_no_colon _ H2)).
  destruct (SplitN2_cases line ":") as [->|(p0 & p1 & ->)]; [reflexivity|].
  rewrite <- (append_nil_r (w1 +:+ p0)), append_assoc.
  rewrite (TrimSpace_space w1 p0 "" H1 eq_refl).
  change (p1 +:+ w2) with ("" +:+ p1 +:+ w2).
  now rewrite (TrimSpace_space "" p1 w2 eq_refl H2).
Qed.

Lemma directive_first_colon k v :
  allBytes (otherThan ":") k = true ->
  directive (k +:+ ":" +:+ v) = Some (ToLower (TrimSpace k), TrimSpace v).
Proof.
  intros H. unfold directive. change (":" +:+ v) with (String ":" v).
  now rewrite (SplitN2_first _ _ _ H).
Qed.

(** ** The rules that do not match *)

Lemma matchesRule_false path0 x :
  matchesRule path0 x = false ->
  matchesPattern path0 x = false /\ matchesLiteral path0 x = false.
Proof. apply orb_false_elim. Qed.

(** X4.  The rules that do not match the path take no part in the answer:
    [isAllowed] answers as it would for the group without them. *)
Theorem isAllowed_ignores_other_rules (g : group) (userAgent path0 : string) :
  group_isAllowed g userAgent path0 =
  group_isAllowed
    {| rules := List.filter (matchesRule path0) (rules g);
       crawlDelay := crawlDelay g |} userAgent path0.
Proof.
  unfold group_isAllowed. cbn [rules]. generalize true, 0.
  induction (rules g) as [|x rs IH]; intros result n; [reflexivity|].
  cbn [List.filter]. destruct (matchesRule path0 x) eqn:E.
  - cbn [isAllowedLoop]. destruct (pattern x) as [re|].
    + destruct (MatchString re path0); [reflexivity|apply IH].
    + destruct (_ <? _)%nat; [apply IH|].
      destruct (HasPrefix path0 (path x)); apply IH.
  - apply matchesRule_false in E as [E1 E2].
    rewrite (isAllowedLoop_no_pattern rs path0 x result n E1 E2). apply IH.
Qed.

(** ** [replaceSuffix] and [isPattern] *)

(** X5.  [replaceSuffix] replaces the suffix of a string that ends with
    it, once and at the end only, and returns every other string as it
    is. *)
Theorem replaceSuffix_spec (str sfx replacement : string) :
  (forall pre, str = pre +:+ sfx ->
     replaceSuffix str sfx replacement = pre +:+ replacement) /\
  ((forall pre, str <> pre +:+ sfx) ->
     replaceSuffix str sfx replacement = str).
Proof.
  split.
  - intros pre ->. apply replaceSuffix_append.
  - intros H. apply replaceSuffix_none.
    destruct (HasSuffix str sfx) eqn:E; [|reflexivity].
    apply HasSuffix_inv in E as (pre & E). now apply H in E.
Qed.

Lemma allBytes_false_split f s :
  allBytes f s = false ->
  exists a c b, s = a +:+ String c b /\ f c = false.
Proof.
  induction s as [|d s IH]; [discriminate|].
  simpl. destruct (f d) eqn:E.
  - intros (a & c & b & -> & Hc)%IH. now exists (String d a), c, b.
  - intros _. now exists "", d, s.
Qed.

(** X6.  [isPattern] holds of the paths that have an asterisk somewhere or
    a dollar as their last byte, and of no other: a dollar inside a path
    does not make a pattern. *)
Theorem isPattern_spec (path0 : string) :
  isPattern path0 = true <->
  (exists a b, path0 = a +:+ "*" +:+ b) \/ (exists a, path0 = a +:+ "$").
Proof.
  split.
  - unfold isPattern. destruct (allBytes (otherThan "*") path0) eqn:E.
    + rewrite (IndexRune_none _ _ E). cbn [orb Z.gtb Z.compare].
      intros (a & ->)%HasSuffix_inv. right. now exists a.
    + intros _. left. apply allBytes_false_split in E as (a & c & b & -> & Hc).
      unfold otherThan in Hc. apply negb_false_iff, Ascii.eqb_eq in Hc.
      subst c. now exists a, b.
  - intros [(a & b & ->)|(a & ->)].
    + apply isPattern_wild.
    + apply isPattern_dollar.
Qed.

(** ** Paths without a percent sign *)

Lemma HasSuffix_percent s rest :
  allBytes (otherThan "%") s = true -> HasSuffix s (String "%" rest) = false.
Proof.
  intros H. destruct (HasSuffix _ _) eqn:E; [|reflexivity].
  apply HasSuffix_inv in E as (pre & ->). rewrite allBytes_app in H.
  apply andb_true_iff in H as [_ H]. discriminate.
Qed.

Lemma preparePath_no_percent p :
  allBytes (otherThan "%") p = true -> preparePath p = p.
Proof.
  intros H. unfold preparePath.
  rewrite (replaceSuffix_none _ _ _ (HasSuffix_percent p "24" H)).
  assert (E : Replace (if isPattern p then p else p) "%2A" "%252A" = p).
  { destruct (isPattern p); unfold Replace; now apply ReplaceFrom_all. }
  rewrite E. now rewrite (PathUnescape_all p H).
Qed.

Lemma makeRule_no_percent p allowed :
  allBytes (otherThan "%") p = true -> isPattern p = false ->
  makeRule p allowed =
  Some {| isAllowed := allowed; path := p; pattern := None |}.
Proof.
  intros H Hp. unfold makeRule. now rewrite Hp, (preparePath_no_percent _ H).
Qed.

(** X7.  A directive path without a percent sign is taken as it is
    written: nothing is replaced or unescaped in it, and when it is no
    pattern it is stored, byte for byte, as the prefix to match. *)
Theorem path_without_percent_is_verbatim (path0 : string) (allowed : bool) :
  allBytes (otherThan "%") path0 = true ->
  preparePath path0 = path0 /\
  (isPattern path0 = false ->
   makeRule path0 allowed =
   Some {| isAllowed := allowed; path := path0; pattern := None |}).
Proof.
  intros H. split; [now apply preparePath_no_percent|].
  now apply makeRule_no_percent.
Qed.

(** ** Wildcards *)

Lemma matchHere_lits_star w : forall t,
  matchHere (lits w ++ [AnyStar]) t = String.prefix w t.
Proof.
  induction w as [|c w IH]; intros t.
  - rewrite prefix_nil. now destruct t.
  - destruct t as [|d t]; [reflexivity|].
    change (lits (String c w) ++ [AnyStar]) with (Lit c :: (lits w ++ [AnyStar])).
    cbn [matchHere]. now rewrite IH, prefix_cons.
Qed.

Lemma prefix_inv w : forall t,
  String.prefix w t = true -> exists post, t = w +:+ post.
Proof.
  induction w as [|c w IH]; intros t.
  - intros _. now exists t.
  - destruct t as [|d t]; [discriminate|].
    rewrite prefix_cons. intros [Hc Hw]%andb_true_iff.
    apply Ascii.eqb_eq in Hc as ->. apply IH in Hw as (post & ->).
    now exists post.
Qed.

Section Wildcards.

Variables a b : string.
Hypothesis plain_a : plain a = true.
Hypothesis plain_b : plain b = true.

Lemma patternSource_wild : patternSource (a +:+ "*") = a +:+ "(?:.*)".
Proof.
  unfold patternSource. rewrite QuoteMeta_app by all_bytes.
  change (QuoteMeta "*") with "\*".
  unfold Replace at 2. rewrite ReplaceFrom_app by all_bytes.
  change (ReplaceFrom "\*" "(?:.*)" 0 "\*") with "(?:.*)".
  rewrite (replaceSuffix_none _ "\$") by no_suffix.
  rewrite (replaceSuffix_none _ "%24") by no_suffix.
  rewrite (replaceSuffix_none _ "%2524") by no_suffix.
  unfold Replace. now rewrite ReplaceFrom_all by all_bytes.
Qed.

Lemma patternSource_wild_anchor :
  patternSource (a +:+ "*" +:+ b +:+ "$") = a +:+ "(?:.*)" +:+ b +:+ "$".
Proof.
  unfold patternSource. rewrite QuoteMeta_app by all_bytes.
  change (QuoteMeta ("*" +:+ b +:+ "$")) with ("\*" +:+ QuoteMeta (b +:+ "$")).
  rewrite QuoteMeta_app by all_bytes. change (QuoteMeta "$") with "\$".
  unfold Replace at 2. rewrite ReplaceFrom_app by all_bytes.
  rewrite ReplaceFrom_hit, ReplaceFrom_app by all_bytes.
  change (ReplaceFrom "\*" "(?:.*)" 0 "\$") with "\$".
  rewrite <- !append_assoc, replaceSuffix_append.
  rewrite (replaceSuffix_none _ "%24") by no_suffix.
  rewrite (replaceSuffix_none _ "%2524") by no_suffix.
  unfold Replace. rewrite ReplaceFrom_all by all_bytes.
  now rewrite !append_assoc.
Qed.

Lemma preparePath_lower_escape :
  preparePath (a +:+ "%2a" +:+ b +:+ "$") = a +:+ "*" +:+ b +:+ "$".
Proof.
  unfold preparePath.
  rewrite <- !append_assoc, isPattern_dollar, !append_assoc.
  rewrite replaceSuffix_none by no_suffix.
  unfold Replace. rewrite ReplaceFrom_app by all_bytes.
  change (ReplaceFrom "%2A" "%252A" 0 ("%2a" +:+ b +:+ "$"))
    with ("%2a" +:+ ReplaceFrom "%2A" "%252A" 0 (b +:+ "$")).
  rewrite ReplaceFrom_all by all_bytes.
  rewrite PathUnescape_app by all_bytes.
  change (PathUnescape ("%2a" +:+ b +:+ "$"))
    with (option_map (String "*") (PathUnescape (b +:+ "$"))).
  now rewrite PathUnescape_all by all_bytes.
Qed.

End Wildcards.

(** X8.  A pattern is searched for anywhere in the request path: the
    compiled expression is not anchored at the start.  The rule [a*], for a
    plain text [a], compiles to the literals of [a] and the wildcard, and it
    matches every path that holds [a] somewhere, not only the paths that
    start with [a]. *)
Theorem wildcard_rule_is_not_anchored (a : string) (allowed : bool) :
  plain a = true ->
  makeRule (a +:+ "*") allowed =
    Some {| isAllowed := allowed; path := "";
            pattern := Some (lits a ++ [AnyStar]) |} /\
  forall x, MatchString (lits a ++ [AnyStar]) x = true <->
            exists pre post, x = pre +:+ a +:+ post.
Proof.
  intros Ha. split.
  - rewrite (makeRule_pattern _ _ (a +:+ "(?:.*)") (isPattern_wild_end a)).
    + pose proof (regexpCompile_shape a [TWild] "" [] Ha eq_refl eq_refl eq_refl)
        as E.
      change (regexpCompile (a +:+ "(?:.*)") = inl (lits a ++ [AnyStar])) in E.
      now rewrite E.
    + rewrite preparePath_no_percent by all_bytes.
      now apply patternSource_wild.
  - intros x. rewrite MatchString_iff. split.
    + intros (pre & t & -> & H). rewrite matchHere_lits_star in H.
      apply prefix_inv in H as (post & ->). now exists pre, post.
    + intros (pre & post & ->). exists pre, (a +:+ post). split; [reflexivity|].
      rewrite matchHere_lits_star. apply prefix_app.
Qed.

(** X9.  The escape of the asterisk is kept only in its upper-case form:
    [%2A] stays a literal asterisk, but [%2a] is unescaped with the rest of
    the path, and in a pattern rule the asterisk it gives is a wildcard.
    The rule [a%2ab$] is the rule [a*b$]. *)
Theorem lower_case_escape_is_a_wildcard (a b : string) (allowed : bool) :
  plain a = true -> plain b = true ->
  makeRule (a +:+ "%2a" +:+ b +:+ "$") allowed =
    Some {| isAllowed := allowed; path := "";
            pattern := Some (lits a ++ AnyStar :: lits b ++ [EndText]) |} /\
  makeRule (a +:+ "*" +:+ b +:+ "$") allowed =
    makeRule (a +:+ "%2a" +:+ b +:+ "$") allowed.
Proof.
  intros Ha Hb.
  pose proof (regexpCompile_shape a [TWild] b [TEnd] Ha Hb eq_refl eq_refl) as E.
  change (regexpCompile (a +:+ "(?:.*)" +:+ b +:+ "$") =
          inl (lits a ++ [AnyStar] ++ lits b ++ [EndText])) in E.
  assert (H1 : makeRule (a +:+ "%2a" +:+ b +:+ "$") allowed =
    Some {| isAllowed := allowed; path := "";
            pattern := Some (lits a ++ AnyStar :: lits b ++ [EndText]) |}).
  { rewrite (makeRule_pattern _ _ (a +:+ "(?:.*)" +:+ b +:+ "$")).
    - now rewrite E.
    - rewrite <- !append_assoc. apply isPattern_dollar.
    - rewrite (preparePath_lower_escape a b Ha Hb).
      apply (patternSource_wild_anchor a b Ha Hb). }
  split; [exact H1|]. rewrite H1.
  rewrite (makeRule_pattern _ _ (a +:+ "(?:.*)" +:+ b +:+ "$")).
  - now rewrite E.
  - apply isPattern_wild.
  - rewrite preparePath_no_percent by all_bytes.
    apply (patternSource_wild_anchor a b Ha Hb).
Qed.

(** ** Percent-encoding in literal rules *)

Lemma occurs_cons old c s :
  occurs old (String c s) = String.prefix old (String c s) || occurs old s.
Proof. reflexivity. Qed.

Lemma occurs_app_r old a b : occurs old (a +:+ b) = false -> occurs old b = false.
Proof.
  induction a as [|c a IH]; [exact id|].
  change (String c a +:+ b) with (String c (a +:+ b)).
  rewrite occurs_cons. intros [_ H]%orb_false_elim. now apply IH.
Qed.

(** A replacement changes nothing where [old] does not occur. *)
Lemma ReplaceFrom_absent x o new s :
  occurs (String x o) s = false -> ReplaceFrom (String x o) new 0 s = s.
Proof.
  induction s as [|c s IH]; [reflexivity|].
  rewrite occurs_cons. intros [H1 H2]%orb_false_elim.
  now rewrite ReplaceFrom_here, H1, (IH H2).
Qed.

(** The two cases of one step of a replacement. *)
Lemma ReplaceFrom_step x o new c s :
  (exists rest, String c s = String x o +:+ rest /\
     ReplaceFrom (String x o) new 0 (String c s) =
     new +:+ ReplaceFrom (String x o) new 0 rest) \/
  (String.prefix (String x o) (String c s) = false /\
   ReplaceFrom (String x o) new 0 (String c s) =
   String c (ReplaceFrom (String x o) new 0 s)).
Proof.
  destruct (String.prefix (String x o) (String c s)) eqn:E.
  - left. apply prefix_inv in E as (rest & E). exists rest. split; [exact E|].
    rewrite E. apply ReplaceFrom_hit.
  - right. split; [reflexivity|]. now rewrite ReplaceFrom_here, E.
Qed.

Lemma length_append_lt (a b : string) : a <> "" -> len b < len (a +:+ b).
Proof. intros H. rewrite length_append. destruct a; [congruence|simpl; lia]. Qed.

(** A text without a percent sign starts the replaced text when it starts
    the text. *)
Lemma prefix_protect w : forall s,
  allBytes (otherThan "%") w = true ->
  String.prefix w (ReplaceFrom "%2A" "%252A" 0 s) = String.prefix w s.
Proof.
  induction w as [|e w IH]; intros s Hw; [now rewrite !prefix_nil|].
  simpl in Hw. apply andb_true_iff in Hw as [He Hw].
  unfold otherThan in He. apply negb_true_iff in He.
  destruct s as [|d s]; [reflexivity|].
  destruct (ReplaceFrom_step "%" "2A" "%252A" d s) as [(rest & E & ->)|[_ ->]].
  - injection E as -> _. 
    change ("%252A" +:+ ReplaceFrom "%2A" "%252A" 0 rest)
      with (String "%" ("252A" +:+ ReplaceFrom "%2A" "%252A" 0 rest)).
    now rewrite !prefix_cons, (Ascii.eqb_sym e), He.
  - now rewrite !prefix_cons, (IH s Hw).
Qed.

(** Protecting the escaped asterisks and restoring them gives the text
    back, when it holds no protected asterisk of its own. *)
Lemma protect_restore n : forall s,
  len s <= n -> occurs "%252A" s = false ->
  ReplaceFrom "%252A" "%2A" 0 (ReplaceFrom "%2A" "%252A" 0 s) = s.
Proof.
  induction n as [|n IH]; intros [|c s] Hn Ho; try reflexivity;
    [simpl in Hn; lia|].
  destruct (ReplaceFrom_step "%" "2A" "%252A" c s) as [(rest & E & ->)|[_ ->]].
  - rewrite ReplaceFrom_hit, E. f_equal. apply IH.
    + rewrite E in Hn. simpl in Hn |- *. lia.
    + rewrite E in Ho. now apply occurs_app_r in Ho.
  - rewrite occurs_cons in Ho. apply orb_false_elim in Ho as [H1 H2].
    rewrite ReplaceFrom_here.
    assert (P : String.prefix "%252A" (String c (ReplaceFrom "%2A" "%252A" 0 s))
                = false).
    { rewrite prefix_cons, prefix_protect by reflexivity.
      now rewrite <- prefix_cons. }
    rewrite P. f_equal. apply IH; [simpl in Hn; lia|exact H2].
Qed.

Lemma protect_other c s :
  Ascii.eqb c "%" = false ->
  ReplaceFrom "%2A" "%252A" 0 (String c s) =
  String c (ReplaceFrom "%2A" "%252A" 0 s).
Proof.
  intros H. rewrite ReplaceFrom_here, prefix_cons, (Ascii.eqb_sym _ c), H.
  reflexivity.
Qed.

Lemma protect_percent s :
  exists y, ReplaceFrom "%2A" "%252A" 0 (String "%" s) = String "%" y.
Proof.
  destruct (ReplaceFrom_step "%" "2A" "%252A" "%" s) as [(rest & _ & ->)|[_ ->]];
    eauto.
Qed.

Lemma unhex_percent : unhex "%" = None.
Proof. reflexivity. Qed.

(** Protecting the escaped asterisks keeps a percent-encoding valid or
    invalid. *)
Lemma protect_valid n : forall s,
  len s <= n ->
  (PathUnescape (ReplaceFrom "%2A" "%252A" 0 s) = None <->
   PathUnescape s = None).
Proof.
  induction n as [|n IH]; intros [|c s] Hn; try reflexivity;
    [simpl in Hn; lia|].
  assert (Hs : len s <= n) by (simpl in Hn; lia).
  destruct (ReplaceFrom_step "%" "2A" "%252A" c s) as [(rest & E & ->)|[Hp E]].
  - rewrite E.
    assert (Hr : len rest <= n).
    { rewrite E in Hn. simpl in Hn. lia. }
    change (PathUnescape ("%252A" +:+ ReplaceFrom "%2A" "%252A" 0 rest))
      with (option_map (String "%")
              (option_map (String "2")
                 (option_map (String "A")
                    (PathUnescape (ReplaceFrom "%2A" "%252A" 0 rest))))).
    change (PathUnescape ("%2A" +:+ rest))
      with (option_map (String "*") (PathUnescape rest)).
    specialize (IH rest Hr).
    destruct (PathUnescape rest), (PathUnescape (ReplaceFrom _ _ 0 rest));
      cbn [option_map]; split; intros H; try reflexivity; try discriminate;
      exfalso; destruct IH as [I1 I2];
      first [ specialize (I1 eq_refl); discriminate
            | specialize (I2 eq_refl); discriminate ].
  - rewrite E. destruct (Ascii.eqb c "%") eqn:Ec.
    + apply Ascii.eqb_eq in Ec. subst c.
      destruct s as [|h1 s]; [reflexivity|].
      destruct (Ascii.eqb h1 "%") eqn:E1.
      { apply Ascii.eqb_eq in E1. subst h1.
        destruct (protect_percent s) as (y & ->).
        cbn [PathUnescape]. cbn [Ascii.eqb Bool.eqb].
        rewrite unhex_percent.
        split; intros _; [now destruct s as [|? ?]|now destruct y]. }
      rewrite (protect_other h1 s E1).
      destruct s as [|h2 s]; [reflexivity|].
      destruct (Ascii.eqb h2 "%") eqn:E2.
      { apply Ascii.eqb_eq in E2. subst h2.
        destruct (protect_percent s) as (y & ->).
        cbn [PathUnescape]. cbn [Ascii.eqb Bool.eqb].
        rewrite unhex_percent. now destruct (unhex h1). }
      rewrite (protect_other h2 s E2).
      cbn [PathUnescape]. cbn [Ascii.eqb Bool.eqb].
      assert (Ht : len s <= n) by (simpl in Hs; lia).
      specialize (IH s Ht).
      destruct (unhex h1), (unhex h2); try reflexivity.
      destruct (PathUnescape s), (PathUnescape (ReplaceFrom _ _ 0 s));
        cbn [option_map]; split; intros H; try reflexivity; try discriminate;
        exfalso; destruct IH as [I1 I2];
        first [ specialize (I1 eq_refl); discriminate
              | specialize (I2 eq_refl); discriminate ].
    + cbn [PathUnescape]. rewrite Ec.
      specialize (IH s Hs).
      destruct (PathUnescape s), (PathUnescape (ReplaceFrom _ _ 0 s));
        cbn [option_map]; split; intros H; try reflexivity; try discriminate;
        exfalso; destruct IH as [I1 I2];
        first [ specialize (I1 eq_refl); discriminate
              | specialize (I2 eq_refl); discriminate ].
Qed.

(** X10.  A literal rule whose path has a percent-encoding that is not
    valid is stored as it is written, escaped asterisks included, when the
    path holds no [%252A] of its own: the path is not unescaped at all. *)
Theorem invalid_encoding_is_kept (path0 : string) (allowed : bool) :
  isPattern path0 = false ->
  PathUnescape path0 = None ->
  occurs "%252A" path0 = false ->
  makeRule path0 allowed =
  Some {| isAllowed := allowed; path := path0; pattern := None |}.
Proof.
  intros Hp Hu Ho. unfold makeRule, preparePath. rewrite Hp. unfold Replace.
  rewrite (proj2 (protect_valid (len path0) path0 (Nat.le_refl _)) Hu).
  now rewrite (protect_restore (len path0) path0 (Nat.le_refl _) Ho).
Qed.

(** X11.  A literal rule is matched in its unescaped form: a path with a
    valid percent-encoding and no escaped asterisk is stored with every
    escape replaced by the byte it stands for. *)
Theorem valid_encoding_is_unescaped (path0 unescaped : string) (allowed : bool) :
  isPattern path0 = false ->
  occurs "%2A" path0 = false ->
  PathUnescape path0 = Some unescaped ->
  makeRule path0 allowed =
  Some {| isAllowed := allowed; path := unescaped; pattern := None |}.
Proof.
  intros Hp Ho Hu. unfold makeRule, preparePath. rewrite Hp. unfold Replace.
  now rewrite (ReplaceFrom_absent _ _ _ _ Ho), Hu.
Qed.

(** ** The loop of [Parse], line by line *)

Section WholeFile.

Variable urlParse : string -> option URL.t.
Variable idnaToASCII : string -> option string.
Variable float64 : Type.
Variable ParseFloat : string -> option float64.
Variable secondsToDuration : float64 -> Z.

Local Abbreviation addCrawlDelay' :=
  (addCrawlDelay float64 ParseFloat secondsToDuration).
Local Abbreviation parseDirective' :=
  (parseDirective float64 ParseFloat secondsToDuration).
Local Abbreviation parseLine' :=
  (parseLine float64 ParseFloat secondsToDuration).
Local Abbreviation parseLines' :=
  (parseLines float64 ParseFloat secondsToDuration).
Local Abbreviation Parse' :=
  (Parse urlParse idnaToASCII float64 ParseFloat secondsToDuration).
Local Abbreviation IsAllowed' := (IsAllowed urlParse idnaToASCII).
Local Abbreviation parseAndNormalizeURL' :=
  (parseAndNormalizeURL urlParse idnaToASCII).

(** The effect of a line is decided by its lowered key and its trimmed
    value. *)
Lemma parseLine_directive st l1 l2 :
  directive l1 = directive l2 -> parseLine' st l1 = parseLine' st l2.
Proof.
  intros H. destruct (directive l1) as [[k v]|] eqn:E1; symmetry in H.
  - apply (parseLine_colon float64 ParseFloat secondsToDuration) in E1
      as (r1 & K1 & ->).
    apply (parseLine_colon float64 ParseFloat secondsToDuration) in H
      as (r2 & K2 & ->).
    unfold parseDirective. now rewrite <- K1, <- K2.
  - now rewrite !parseLine_no_colon.
Qed.

Lemma parseLine_sitemap st line val :
  directive line = Some ("sitemap", val) ->
  parseLine' st line =
  mkParser
    (if String.eqb val "" then robotsTxt st
     else {| url := url (robotsTxt st); groups := groups (robotsTxt st);
             sitemaps := sitemaps (robotsTxt st) ++ [val];
             host := host (robotsTxt st) |})
    (userAgents st) true.
Proof.
  intros H.
  apply (parseLine_colon float64 ParseFloat secondsToDuration) in H
    as (rule0 & Hk & ->).
  unfold parseDirective. now rewrite <- Hk.
Qed.

Lemma parseLine_host st line val :
  directive line = Some ("host", val) ->
  parseLine' st line =
  mkParser
    (if String.eqb val "" then robotsTxt st
     else {| url := url (robotsTxt st); groups := groups (robotsTxt st);
             sitemaps := sitemaps (robotsTxt st); host := val |})
    (userAgents st) true.
Proof.
  intros H.
  apply (parseLine_colon float64 ParseFloat secondsToDuration) in H
    as (rule0 & Hk & ->).
  unfold parseDirective. now rewrite <- Hk.
Qed.

Lemma parseLine_kind st line :
  lineKind float64 ParseFloat secondsToDuration st line (parseLine' st line).
Proof.
  destruct (directive line) as [[key val]|] eqn:E.
  2:{ rewrite parseLine_no_colon by exact E. now constructor. }
  destruct (recognized key) eqn:R.
  2:{ rewrite (parseLine_unrecognized _ _ _ _ _ _ _ E R).
      now apply (OtherLine _ _ _ st line key val). }
  unfold recognized in R. cbn [existsb] in R.
  repeat (apply orb_true_iff in R as [R|R]); try discriminate;
    apply String.eqb_eq in R; subst key.
  - rewrite (parseLine_user_agent _ _ _ _ _ _ E). now constructor.
  - rewrite (parseLine_path_rule _ _ _ _ _ _ true E).
    now apply (PathLine _ _ _ st line val true).
  - rewrite (parseLine_path_rule _ _ _ _ _ _ false E).
    now apply (PathLine _ _ _ st line val false).
  - rewrite (parseLine_crawl_delay _ _ _ _ _ _ E). now constructor.
  - rewrite (parseLine_sitemap _ _ _ E). now constructor.
  - rewrite (parseLine_host _ _ _ E). now constructor.
Qed.

(** *** The keys of the map of groups *)

Lemma parseLine_normal_keys st line :
  (Forall (fun ua => normaliseUserAgent ua = ua) (userAgents st) /\
   forall k g, groups (robotsTxt st) !! k = Some g -> normaliseUserAgent k = k) ->
  Forall (fun ua => normaliseUserAgent ua = ua) (userAgents (parseLine' st line)) /\
  forall k g, groups (robotsTxt (parseLine' st line)) !! k = Some g ->
              normaliseUserAgent k = k.
Proof.
  intros [Hu Hg].
  destruct (parseLine_kind st line) as [_|val _|val allowed _|val _|val _|val _|? ? _ _];
    cbn [robotsTxt userAgents].
  - now split.
  - split; [|exact Hg]. apply Forall_app. split.
    + now destruct (isNoneUserAgentState st).
    + repeat constructor. apply normaliseUserAgent_idem.
  - split; [exact Hu|]. intros k g. rewrite fold_addPathRule_lookup.
    destruct (decide (k ∈ userAgents st)) as [Hin|_]; [|apply Hg].
    intros _. rewrite Forall_forall in Hu. now apply Hu.
  - split; [exact Hu|]. intros k g. rewrite fold_addCrawlDelay_lookup.
    destruct (decide (k ∈ userAgents st)) as [Hin|_]; [|apply Hg].
    intros _. rewrite Forall_forall in Hu. now apply Hu.
  - split; [exact Hu|]. now destruct (String.eqb val "").
  - split; [exact Hu|]. now destruct (String.eqb val "").
  - now split.
Qed.

Lemma parseLines_normal_keys lines : forall st,
  (Forall (fun ua => normaliseUserAgent ua = ua) (userAgents st) /\
   forall k g, groups (robotsTxt st) !! k = Some g -> normaliseUserAgent k = k) ->
  forall k g, groups (robotsTxt (parseLines' lines st)) !! k = Some g ->
              normaliseUserAgent k = k.
Proof.
  induction lines as [|l lines IH]; intros st H; [apply H|].
  apply (IH (parseLine' st l)). now apply parseLine_normal_keys.
Qed.

Lemma Parse_inl contents urlStr r :
  Parse' contents urlStr = inl r ->
  exists u, parseAndNormalizeURL' urlStr = inl u /\
    r = robotsTxt (parseLines' (Split contents LF) (initialParser u)).
Proof.
  unfold Parse. destruct (parseAndNormalizeURL' urlStr) as [u|e]; [|discriminate].
  intros [= <-]. now exists u.
Qed.

(** X12.  Every rule set of a parsed file is stored under a key in normal
    form: the key is a fixed point of [normaliseUserAgent], so a query with
    the key itself as the agent finds this rule set. *)
Theorem groups_keys_normalised (contents urlStr : string) (r : RobotsTxt)
    (key : string) (g : group) :
  Parse' contents urlStr = inl r ->
  groups r !! key = Some g ->
  normaliseUserAgent key = key /\
  groups r !! normaliseUserAgent key = Some g.
Proof.
  intros (u & _ & ->)%Parse_inl Hk.
  assert (E : normaliseUserAgent key = key).
  { apply (parseLines_normal_keys _ (initialParser u)) in Hk; [exact Hk|].
    split; [constructor|]. intros k g'. cbn. now rewrite lookup_empty. }
  now rewrite E.
Qed.

(** *** The form of a line *)

(** X16.  White space around a line is not significant: a line with
    leading or trailing white space (an indented directive, a line that ends
    with a carriage return) has the effect of the line without it. *)
Theorem white_space_around_a_line (st : parser) (w1 line w2 : string) :
  allBytes isSpace w1 = true -> allBytes isSpace w2 = true ->
  parseLine' st (w1 +:+ line +:+ w2) = parseLine' st line.
Proof.
  intros H1 H2. apply parseLine_directive. now apply directive_space.
Qed.

(** X17.  The key of a directive is matched without regard to letter case:
    two lines with the same value whose keys differ only in the case of
    ASCII letters have the same effect. *)
Theorem directive_keys_ignore_letter_case (st : parser) (key1 key2 val : string) :
  allBytes (otherThan ":") key1 = true ->
  allBytes (otherThan ":") key2 = true ->
  ToLower key1 = ToLower key2 ->
  parseLine' st (key1 +:+ ":" +:+ val) = parseLine' st (key2 +:+ ":" +:+ val).
Proof.
  intros H1 H2 E. apply parseLine_directive.
  rewrite !directive_first_colon by assumption.
  now rewrite <- !TrimSpace_ToLower, E.
Qed.

(** X18.  A line is split at its first colon only: the key is the text
    before it and the value is all the text after it, both trimmed, so a
    value keeps its own colons and number signs (the parser strips no
    comment from the end of a directive). *)
Theorem line_splits_at_first_colon (st : parser) (key val : string) :
  allBytes (otherThan ":") key = true ->
  parseLine' st (key +:+ ":" +:+ val) =
  parseDirective' st (TrimSpace key) (TrimSpace val).
Proof.
  intros H. unfold parseLine. change (":" +:+ val) with (String ":" val).
  now rewrite (SplitN2_first _ _ _ H).
Qed.

(** *** Rules are only appended *)

Lemma parseLine_grows st line ua g :
  groups (robotsTxt st) !! ua = Some g ->
  exists more d,
    groups (robotsTxt (parseLine' st line)) !! ua =
    Some {| rules := rules g ++ more; crawlDelay := d |}.
Proof.
  intros Hg.
  assert (Same : exists more d, Some g = Some {| rules := rules g ++ more;
                                                crawlDelay := d |}).
  { exists [], (crawlDelay g). rewrite app_nil_r. now destruct g. }
  destruct (parseLine_kind st line)
    as [_|val _|val allowed _|val _|val _|val _|? ? _ _];
    cbn [robotsTxt]; rewrite ?Hg; try exact Same.
  - rewrite fold_addPathRule_lookup.
    destruct (decide (ua ∈ userAgents st)); rewrite ?Hg; [|exact Same].
    unfold groupOf. rewrite Hg. cbn [default from_option id attach].
    eexists _, _. unfold attach. reflexivity.
  - rewrite fold_addCrawlDelay_lookup.
    destruct (decide (ua ∈ userAgents st)); rewrite ?Hg; [|exact Same].
    unfold groupOf. rewrite Hg. cbn [default from_option id].
    exists [], (crawlDelay (withDelay
      (delayOf float64 ParseFloat secondsToDuration val) g)).
    rewrite app_nil_r. unfold withDelay. now destruct (delayOf _ _ _ val), g.
  - destruct (String.eqb val ""); cbn [groups]; rewrite Hg; exact Same.
  - destruct (String.eqb val ""); cbn [groups]; rewrite Hg; exact Same.
Qed.

Lemma parseLines_grows lines : forall st ua g,
  groups (robotsTxt st) !! ua = Some g ->
  exists more d,
    groups (robotsTxt (parseLines' lines st)) !! ua =
    Some {| rules := rules g ++ more; crawlDelay := d |}.
Proof.
  induction lines as [|l lines IH]; intros st ua g Hg.
  - exists [], (crawlDelay g). rewrite app_nil_r. now destruct g.
  - destruct (parseLine_grows st l ua g Hg) as (m1 & d1 & H1).
    destruct (IH _ _ _ H1) as (m2 & d2 & H2). cbn [rules] in H2.
    exists (m1 ++ m2), d2. unfold parseLines in *. cbn [fold_left].
    now rewrite H2, app_assoc.
Qed.

(** X19.  Later lines never take back what earlier lines gave: a rule set
    that exists after some lines still exists after any further lines, and
    its rules are still there, in their order, at the head of the list;
    further lines only append rules and replace the crawl delay. *)
Theorem later_lines_only_append (st : parser) (lines1 lines2 : list string)
    (userAgent : string) (g : group) :
  groups (robotsTxt (parseLines' lines1 st)) !! userAgent = Some g ->
  exists more d,
    groups (robotsTxt (parseLines' (lines1 ++ lines2) st)) !! userAgent =
    Some {| rules := rules g ++ more; crawlDelay := d |}.
Proof.
  intros H. unfold parseLines in *. rewrite fold_left_app.
  now apply parseLines_grows.
Qed.

End WholeFile.

(** ** Scenarios of the further properties *)

(** An agent named in two letter cases. *)
Lemma queries_ignore_letter_case_witness :
  Ref.IsAllowed fishFile "GoogleBot" "http://www.example.com/fish/a" =
  Ref.IsAllowed fishFile "googlebot" "http://www.example.com/fish/a" /\
  CrawlDelay fishFile "GoogleBot" = CrawlDelay fishFile "googlebot".
Proof.
  exact (queries_ignore_letter_case Ref.urlParse Ref.idnaToASCII fishFile
           "GoogleBot" "googlebot" "http://www.example.com/fish/a" eq_refl).
Defined.

(** The key of the rule set of [b] in the file with a rule set of its own. *)
Lemma groups_keys_normalised_witness :
  normaliseUserAgent "b" = "b" /\
  groups ownRuleSetFile !! normaliseUserAgent "b" = Some ownGroup.
Proof.
  apply (groups_keys_normalised Ref.urlParse Ref.idnaToASCII Ref.float64
           Ref.ParseFloat Ref.secondsToDuration ownRuleSetText exampleURL).
  - vm_compute. reflexivity.
  - reflexivity.
Defined.

(** An indented directive that ends with a carriage return. *)
Lemma white_space_around_a_line_witness :
  Ref.parseLine (stateAfter ["User-agent: *"])
    ("  " +:+ "Disallow: /fish/" +:+ String CR "") =
  Ref.parseLine (stateAfter ["User-agent: *"]) "Disallow: /fish/".
Proof.
  exact (white_space_around_a_line Ref.float64 Ref.ParseFloat
           Ref.secondsToDuration (stateAfter ["User-agent: *"])
           "  " "Disallow: /fish/" (String CR "") eq_refl eq_refl).
Defined.

(** A [user-agent] line in two letter cases. *)
Lemma directive_keys_ignore_letter_case_witness :
  Ref.parseLine (stateAfter []) ("USER-Agent" +:+ ":" +:+ " a") =
  Ref.parseLine (stateAfter []) ("user-agent" +:+ ":" +:+ " a").
Proof.
  exact (directive_keys_ignore_letter_case Ref.float64 Ref.ParseFloat
           Ref.secondsToDuration (stateAfter []) "USER-Agent" "user-agent" " a"
           eq_refl eq_refl eq_refl).
Defined.

(** A sitemap whose value holds a colon and a number sign. *)
Lemma line_splits_at_first_colon_witness :
  Ref.parseLine (stateAfter [])
    ("Sitemap" +:+ ":" +:+ " http://www.example.com/a.xml # the map") =
  parseDirective Ref.float64 Ref.ParseFloat Ref.secondsToDuration
    (stateAfter []) "Sitemap" "http://www.example.com/a.xml # the map".
Proof.
  exact (line_splits_at_first_colon Ref.float64 Ref.ParseFloat
           Ref.secondsToDuration (stateAfter []) "Sitemap"
           " http://www.example.com/a.xml # the map" eq_refl).
Defined.

(** The path [/fish/]. *)
Lemma path_without_percent_is_verbatim_witness :
  preparePath "/fish/" = "/fish/" /\
  makeRule "/fish/" false =
  Some {| isAllowed := false; path := "/fish/"; pattern := None |}.
Proof.
  destruct (path_without_percent_is_verbatim "/fish/" false eq_refl) as [H1 H2].
  split; [exact H1|]. apply H2. reflexivity.
Defined.

(** The rule [/fish*] matches a path that holds [/fish] after its start. *)
Lemma wildcard_rule_is_not_anchored_witness :
  makeRule "/fish*" false =
    Some {| isAllowed := false; path := "";
            pattern := Some (lits "/fish" ++ [AnyStar]) |} /\
  MatchString (lits "/fish" ++ [AnyStar]) "/shop/fish/cod" = true.
Proof.
  destruct (wildcard_rule_is_not_anchored "/fish" false eq_refl) as [H1 H2].
  split; [exact H1|]. apply H2. now exists "/shop", "/cod".
Defined.

(** The rule [/a%2ab$]. *)
Lemma lower_case_escape_is_a_wildcard_witness :
  makeRule "/a%2ab$" false =
  Some {| isAllowed := false; path := "";
          pattern := Some (lits "/a" ++ AnyStar :: lits "b" ++ [EndText]) |}.
Proof.
  exact (proj1 (lower_case_escape_is_a_wildcard "/a" "b" false eq_refl eq_refl)).
Defined.

(** A rule set with one rule, and two further lines for its agent. *)
Lemma later_lines_only_append_witness :
  exists more d,
    groups (robotsTxt
              (Ref.parseLines (["User-agent: *"; "Disallow: /fish/"]
                               ++ ["Allow: /fish/cod"; "Crawl-delay: 2"])
                 (stateAfter []))) !! "*" =
    Some {| rules := [ {| isAllowed := false; path := "/fish/";
                          pattern := None |} ] ++ more;
            crawlDelay := d |}.
Proof.
  apply (later_lines_only_append Ref.float64 Ref.ParseFloat
           Ref.secondsToDuration (stateAfter [])
           ["User-agent: *"; "Disallow: /fish/"]
           ["Allow: /fish/cod"; "Crawl-delay: 2"] "*"
           {| rules := [ {| isAllowed := false; path := "/fish/";
                            pattern := None |} ];
              crawlDelay := 0 |}).
  vm_compute. reflexivity.
Defined.

(** A path that ends with an escape that is not valid. *)
Lemma invalid_encoding_is_kept_witness :
  makeRule "/a%2Ab%zz" false =
  Some {| isAllowed := false; path := "/a%2Ab%zz"; pattern := None |}.
Proof.
  exact (invalid_encoding_is_kept "/a%2Ab%zz" false eq_refl eq_refl eq_refl).
Defined.

(** A path with an escaped space and an escaped slash. *)
Lemma valid_encoding_is_unescaped_witness :
  makeRule "/a%20b%2fc" true =
  Some {| isAllowed := true; path := "/a b/c"; pattern := None |}.
Proof.
  exact (valid_encoding_is_unescaped "/a%20b%2fc" "/a b/c" true
           eq_refl eq_refl eq_refl).
Defined.

(** * The program over its libraries *)

(** ** The conversion of the delay *)

Lemma truncate_sign (s : bool) x z :
  match FloatOps.Prim2SF x with
  | SpecFloat.S754_zero _ => True
  | SpecFloat.S754_finite s' _ _ => s' = s
  | _ => True
  end ->
  Generic.truncate x = Some z ->
  if s then (z <= 0)%Z else (0 <= z)%Z.
Proof.
  unfold Generic.truncate. destruct (FloatOps.Prim2SF x) as [s'|s'| |s' m e].
  - intros _ [= <-]. now destruct s.
  - discriminate.
  - discriminate.
  - intros -> [= <-].
    assert (0 <= (if (0 <=? e)%Z then Z.pos m * 2 ^ e
                  else Z.pos m ÷ 2 ^ (- e)))%Z.
    { destruct (0 <=? e)%Z eqn:E.
      - apply Z.leb_le in E. apply Z.mul_nonneg_nonneg; [lia|].
        now apply Z.pow_nonneg.
      - apply Z.leb_gt in E. apply Z.quot_pos; [lia|].
        apply Z.pow_pos_nonneg; lia. }
    destruct s; lia.
Qed.

Lemma binary_round_aux_sign prec emax sx mx ex lx :
  match SpecFloat.binary_round_aux prec emax sx mx ex lx with
  | SpecFloat.S754_finite s' _ _ => s' = sx
  | _ => True
  end.
Proof.
  unfold SpecFloat.binary_round_aux.
  destruct (SpecFloat.shr_fexp prec emax mx ex lx) as [mrs' e'].
  destruct (SpecFloat.shr_fexp prec emax _ e' SpecFloat.loc_Exact)
    as [mrs'' e''].
  destruct (SpecFloat.shr_m mrs''); [exact I| |exact I].
  now destruct (e'' <=? emax - prec)%Z.
Qed.

(** The product of a negative float and a positive one is no positive
    number. *)
Lemma mul_negative x y :
  PrimFloat.ltb x PrimFloat.zero = true ->
  PrimFloat.ltb PrimFloat.zero y = true ->
  match FloatOps.Prim2SF (PrimFloat.mul x y) with
  | SpecFloat.S754_finite s' _ _ => s' = true
  | _ => True
  end.
Proof.
  rewrite !FloatAxioms.ltb_spec, FloatAxioms.mul_spec.
  change (FloatOps.Prim2SF PrimFloat.zero) with (SpecFloat.S754_zero false).
  destruct (FloatOps.Prim2SF x) as [sx|sx| |sx mx ex];
    destruct (FloatOps.Prim2SF y) as [sy|sy| |sy my ey];
    try destruct sx; try destruct sy; try discriminate; intros _ _;
    try exact I.
  apply binary_round_aux_sign.
Qed.

Lemma Duration_negative (overflow : PrimFloat.float -> Z) delay z :
  PrimFloat.ltb delay PrimFloat.zero = true ->
  Generic.truncate (PrimFloat.mul delay (Generic.float64 Generic.Second))
    = Some z ->
  (- 2 ^ 63 <= z)%Z ->
  Generic.Duration overflow
    (PrimFloat.mul delay (Generic.float64 Generic.Second)) = z /\ (z <= 0)%Z.
Proof.
  intros Hneg Ht Hz.
  assert (Hs : (z <= 0)%Z).
  { apply (truncate_sign true _ _) in Ht; [exact Ht|].
    pose proof (mul_negative delay (Generic.float64 Generic.Second) Hneg
                  eq_refl) as H.
    now destruct (FloatOps.Prim2SF _). }
  split; [|exact Hs]. unfold Generic.Duration. rewrite Ht.
  assert ((- 2 ^ 63 <=? z)%Z && (z <? 2 ^ 63)%Z = true) as ->; [|reflexivity].
  apply andb_true_intro. split; [now apply Z.leb_le|apply Z.ltb_lt; lia].
Qed.

Section GenericProperties.

Variable ToLower : string -> string.
Variable TrimSpace : string -> string.
Variable tooLarge : string -> bool.
Variable ParseFloat : string -> option PrimFloat.float.
Variable overflow : PrimFloat.float -> Z.
Variable urlParse : string -> option URL.t.
Variable idnaToASCII : string -> option string.

Local Abbreviation compilePattern' := (Generic.compilePattern tooLarge).
Local Abbreviation makeRule' := (Generic.makeRule tooLarge).
Local Abbreviation addPathRule' := (Generic.addPathRule tooLarge).
Local Abbreviation Duration' := (Generic.Duration overflow).
Local Abbreviation delayOf' := (Generic.delayOf ParseFloat overflow).
Local Abbreviation addCrawlDelay' := (Generic.addCrawlDelay ParseFloat overflow).
Local Abbreviation normaliseUserAgent' :=
  (Generic.normaliseUserAgent ToLower TrimSpace).
Local Abbreviation parseDirective' :=
  (Generic.parseDirective ToLower TrimSpace tooLarge ParseFloat overflow).
Local Abbreviation parseLine' :=
  (Generic.parseLine ToLower TrimSpace tooLarge ParseFloat overflow).
Local Abbreviation parseLines' :=
  (Generic.parseLines ToLower TrimSpace tooLarge ParseFloat overflow).
Local Abbreviation Parse' :=
  (Generic.Parse ToLower TrimSpace tooLarge ParseFloat overflow urlParse
     idnaToASCII).
Local Abbreviation CrawlDelay' := (Generic.CrawlDelay ToLower TrimSpace).
Local Abbreviation IsAllowed' :=
  (Generic.IsAllowed ToLower TrimSpace urlParse idnaToASCII).
Local Abbreviation directive' := (Generic.directive ToLower TrimSpace).
Local Abbreviation ignoredLine' := (Generic.ignoredLine ToLower TrimSpace).
Local Abbreviation lastKey' := (Generic.lastKey ToLower TrimSpace).
Local Abbreviation firstKey' := (Generic.firstKey ToLower TrimSpace).
Local Abbreviation hasKey' := (Generic.hasKey ToLower TrimSpace).
Local Abbreviation valueOf' := (Generic.valueOf ToLower TrimSpace).
Local Abbreviation valuesOf' := (Generic.valuesOf ToLower TrimSpace).
Local Abbreviation lineKind' :=
  (Generic.lineKind ToLower TrimSpace tooLarge ParseFloat overflow).
Local Abbreviation parseAndNormalizeURL' :=
  (parseAndNormalizeURL urlParse idnaToASCII).

(** ** The two methods that add to a rule set *)

Lemma addPathRule_groups_lib r ua path0 allowed :
  groups (fst (addPathRule' r ua path0 allowed)) =
  <[ua := match makeRule' path0 allowed with
          | Some x => appendRule (groupOf r ua) x
          | None => groupOf r ua
          end]> (groups r).
Proof.
  unfold Generic.addPathRule, Generic.makeRule.
  pose proof (getGroup_fst r ua) as Hg.
  pose proof (getGroup_snd_groups r ua) as Hr.
  destruct (getGroup r ua) as [g r']. simpl in Hg, Hr. subst g.
  destruct (isPattern path0).
  - destruct (compilePattern' _); simpl; rewrite Hr; [|reflexivity].
    now rewrite insert_insert_eq.
  - simpl. rewrite Hr. now rewrite insert_insert_eq.
Qed.

Lemma addPathRule_rest_lib r ua path0 allowed :
  url (fst (addPathRule' r ua path0 allowed)) = url r /\
  sitemaps (fst (addPathRule' r ua path0 allowed)) = sitemaps r /\
  host (fst (addPathRule' r ua path0 allowed)) = host r.
Proof.
  unfold Generic.addPathRule.
  pose proof (getGroup_snd_rest r ua) as Hr.
  destruct (getGroup r ua) as [g r']. simpl in Hr.
  destruct (isPattern path0); [destruct (compilePattern' _)|]; exact Hr.
Qed.

(** The loop [for _, ua := range userAgents] around [addPathRule]: every
    agent gets one copy of the rule for each time it is listed. *)
Lemma fold_addPathRule_lookup_lib val allowed uas : forall r ua,
  groups (fold_left (fun r ua => fst (addPathRule' r ua val allowed)) uas r)
    !! ua
  = if decide (ua ∈ uas)
    then Some (attach (makeRule' val allowed) (count_occ string_dec uas ua)
                 (groupOf r ua))
    else groups r !! ua.
Proof.
  induction uas as [|a uas IH]; intros r ua.
  - destruct (decide (ua ∈ [])) as [Hin|_]; [|reflexivity].
    now apply not_elem_of_nil in Hin.
  - cbn [fold_left]. rewrite IH. unfold groupOf at 1.
    rewrite addPathRule_groups_lib. cbn [count_occ].
    destruct (string_dec a ua) as [->|Hne].
    + rewrite lookup_insert_eq. unfold default, from_option, id.
      destruct (decide (ua ∈ ua :: uas)) as [_|Hnot];
        [|exfalso; apply Hnot, list_elem_of_here].
      destruct (decide (ua ∈ uas)) as [Hin|Hnot].
      * now rewrite attach_succ.
      * assert (count_occ string_dec uas ua = 0) as ->.
        { apply count_occ_not_In. now rewrite <- list_elem_of_In. }
        now rewrite <- attach_succ, attach_zero.
    + rewrite lookup_insert_ne by exact Hne.
      destruct (decide (ua ∈ uas)) as [Hin|Hnot];
        destruct (decide (ua ∈ a :: uas)) as [Hin'|Hnot']; try reflexivity.
      * exfalso. apply Hnot'. now apply list_elem_of_further.
      * exfalso. apply elem_of_cons in Hin' as [->|?]; congruence.
Qed.

Lemma fold_addPathRule_rest_lib val allowed uas : forall r,
  let r' := fold_left (fun r ua => fst (addPathRule' r ua val allowed)) uas r in
  url r' = url r /\ sitemaps r' = sitemaps r /\ host r' = host r.
Proof.
  induction uas as [|a uas IH]; intros r; simpl; [auto|].
  destruct (IH (fst (addPathRule' r a val allowed))) as (H1 & H2 & H3).
  destruct (addPathRule_rest_lib r a val allowed) as (G1 & G2 & G3).
  repeat split; congruence.
Qed.

Lemma addCrawlDelay_groups_lib r ua val :
  groups (addCrawlDelay' r ua val) =
  <[ua := withDelay (delayOf' val) (groupOf r ua)]> (groups r).
Proof.
  unfold Generic.addCrawlDelay, Generic.delayOf.
  pose proof (getGroup_fst r ua) as Hg.
  pose proof (getGroup_snd_groups r ua) as Hr.
  destruct (getGroup r ua) as [g r']. simpl in Hg, Hr. subst g.
  destruct (ParseFloat val); simpl; rewrite Hr; [|reflexivity].
  now rewrite insert_insert_eq.
Qed.

Lemma addCrawlDelay_rest_lib r ua val :
  url (addCrawlDelay' r ua val) = url r /\
  sitemaps (addCrawlDelay' r ua val) = sitemaps r /\
  host (addCrawlDelay' r ua val) = host r.
Proof.
  unfold Generic.addCrawlDelay.
  pose proof (getGroup_snd_rest r ua) as Hr.
  destruct (getGroup r ua) as [g r']. simpl in Hr.
  destruct (ParseFloat val); exact Hr.
Qed.

(** The loop [for _, ua := range userAgents] around [addCrawlDelay]. *)
Lemma fold_addCrawlDelay_lookup_lib val uas : forall r ua,
  groups (fold_left (fun r ua => addCrawlDelay' r ua val) uas r) !! ua
  = if decide (ua ∈ uas)
    then Some (withDelay (delayOf' val) (groupOf r ua))
    else groups r !! ua.
Proof.
  induction uas as [|a uas IH]; intros r ua.
  - destruct (decide (ua ∈ [])) as [Hin|_]; [|reflexivity].
    now apply not_elem_of_nil in Hin.
  - cbn [fold_left]. rewrite IH. unfold groupOf at 1.
    rewrite addCrawlDelay_groups_lib.
    destruct (string_dec a ua) as [->|Hne].
    + rewrite lookup_insert_eq. unfold default, from_option, id.
      destruct (decide (ua ∈ ua :: uas)) as [_|Hnot];
        [|exfalso; apply Hnot, list_elem_of_here].
      destruct (decide (ua ∈ uas)); [now rewrite withDelay_idem | reflexivity].
    + rewrite lookup_insert_ne by exact Hne.
      destruct (decide (ua ∈ uas)) as [Hin|Hnot];
        destruct (decide (ua ∈ a :: uas)) as [Hin'|Hnot']; try reflexivity.
      * exfalso. apply Hnot'. now apply list_elem_of_further.
      * exfalso. apply elem_of_cons in Hin' as [->|?]; congruence.
Qed.

Lemma fold_addCrawlDelay_rest_lib val uas : forall r,
  let r' := fold_left (fun r ua => addCrawlDelay' r ua val) uas r in
  url r' = url r /\ sitemaps r' = sitemaps r /\ host r' = host r.
Proof.
  induction uas as [|a uas IH]; intros r; simpl; [auto|].
  destruct (IH (addCrawlDelay' r a val)) as (H1 & H2 & H3).
  destruct (addCrawlDelay_rest_lib r a val) as (G1 & G2 & G3).
  repeat split; congruence.
Qed.

(** ** One turn of the loop *)

Lemma parseLine_no_colon_lib st line :
  directive' line = None -> parseLine' st line = st.
Proof.
  unfold Generic.directive, Generic.parseLine.
  destruct (SplitN2 line ":") as [|p0 [|p1 [|p2 l]]]; try reflexivity.
  discriminate.
Qed.

Lemma parseLine_colon_lib line key val :
  directive' line = Some (key, val) ->
  exists rule0, key = ToLower rule0 /\
    forall st, parseLine' st line = parseDirective' st rule0 val.
Proof.
  unfold Generic.directive, Generic.parseLine.
  destruct (SplitN2 line ":") as [|p0 [|p1 [|p2 l]]]; try discriminate.
  intros [= <- <-]. now exists (TrimSpace p0).
Qed.

Lemma parseLine_kind_lib st line : lineKind' st line (parseLine' st line).
Proof.
  destruct (directive' line) as [[key val]|] eqn:E.
  2:{ rewrite parseLine_no_colon_lib by exact E. now constructor. }
  destruct (parseLine_colon_lib _ _ _ E) as (rule0 & Hk & Hp).
  rewrite Hp. unfold Generic.parseDirective. rewrite <- Hk. clear Hp Hk rule0.
  destruct (String.eqb key "user-agent") eqn:E1.
  { apply String.eqb_eq in E1. subst key. now constructor. }
  destruct (String.eqb key "allow") eqn:E2.
  { apply String.eqb_eq in E2. subst key.
    now apply (Generic.PathLine _ _ _ _ _ st line val true). }
  destruct (String.eqb key "disallow") eqn:E3.
  { apply String.eqb_eq in E3. subst key.
    now apply (Generic.PathLine _ _ _ _ _ st line val false). }
  destruct (String.eqb key "crawl-delay") eqn:E4.
  { apply String.eqb_eq in E4. subst key. now constructor. }
  destruct (String.eqb key "sitemap") eqn:E5.
  { apply String.eqb_eq in E5. subst key. now constructor. }
  destruct (String.eqb key "host") eqn:E6.
  { apply String.eqb_eq in E6. subst key. now constructor. }
  apply (Generic.OtherLine _ _ _ _ _ st line key val E).
  unfold recognized. cbn [existsb]. now rewrite E1, E2, E3, E4, E5, E6.
Qed.

Lemma parseLine_user_agent_lib st line val :
  directive' line = Some ("user-agent", val) ->
  parseLine' st line =
  mkParser (robotsTxt st)
    ((if isNoneUserAgentState st then [] else userAgents st)
       ++ [normaliseUserAgent' val]) false.
Proof.
  intros H. apply parseLine_colon_lib in H as (rule0 & Hk & ->).
  unfold Generic.parseDirective. now rewrite <- Hk.
Qed.

Lemma parseLine_path_rule_lib st line val (allowed : bool) :
  directive' line = Some (if allowed then "allow" else "disallow", val) ->
  parseLine' st line =
  mkParser
    (fold_left (fun r ua => fst (addPathRule' r ua val allowed))
       (userAgents st) (robotsTxt st))
    (userAgents st) true.
Proof.
  intros H. apply parseLine_colon_lib in H as (rule0 & Hk & ->).
  unfold Generic.parseDirective. rewrite <- Hk. now destruct allowed.
Qed.

Lemma parseLine_crawl_delay_lib st line val :
  directive' line = Some ("crawl-delay", val) ->
  parseLine' st line =
  mkParser
    (fold_left (fun r ua => addCrawlDelay' r ua val)
       (userAgents st) (robotsTxt st))
    (userAgents st) true.
Proof.
  intros H. apply parseLine_colon_lib in H as (rule0 & Hk & ->).
  unfold Generic.parseDirective. now rewrite <- Hk.
Qed.

(** A line with a colon and a key that is empty or unknown changes one
    thing: it sets [isNoneUserAgentState]. *)
Lemma parseLine_unrecognized_lib st line key val :
  directive' line = Some (key, val) ->
  recognized key = false ->
  parseLine' st line = mkParser (robotsTxt st) (userAgents st) true.
Proof.
  intros H Hr. apply parseLine_colon_lib in H as (rule0 & Hk & ->).
  unfold Generic.parseDirective. rewrite <- Hk.
  apply recognized_false in Hr as (-> & -> & -> & -> & -> & ->).
  reflexivity.
Qed.

(** Every line with a colon sets the flag to whether its key differs from
    [user-agent]. *)
Lemma parseLine_flag_lib st line key val :
  directive' line = Some (key, val) ->
  isNoneUserAgentState (parseLine' st line) =
  negb (String.eqb key "user-agent").
Proof.
  intros H. apply parseLine_colon_lib in H as (rule0 & Hk & ->).
  unfold Generic.parseDirective. rewrite <- Hk.
  repeat (match goal with |- context [if ?b then _ else _] =>
            destruct b eqn:? end; try reflexivity).
Qed.

Lemma ignoredLine_cases_lib line :
  ignoredLine' line = true ->
  directive' line = None \/
  exists key val, directive' line = Some (key, val) /\ recognized key = false.
Proof.
  unfold Generic.ignoredLine.
  destruct (directive' line) as [[key val]|]; [|now left].
  intros H. right. exists key, val. split; [reflexivity|].
  now apply negb_true_iff.
Qed.

(** Lines without a colon leave the state of the loop as it is. *)
Lemma parseLines_no_colon_lib mid : forall st,
  Forall (fun l => directive' l = None) mid -> parseLines' mid st = st.
Proof.
  induction mid as [|l mid IH]; intros st H; [reflexivity|].
  inversion H as [|? ? Hl Hmid]; subst.
  unfold Generic.parseLines in *. cbn [fold_left].
  rewrite (parseLine_no_colon_lib _ _ Hl). now apply IH.
Qed.

(** C6, as amended.  (1) An allow or disallow directive leaves the list of
    active agents as it is and attaches its rule to exactly the agents of
    that list: an agent outside it keeps what it had (or stays without a rule
    set), an agent inside it gets the rule appended, once for each time it is
    listed (its rule set is left as it is, or created empty, when the pattern
    of the rule does not compile).  (2) A [user-agent] line adds its agent to
    the list when the nearest line with a colon before it is a [user-agent]
    line.  (3) A [user-agent] line starts a new list, which holds only its
    own agent, when the nearest line with a colon before it has any other
    key, be it a directive or a key that is empty or unknown.  (4) The first
    [user-agent] line of a file starts the list.  (5) An allow or disallow
    directive met while no agent is active leaves the parsed value as it is:
    its rule is attached to no agent.  Lines without a colon take no part in
    the grouping. *)
Theorem C6_rules_attach_to_active_group :
  (forall st line val (allowed : bool),
      directive' line = Some (if allowed then "allow" else "disallow", val) ->
      userAgents (parseLine' st line) = userAgents st /\
      forall ua,
        groups (robotsTxt (parseLine' st line)) !! ua =
        if decide (ua ∈ userAgents st)
        then Some (attach (makeRule' val allowed)
                     (count_occ string_dec (userAgents st) ua)
                     (groupOf (robotsTxt st) ua))
        else groups (robotsTxt st) !! ua) /\
  (forall st line1 val1 mid line2 val2,
      directive' line1 = Some ("user-agent", val1) ->
      Forall (fun l => directive' l = None) mid ->
      directive' line2 = Some ("user-agent", val2) ->
      userAgents (parseLines' (line1 :: mid ++ [line2]) st) =
      userAgents (parseLine' st line1) ++ [normaliseUserAgent' val2]) /\
  (forall st d key val mid line val',
      directive' d = Some (key, val) ->
      key <> "user-agent" ->
      Forall (fun l => directive' l = None) mid ->
      directive' line = Some ("user-agent", val') ->
      userAgents (parseLines' (d :: mid ++ [line]) st) =
      [normaliseUserAgent' val']) /\
  (forall u mid line val,
      Forall (fun l => directive' l = None) mid ->
      directive' line = Some ("user-agent", val) ->
      userAgents (parseLines' (mid ++ [line]) (initialParser u)) =
      [normaliseUserAgent' val]) /\
  (forall st line val (allowed : bool),
      directive' line = Some (if allowed then "allow" else "disallow", val) ->
      userAgents st = [] ->
      robotsTxt (parseLine' st line) = robotsTxt st).
Proof.
  split; [|split; [|split; [|split]]].
  - intros st line val allowed H.
    rewrite (parseLine_path_rule_lib _ _ _ _ H). split; [reflexivity|].
    intros ua. cbn [robotsTxt]. apply fold_addPathRule_lookup_lib.
  - intros st line1 val1 mid line2 val2 H1 Hmid H2.
    unfold Generic.parseLines. cbn [fold_left]. rewrite fold_left_app.
    cbn [fold_left].
    pose proof (parseLines_no_colon_lib mid (parseLine' st line1) Hmid) as E.
    unfold Generic.parseLines in E. rewrite E.
    rewrite (parseLine_user_agent_lib _ line2 val2 H2).
    rewrite (parseLine_user_agent_lib _ line1 val1 H1). reflexivity.
  - intros st d key val mid line val' Hd Hne Hmid Hline.
    unfold Generic.parseLines. cbn [fold_left]. rewrite fold_left_app.
    cbn [fold_left].
    pose proof (parseLines_no_colon_lib mid (parseLine' st d) Hmid) as E.
    unfold Generic.parseLines in E. rewrite E.
    rewrite (parseLine_user_agent_lib _ line val' Hline).
    rewrite (parseLine_flag_lib _ _ _ _ Hd).
    apply String.eqb_neq in Hne. now rewrite Hne.
  - intros u mid line val Hmid Hline.
    unfold Generic.parseLines. rewrite fold_left_app. cbn [fold_left].
    pose proof (parseLines_no_colon_lib mid (initialParser u) Hmid) as E.
    unfold Generic.parseLines in E. rewrite E.
    now rewrite (parseLine_user_agent_lib _ line val Hline).
  - intros st line val allowed H Huas.
    rewrite (parseLine_path_rule_lib _ _ _ _ H), Huas. reflexivity.
Qed.

(** ** Ignored lines *)

Lemma parseDirective_flag_irrelevant_lib r uas b1 b2 rule0 val :
  uas = [] \/ String.eqb (ToLower rule0) "user-agent" = false ->
  parseDirective' (mkParser r uas b1) rule0 val =
  parseDirective' (mkParser r uas b2) rule0 val.
Proof.
  intros H. unfold Generic.parseDirective.
  cbn [robotsTxt userAgents isNoneUserAgentState].
  destruct (String.eqb (ToLower rule0) "user-agent") eqn:E; [|reflexivity].
  destruct H as [->|?]; [|discriminate]. now destruct b1, b2.
Qed.

(** The value of the flag does not reach the parsed value when no agent is
    active, or when the next line with a colon is not a [user-agent] line. *)
Lemma parseLines_flag_irrelevant_lib post : forall r uas b1 b2,
  uas = [] \/ firstKey' post <> Some "user-agent" ->
  robotsTxt (parseLines' post (mkParser r uas b1)) =
  robotsTxt (parseLines' post (mkParser r uas b2)).
Proof.
  induction post as [|l post IH]; intros r uas b1 b2 H; [reflexivity|].
  unfold Generic.parseLines in *. cbn [fold_left].
  cbn [Generic.firstKey] in H.
  destruct (directive' l) as [[key val]|] eqn:Hd.
  - destruct (parseLine_colon_lib _ _ _ Hd) as (rule0 & Hk & Hp).
    rewrite !Hp.
    rewrite (parseDirective_flag_irrelevant_lib r uas b1 b2); [reflexivity|].
    destruct H as [H|H]; [now left|right].
    apply String.eqb_neq. intros E. apply H. congruence.
  - rewrite !(parseLine_no_colon_lib _ _ Hd). now apply IH.
Qed.

(** The text of no lines is one empty line, which has no colon. *)
Lemma parseLines_of_text_lib ls st :
  Forall (fun l => noLF l = true) ls ->
  parseLines' (Split (joinLines ls) LF) st = parseLines' ls st.
Proof.
  intros H. destruct ls as [|l ls]; [reflexivity|].
  now rewrite Split_joinLines.
Qed.

(** After lines whose last key is not [user-agent], the flag is set or no
    agent is active. *)
Lemma parseLines_lastKey_lib pre : forall st k,
  (k <> Some "user-agent" ->
   isNoneUserAgentState st = true \/ userAgents st = []) ->
  fold_left (fun k line => match directive' line with
                           | Some (key, _) => Some key
                           | None => k
                           end) pre k <> Some "user-agent" ->
  isNoneUserAgentState (parseLines' pre st) = true \/
  userAgents (parseLines' pre st) = [].
Proof.
  induction pre as [|l pre IH]; intros st k Hst Hk; [now apply Hst|].
  unfold Generic.parseLines in *. cbn [fold_left] in *.
  apply (IH _ _ ) with (2 := Hk). intros Hne.
  destruct (directive' l) as [[key val]|] eqn:Hd.
  - left. rewrite (parseLine_flag_lib _ _ _ _ Hd).
    apply negb_true_iff, String.eqb_neq. congruence.
  - rewrite (parseLine_no_colon_lib _ _ Hd). now apply Hst.
Qed.

(** Deleting an ignored line from the lines the loop reads. *)
Lemma parseLines_delete_ignored_lib pre line post u :
  ignoredLine' line = true ->
  directive' line = None \/ lastKey' pre <> Some "user-agent" \/
  firstKey' post <> Some "user-agent" ->
  robotsTxt (parseLines' (pre ++ line :: post) (initialParser u)) =
  robotsTxt (parseLines' (pre ++ post) (initialParser u)).
Proof.
  intros Hign Hcases. unfold Generic.parseLines. rewrite !fold_left_app.
  cbn [fold_left].
  pose proof (parseLines_lastKey_lib pre (initialParser u) None) as Hinv.
  unfold Generic.parseLines in Hinv.
  destruct (fold_left parseLine' pre (initialParser u)) as [r uas b].
  apply ignoredLine_cases_lib in Hign as [Hn|(key & val & Hd & Hr)].
  { now rewrite (parseLine_no_colon_lib _ _ Hn). }
  rewrite (parseLine_unrecognized_lib _ _ _ _ Hd Hr).
  cbn [robotsTxt userAgents isNoneUserAgentState] in *.
  destruct Hcases as [Hn|[Hpre|Hpost]]; [congruence| |].
  - destruct Hinv as [->| ->]; [now right|exact Hpre|reflexivity|].
    apply (parseLines_flag_irrelevant_lib post r [] true b). now left.
  - apply (parseLines_flag_irrelevant_lib post r uas true b). now right.
Qed.

(** C4, as amended.  A line without a colon has no effect: deleting it from
    the text yields the same parsed value.  A line with a colon whose key,
    trimmed and lowered, is empty or is none of the six directives adds
    nothing of its own, but it sets [isNoneUserAgentState]: deleting it
    yields the same parsed value when the nearest line with a colon before
    it, or the nearest one after it, is not a [user-agent] line.  A comment
    line is a line of the first kind when it holds no colon and of the second
    kind when it does. *)
Theorem C4_deleting_an_ignored_line (pre post : list string)
    (line urlStr : string) :
  Forall (fun l => noLF l = true) (pre ++ line :: post) ->
  ignoredLine' line = true ->
  directive' line = None \/ lastKey' pre <> Some "user-agent" \/
  firstKey' post <> Some "user-agent" ->
  Parse' (joinLines (pre ++ line :: post)) urlStr =
  Parse' (joinLines (pre ++ post)) urlStr.
Proof.
  intros Hlf Hign Hcases. unfold Generic.Parse.
  destruct (parseAndNormalizeURL' urlStr) as [u|e]; [|reflexivity].
  f_equal. rewrite !parseLines_of_text_lib.
  - now apply parseLines_delete_ignored_lib.
  - apply Forall_app in Hlf as [H1 H2]. inversion H2; subst.
    now apply Forall_app.
  - exact Hlf.
Qed.

(** ** Crawl delay *)

(** [Parse] fails exactly when the URL of the file does: no line of the
    contents raises an error. *)
Lemma Parse_error_lib contents urlStr e :
  Parse' contents urlStr = inr e <-> parseAndNormalizeURL' urlStr = inr e.
Proof.
  unfold Generic.Parse.
  destruct (parseAndNormalizeURL' urlStr); split; congruence.
Qed.

(** C8, as amended.  A crawl-delay directive leaves the list of active agents
    as it is.  When [ParseFloat] accepts the value, every active agent gets
    the delay [time.Duration(delay * float64(time.Second))], the value taken
    as seconds and cut to whole nanoseconds, and keeps its rules; the sign is
    not checked: a negative value whose product lies within [int64] gives
    that product, cut to a whole number, which is never positive ([-5] gives
    minus five seconds, [1.5] gives one second and a half).  When the value
    does not parse, every active agent
    keeps its rule set as it was (the zero rule set, with delay 0, if it had
    none).  The other agents are not touched, and [Parse] returns an error
    only for the URL of the file, never for a line of the contents. *)
Theorem C8_crawl_delay_directive (st : parser) (line val : string) :
  directive' line = Some ("crawl-delay", val) ->
  userAgents (parseLine' st line) = userAgents st /\
  (forall ua, ua ∈ userAgents st ->
     match ParseFloat val with
     | Some delay =>
         groups (robotsTxt (parseLine' st line)) !! ua =
         Some {| rules := rules (groupOf (robotsTxt st) ua);
                 crawlDelay :=
                   Duration' (PrimFloat.mul delay
                                (Generic.float64 Generic.Second)) |}
     | None =>
         groups (robotsTxt (parseLine' st line)) !! ua =
         Some (groupOf (robotsTxt st) ua)
     end) /\
  (forall ua, ua ∉ userAgents st ->
     groups (robotsTxt (parseLine' st line)) !! ua =
     groups (robotsTxt st) !! ua) /\
  (forall delay z,
     PrimFloat.ltb delay PrimFloat.zero = true ->
     Generic.truncate (PrimFloat.mul delay (Generic.float64 Generic.Second))
       = Some z ->
     (- 2 ^ 63 <= z)%Z ->
     Duration' (PrimFloat.mul delay (Generic.float64 Generic.Second)) = z /\
     (z <= 0)%Z) /\
  Duration' (PrimFloat.mul (Generic.float64 (-5))
               (Generic.float64 Generic.Second)) = (-5000000000)%Z /\
  Duration' (PrimFloat.mul
               (PrimFloat.div (Generic.float64 3) (Generic.float64 2))
               (Generic.float64 Generic.Second)) = 1500000000%Z /\
  (forall contents urlStr e,
     Parse' contents urlStr = inr e -> parseAndNormalizeURL' urlStr = inr e).
Proof.
  intros H. rewrite (parseLine_crawl_delay_lib _ _ _ H).
  cbn [userAgents robotsTxt].
  split; [reflexivity|]. split; [|split; [|split; [|split; [|split]]]].
  - intros ua Hin. rewrite fold_addCrawlDelay_lookup_lib.
    destruct (decide (ua ∈ userAgents st)) as [_|Hn]; [|contradiction].
    unfold Generic.delayOf. now destruct (ParseFloat val).
  - intros ua Hn. rewrite fold_addCrawlDelay_lookup_lib.
    destruct (decide (ua ∈ userAgents st)) as [Hin|_];
      [contradiction|reflexivity].
  - intros delay z. apply Duration_negative.
  - vm_compute. reflexivity.
  - vm_compute. reflexivity.
  - intros contents urlStr e. apply Parse_error_lib.
Qed.

(** ** The errors of [compilePattern] *)

(** C10, as amended.  [compilePattern] succeeds exactly on the strings that
    are valid UTF-8 and whose expression [regexp.Compile] does not refuse as
    too large: the constructs it writes into the quoted path always form an
    expression of correct syntax, and the only errors it can return are the
    one for invalid UTF-8 and the one of the size limit.  So [addPathRule]
    returns an error, and drops the directive, exactly for a pattern path
    whose unescaped form is not valid UTF-8 or gives an expression that is
    too large. *)
Theorem C10_compile_fails_only_on_invalid_utf8 (p : string) :
  ((exists re, compilePattern' p = inl re) <->
   utf8Valid p = true /\ tooLarge (patternSource p) = false) /\
  (forall e, compilePattern' p = inr e ->
     e = Generic.ErrLarge /\ tooLarge (patternSource p) = true \/
     e = Generic.ErrSyntax ErrInvalidUTF8 /\ utf8Valid p = false) /\
  (forall r userAgent allowed,
     snd (addPathRule' r userAgent p allowed) <> None <->
     isPattern p = true /\
     (utf8Valid (preparePath p) = false \/
      tooLarge (patternSource (preparePath p)) = true)).
Proof.
  assert (R : forall q,
    compilePattern' q =
    if tooLarge (patternSource q) then inr Generic.ErrLarge
    else if utf8Valid q
         then match compilePattern q with
              | inl re => inl re
              | inr e => inr (Generic.ErrSyntax e)
              end
         else inr (Generic.ErrSyntax ErrInvalidUTF8)).
  { intros q. unfold Generic.compilePattern, Generic.regexpCompile.
    destruct (tooLarge (patternSource q)); [reflexivity|].
    pose proof (compilePattern_result q) as H.
    unfold compilePattern, regexpCompile in *.
    destruct (utf8Valid q); [reflexivity|]. now rewrite H. }
  split; [|split].
  - rewrite R. pose proof (compilePattern_result p) as H.
    destruct (tooLarge (patternSource p)), (utf8Valid p); split;
      try (intros [re Hre]; discriminate);
      try (intros [? ?]; discriminate).
    + intros _. now split.
    + intros _. destruct H as [re ->]. now eexists.
  - intros e. rewrite R. pose proof (compilePattern_result p) as H.
    destruct (tooLarge (patternSource p)); [intros [= <-]; now left|].
    destruct (utf8Valid p).
    + destruct H as [re ->]. discriminate.
    + intros [= <-]. now right.
  - intros r userAgent allowed. unfold Generic.addPathRule.
    destruct (getGroup r userAgent) as [g r'].
    destruct (isPattern p); cbn [snd].
    2:{ split; [congruence|]. intros [? _]. discriminate. }
    rewrite R. pose proof (compilePattern_result (preparePath p)) as H.
    destruct (tooLarge (patternSource (preparePath p))); cbn [snd].
    { split; [intros _; split; [reflexivity|now right]|discriminate]. }
    destruct (utf8Valid (preparePath p)).
    + destruct H as [re ->]. cbn [snd]. split; [congruence|].
      intros [_ [?|?]]; discriminate.
    + cbn [snd]. split; [intros _; split; [reflexivity|now left]|discriminate].
Qed.

(** ** Whole files *)

Lemma Parse_inl_lib contents urlStr r :
  Parse' contents urlStr = inl r ->
  exists u, parseAndNormalizeURL' urlStr = inl u /\
    r = robotsTxt (parseLines' (Split contents LF) (initialParser u)).
Proof.
  unfold Generic.Parse.
  destruct (parseAndNormalizeURL' urlStr) as [u|e]; [|discriminate].
  intros [= <-]. now exists u.
Qed.

Lemma hasKey_of_directive_lib k line val :
  directive' line = Some (k, val) -> hasKey' k line = true.
Proof. unfold Generic.hasKey. intros ->. apply String.eqb_refl. Qed.

Lemma parseLine_no_agent_lib st line :
  hasKey' "user-agent" line = false ->
  userAgents st = [] ->
  userAgents (parseLine' st line) = [] /\
  groups (robotsTxt (parseLine' st line)) = groups (robotsTxt st).
Proof.
  intros Hk Hu.
  destruct (parseLine_kind_lib st line)
    as [_|val E|val allowed _|val _|val _|val _|? ? _ _];
    cbn [robotsTxt userAgents]; rewrite ?Hu; try now split.
  - apply hasKey_of_directive_lib in E. congruence.
  - split; [reflexivity|]. now destruct (String.eqb val "").
  - split; [reflexivity|]. now destruct (String.eqb val "").
Qed.

Lemma parseLine_no_rule_lib st line :
  hasKey' "allow" line = false -> hasKey' "disallow" line = false ->
  hasKey' "crawl-delay" line = false ->
  groups (robotsTxt (parseLine' st line)) = groups (robotsTxt st).
Proof.
  intros H1 H2 H3.
  destruct (parseLine_kind_lib st line)
    as [_|val _|val allowed E|val E|val _|val _|? ? _ _];
    cbn [robotsTxt]; try reflexivity.
  - apply hasKey_of_directive_lib in E. destruct allowed; congruence.
  - apply hasKey_of_directive_lib in E. congruence.
  - now destruct (String.eqb val "").
  - now destruct (String.eqb val "").
Qed.

Lemma parseLines_no_agent_lib lines : forall st,
  Forall (fun l => hasKey' "user-agent" l = false) lines ->
  userAgents st = [] ->
  groups (robotsTxt (parseLines' lines st)) = groups (robotsTxt st).
Proof.
  induction lines as [|l lines IH]; intros st H Hu; [reflexivity|].
  inversion H as [|? ? Hl Hls]; subst.
  destruct (parseLine_no_agent_lib st l Hl Hu) as [Hu' Hg].
  unfold Generic.parseLines in *. cbn [fold_left]. now rewrite (IH _ Hls Hu').
Qed.

Lemma parseLines_no_rule_lib lines : forall st,
  Forall (fun l => hasKey' "allow" l = false /\ hasKey' "disallow" l = false /\
                   hasKey' "crawl-delay" l = false) lines ->
  groups (robotsTxt (parseLines' lines st)) = groups (robotsTxt st).
Proof.
  induction lines as [|l lines IH]; intros st H; [reflexivity|].
  inversion H as [|? ? (H1 & H2 & H3) Hls]; subst.
  unfold Generic.parseLines in *. cbn [fold_left]. rewrite (IH _ Hls).
  now apply parseLine_no_rule_lib.
Qed.

(** X13.  A file that has no [user-agent] line, or that has no [allow],
    [disallow] or [crawl-delay] line, has no rule set at all: rules met
    before the first [user-agent] line are attached to no agent, and a
    [user-agent] line alone creates nothing.  Every URL of the origin is
    then allowed for every agent, and every crawl delay is 0.  The key of a
    line is its text before the first colon as [strings.TrimSpace] and
    [strings.ToLower] return it. *)
Theorem no_agent_or_no_rule_no_groups (contents urlStr : string) (r : RobotsTxt) :
  Parse' contents urlStr = inl r ->
  Forall (fun l => hasKey' "user-agent" l = false) (Split contents LF) \/
  Forall (fun l => hasKey' "allow" l = false /\ hasKey' "disallow" l = false /\
                   hasKey' "crawl-delay" l = false) (Split contents LF) ->
  groups r = ∅ /\
  (forall userAgent, CrawlDelay' r userAgent = 0%Z) /\
  (forall userAgent query u,
     parseAndNormalizeURL' query = inl u ->
     URL.Scheme u = URL.Scheme (url r) -> URL.Host u = URL.Host (url r) ->
     IsAllowed' r userAgent query = (true, None)).
Proof.
  intros (u & _ & ->)%Parse_inl_lib H.
  assert (E : groups (robotsTxt (parseLines' (Split contents LF)
                                   (initialParser u))) = ∅).
  { destruct H as [H|H].
    - now rewrite (parseLines_no_agent_lib _ (initialParser u) H eq_refl).
    - now rewrite (parseLines_no_rule_lib _ (initialParser u) H). }
  split; [exact E|]. split.
  - intros userAgent. unfold Generic.CrawlDelay. now rewrite E, !lookup_empty.
  - intros userAgent query u' Hq Hs Hh. unfold Generic.IsAllowed.
    rewrite Hq, Hs, Hh, !String.eqb_refl, E, !lookup_empty. reflexivity.
Qed.

Lemma parseLine_sitemaps_lib st line :
  sitemaps (robotsTxt (parseLine' st line)) =
  sitemaps (robotsTxt st) ++ valueOf' "sitemap" line.
Proof.
  unfold Generic.valueOf.
  destruct (parseLine_kind_lib st line)
    as [E|val E|val allowed E|val E|val E|val E|key val E R];
    rewrite E; cbn [robotsTxt].
  - now rewrite app_nil_r.
  - now rewrite app_nil_r.
  - destruct (fold_addPathRule_rest_lib val allowed (userAgents st)
                (robotsTxt st)) as (_ & -> & _).
    destruct allowed; cbn [String.eqb Ascii.eqb Bool.eqb andb];
      now rewrite app_nil_r.
  - destruct (fold_addCrawlDelay_rest_lib val (userAgents st) (robotsTxt st))
      as (_ & -> & _).
    now rewrite app_nil_r.
  - rewrite String.eqb_refl. cbn [andb].
    destruct (String.eqb val ""); cbn [negb]; [now rewrite app_nil_r|reflexivity].
  - destruct (String.eqb val ""); now rewrite app_nil_r.
  - apply (recognized_false) in R as (_ & _ & _ & _ & -> & _).
    cbn [andb]. now rewrite app_nil_r.
Qed.

Lemma parseLine_hostValue_lib st line :
  host (robotsTxt (parseLine' st line)) =
  default (host (robotsTxt st)) (last (valueOf' "host" line)).
Proof.
  unfold Generic.valueOf.
  destruct (parseLine_kind_lib st line)
    as [E|val E|val allowed E|val E|val E|val E|key val E R];
    rewrite E; cbn [robotsTxt]; try reflexivity.
  - destruct (fold_addPathRule_rest_lib val allowed (userAgents st)
                (robotsTxt st)) as (_ & _ & ->).
    now destruct allowed.
  - now destruct (fold_addCrawlDelay_rest_lib val (userAgents st)
                    (robotsTxt st)) as (_ & _ & ->).
  - now destruct (String.eqb val "").
  - rewrite String.eqb_refl. cbn [andb].
    now destruct (String.eqb val "").
  - apply (recognized_false) in R as (_ & _ & _ & _ & _ & ->).
    reflexivity.
Qed.

Lemma parseLines_sitemaps_host_lib lines : forall st,
  sitemaps (robotsTxt (parseLines' lines st)) =
    sitemaps (robotsTxt st) ++ valuesOf' "sitemap" lines /\
  host (robotsTxt (parseLines' lines st)) =
    default (host (robotsTxt st)) (last (valuesOf' "host" lines)).
Proof.
  induction lines as [|l lines IH]; intros st.
  - cbn. now rewrite app_nil_r.
  - destruct (IH (parseLine' st l)) as [IH1 IH2].
    unfold Generic.parseLines in *. cbn [fold_left].
    unfold Generic.valuesOf in *. cbn [flat_map]. split.
    + now rewrite IH1, parseLine_sitemaps_lib, <- app_assoc.
    + rewrite IH2, parseLine_hostValue_lib, last_app.
      now destruct (last (flat_map (valueOf' "host") lines)).
Qed.

(** X14.  [Sitemaps] returns the non-empty values of all the [sitemap] lines
    of the file, in the order of the lines, whatever group of agents a line
    stands in.  The key and the value of a line are its text before and
    after the first colon as [strings.TrimSpace] and [strings.ToLower]
    return them. *)
Theorem Sitemaps_of_file (contents urlStr : string) (r : RobotsTxt) :
  Parse' contents urlStr = inl r ->
  Sitemaps r = valuesOf' "sitemap" (Split contents LF).
Proof.
  intros (u & _ & ->)%Parse_inl_lib. unfold Sitemaps.
  now rewrite (proj1 (parseLines_sitemaps_host_lib _ _)).
Qed.

(** X15.  [Host] returns the value of the last [host] line of the file whose
    value is not empty, and the empty string when there is none: a later
    [host] line replaces an earlier one, and a blank one changes nothing.
    The key and the value of a line are its text before and after the first
    colon as [strings.TrimSpace] and [strings.ToLower] return them. *)
Theorem Host_of_file (contents urlStr : string) (r : RobotsTxt) :
  Parse' contents urlStr = inl r ->
  Host r = default "" (last (valuesOf' "host" (Split contents LF))).
Proof.
  intros (u & _ & ->)%Parse_inl_lib. unfold Host.
  now rewrite (proj2 (parseLines_sitemaps_host_lib _ _)).
Qed.

(** *** A file with one rule *)

Lemma makeRule_no_percent_lib p allowed :
  allBytes (otherThan "%") p = true -> isPattern p = false ->
  makeRule' p allowed =
  Some {| isAllowed := allowed; path := p; pattern := None |}.
Proof.
  intros H Hp. unfold Generic.makeRule.
  now rewrite Hp, (preparePath_no_percent _ H).
Qed.

(** X20.  A file of two lines, a [user-agent] line for the agent [*] and a
    [disallow] line whose value [p] has no percent sign, asterisk or final
    dollar, refuses exactly the URLs of its origin whose path starts with
    [p], for every agent.  The keys and values are those the parser reads
    from the lines. *)
Theorem disallow_blocks_the_prefix (line1 line2 agent p base : string)
    (r : RobotsTxt) :
  noLF line1 = true -> noLF line2 = true ->
  directive' line1 = Some ("user-agent", agent) ->
  normaliseUserAgent' agent = "*" ->
  directive' line2 = Some ("disallow", p) ->
  allBytes (otherThan "%") p = true ->
  isPattern p = false ->
  Parse' (joinLines [line1; line2]) base = inl r ->
  forall userAgent query u,
    parseAndNormalizeURL' query = inl u ->
    URL.Scheme u = URL.Scheme (url r) -> URL.Host u = URL.Host (url r) ->
    IsAllowed' r userAgent query = (negb (HasPrefix (URL.Path u) p), None).
Proof.
  intros Hl1 Hl2 D1 Hstar D2 Hpct Hpat (u0 & _ & ->)%Parse_inl_lib
    userAgent query u Hq Hs Hh.
  assert (SP : Split (joinLines [line1; line2]) LF = [line1; line2]).
  { apply Split_joinLines; [discriminate|]. now repeat constructor. }
  rewrite SP in Hs, Hh |- *. clear SP.
  unfold Generic.parseLines in *. cbn [fold_left] in *.
  rewrite (parseLine_path_rule_lib _ _ _ false D2) in Hs, Hh |- *.
  rewrite (parseLine_user_agent_lib _ _ _ D1) in Hs, Hh |- *.
  cbn [initialParser isNoneUserAgentState userAgents robotsTxt app fold_left]
    in Hs, Hh |- *.
  rewrite Hstar in Hs, Hh |- *. cbn [fold_left] in Hs, Hh |- *.
  destruct (addPathRule_rest_lib
              {| url := u0; groups := ∅; sitemaps := []; host := "" |}
              "*" p false) as (Hu & _ & _).
  rewrite Hu in Hs, Hh. cbn [url] in Hs, Hh.
  unfold Generic.IsAllowed. rewrite Hq, Hu. cbn [url].
  rewrite Hs, Hh, !String.eqb_refl. cbn [negb orb].
  rewrite addPathRule_groups_lib.
  rewrite (makeRule_no_percent_lib p false Hpct Hpat).
  assert (E0 : groupOf {| url := u0; groups := ∅; sitemaps := []; host := "" |}
                 "*" = emptyGroup).
  { unfold groupOf. cbn [groups]. now rewrite lookup_empty. }
  rewrite E0. clear E0.
  assert (G : forall k,
    match <["*" := appendRule emptyGroup
                     {| isAllowed := false; path := p; pattern := None |}]>
            (∅ : gmap string group) !! k with
    | Some g => (group_isAllowed g userAgent (URL.Path u), None)
    | None => (negb (HasPrefix (URL.Path u) p), @None error)
    end = (negb (HasPrefix (URL.Path u) p), None)).
  { intros k. destruct (decide (k = "*")) as [->|Hne].
    - rewrite lookup_insert_eq. unfold group_isAllowed. cbn.
      now destruct (HasPrefix (URL.Path u) p).
    - now rewrite lookup_insert_ne, lookup_empty by congruence. }
  cbn [groups].
  destruct (decide (normaliseUserAgent' userAgent = "*")) as [->|Hne].
  - apply (G "*").
  - rewrite lookup_insert_ne, lookup_empty by congruence. apply (G "*").
Qed.

End GenericProperties.

(** * Escapes in directive paths *)

(** ** Texts around an escape *)

(** Two ways of cutting one text. *)
Lemma append_eq_append a : forall b c d,
  a +:+ b = c +:+ d ->
  exists l, (a = c +:+ l /\ d = l +:+ b) \/ (c = a +:+ l /\ b = l +:+ d).
Proof.
  induction a as [|x a IH]; intros b c d H.
  - exists c. right. now split.
  - destruct c as [|y c].
    + exists (String x a). left. simpl in *. now split.
    + injection H as -> H. destruct (IH _ _ _ H) as (l & [[-> ->]|[-> ->]]).
      * exists l. now left.
      * exists l. now right.
Qed.

Lemma HasSuffix_iff s w :
  HasSuffix s w = true <-> exists pre, s = pre +:+ w.
Proof.
  split; [apply HasSuffix_inv|]. intros (pre & ->). apply HasSuffix_append.
Qed.

Lemma allBytes_absent c s rest pre :
  allBytes (otherThan c) s = true -> s <> pre +:+ String c rest.
Proof.
  intros H ->. rewrite allBytes_app in H. apply andb_true_iff in H as [_ H].
  simpl in H. unfold otherThan in H. now rewrite Ascii.eqb_refl in H.
Qed.

(** A suffix without the byte [c] lies behind the last [c]. *)
Lemma HasSuffix_past c z y old :
  allBytes (otherThan c) old = true ->
  HasSuffix (z +:+ String c y) old = HasSuffix y old.
Proof.
  intros Hc. apply eq_true_iff_eq. rewrite !HasSuffix_iff. split.
  - intros (pre & H). apply append_eq_append in H as (l & [[_ H]|[_ H]]).
    + now apply allBytes_absent in H.
    + destruct l as [|x l].
      * simpl in H. symmetry in H. now apply (allBytes_absent c old y "") in H.
      * injection H as _ ->. now exists l.
  - intros (pre & ->). exists (z +:+ String c pre).
    now rewrite append_assoc.
Qed.

Lemma replaceSuffix_past c z y old new :
  allBytes (otherThan c) old = true ->
  replaceSuffix (z +:+ String c y) old new =
  z +:+ String c (replaceSuffix y old new).
Proof.
  intros Hc. unfold replaceSuffix at 1. rewrite (HasSuffix_past c z y old Hc).
  destruct (HasSuffix y old) eqn:E.
  - apply HasSuffix_inv in E as (pre & ->).
    rewrite replaceSuffix_append.
    change (String c (pre +:+ old)) with (String c pre +:+ old).
    rewrite <- append_assoc, length_append.
    replace (len (z +:+ String c pre) + len old - len old)
      with (len (z +:+ String c pre)) by lia.
    now rewrite sliceTo_append, append_assoc.
  - now rewrite (replaceSuffix_none _ _ _ E).
Qed.

(** A text whose first byte does not occur again overlaps no copy of
    itself: behind a copy, it is a suffix only of what follows. *)
Lemma HasSuffix_after_self x o z y :
  allBytes (otherThan x) o = true -> y <> "" ->
  HasSuffix (z +:+ String x o +:+ y) (String x o) = HasSuffix y (String x o).
Proof.
  intros Hx Hy. apply eq_true_iff_eq. rewrite !HasSuffix_iff. split.
  - intros (pre & H). apply append_eq_append in H as (l & [[_ H]|[_ H]]).
    + apply (f_equal String.length) in H. rewrite !length_append in H.
      destruct y; [congruence|]. simpl in H. lia.
    + apply append_eq_append in H as (l2 & [[H1 H2]|[-> ->]]).
      * destruct l2 as [|c l2].
        { simpl in H2. subst y. now exists "". }
        destruct l as [|d l].
        { simpl in H1. rewrite H1 in H2 at 1.
          apply (f_equal String.length) in H2. rewrite !length_append in H2.
          destruct y; [congruence|]. simpl in H2. lia. }
        injection H2 as <- _. injection H1 as _ H1.
        now apply allBytes_absent in H1.
      * now exists l2.
  - intros (pre & ->). exists (z +:+ String x o +:+ pre).
    now rewrite !append_assoc.
Qed.

Lemma replaceSuffix_after_self x o z y new :
  allBytes (otherThan x) o = true -> y <> "" ->
  replaceSuffix (z +:+ String x o +:+ y) (String x o) new =
  z +:+ String x o +:+ replaceSuffix y (String x o) new.
Proof.
  intros Hx Hy. unfold replaceSuffix at 1.
  rewrite (HasSuffix_after_self x o z y Hx Hy).
  destruct (HasSuffix y (String x o)) eqn:E.
  - apply HasSuffix_inv in E as (pre & ->).
    rewrite replaceSuffix_append, <- !append_assoc, length_append.
    replace (len ((z +:+ String x o) +:+ pre) + len (String x o)
             - len (String x o))
      with (len ((z +:+ String x o) +:+ pre)) by lia.
    now rewrite sliceTo_append.
  - now rewrite (replaceSuffix_none _ _ _ E).
Qed.

Lemma HasSuffix_byte s c :
  HasSuffix s (String c "") = true <-> lastChar s = Some c.
Proof.
  rewrite HasSuffix_iff. split.
  - intros (pre & ->). now rewrite lastChar_app.
  - induction s as [|d s IH]; [discriminate|].
    simpl. destruct (lastChar s) as [e|] eqn:E.
    + intros [= ->]. destruct (IH eq_refl) as (pre & ->).
      now exists (String d pre).
    + intros [= ->]. destruct s; [now exists ""|].
      simpl in E. now destruct (lastChar s).
Qed.

(** ** The replacements around an escape *)

Lemma prefix_length w : forall s, String.prefix w s = true -> len w <= len s.
Proof.
  induction w as [|c w IH]; intros s H; [simpl; lia|].
  destruct s as [|d s]; [discriminate|].
  rewrite prefix_cons in H. apply andb_true_iff in H as [_ H].
  apply IH in H. simpl. lia.
Qed.

(** An occurrence of [old] does not reach over a byte [c] that [old] does
    not have. *)
Lemma prefix_past c old : forall u v,
  allBytes (otherThan c) old = true ->
  String.prefix old (u +:+ String c v) = String.prefix old u.
Proof.
  induction old as [|x old IH]; intros u v H; [now rewrite !prefix_nil|].
  simpl in H. apply andb_true_iff in H as [Hx H].
  unfold otherThan in Hx. apply negb_true_iff in Hx.
  destruct u as [|d u].
  - change ("" +:+ String c v) with (String c v).
    now rewrite prefix_cons, Ascii.eqb_sym, Hx.
  - change (String d u +:+ String c v) with (String d (u +:+ String c v)).
    now rewrite !prefix_cons, IH.
Qed.

Lemma ReplaceFrom_past c old new : forall u k v,
  old <> "" -> allBytes (otherThan c) old = true -> k <= len u ->
  ReplaceFrom old new k (u +:+ String c v) =
  ReplaceFrom old new k u +:+ String c (ReplaceFrom old new 0 v).
Proof.
  induction u as [|d u IH]; intros k v Hne Hc Hk.
  - simpl in Hk. replace k with 0 by lia.
    change ("" +:+ String c v) with (String c v).
    rewrite ReplaceFrom_here.
    destruct old as [|x old]; [congruence|].
    simpl in Hc. apply andb_true_iff in Hc as [Hx _].
    unfold otherThan in Hx. apply negb_true_iff in Hx.
    now rewrite prefix_cons, Ascii.eqb_sym, Hx.
  - change (String d u +:+ String c v) with (String d (u +:+ String c v)).
    destruct k as [|k].
    + rewrite !ReplaceFrom_here.
      change (String d (u +:+ String c v)) with (String d u +:+ String c v).
      rewrite (prefix_past c old _ v Hc).
      destruct (String.prefix old (String d u)) eqn:E.
      * apply prefix_length in E. rewrite IH; auto.
        -- now rewrite append_assoc.
        -- simpl in E. lia.
      * rewrite IH; auto. simpl. lia.
    + rewrite !ReplaceFrom_skip. apply IH; auto. simpl in Hk. lia.
Qed.

(** The replacement works on the two sides of a byte that [old] does not
    have. *)
Lemma Replace_past c old new u v :
  old <> "" -> allBytes (otherThan c) old = true ->
  Replace (u +:+ String c v) old new =
  Replace u old new +:+ String c (Replace v old new).
Proof.
  intros Hne Hc. unfold Replace. apply ReplaceFrom_past; auto. lia.
Qed.

(** An occurrence of [old] does not reach over a copy of its first byte,
    when this byte occurs once in [old]. *)
Lemma prefix_before x : forall w u v,
  allBytes (otherThan x) w = true ->
  String.prefix w (u +:+ String x v) = true -> String.prefix w u = true.
Proof.
  induction w as [|c w IH]; intros u v H E; [apply prefix_nil|].
  simpl in H. apply andb_true_iff in H as [Hc H].
  unfold otherThan in Hc. apply negb_true_iff in Hc.
  destruct u as [|d u].
  - change ("" +:+ String x v) with (String x v) in E.
    rewrite prefix_cons, Ascii.eqb_sym, Hc in E. discriminate.
  - change (String d u +:+ String x v) with (String d (u +:+ String x v)) in E.
    rewrite prefix_cons in *. apply andb_true_iff in E as [-> E].
    now rewrite (IH _ _ H E).
Qed.

Lemma prefix_weaken w : forall u v,
  String.prefix w u = true -> String.prefix w (u +:+ v) = true.
Proof.
  induction w as [|c w IH]; intros u v H; [apply prefix_nil|].
  destruct u as [|d u]; [discriminate|].
  change (String d u +:+ v) with (String d (u +:+ v)).
  rewrite prefix_cons in *. apply andb_true_iff in H as [-> H].
  now rewrite IH.
Qed.

Lemma ReplaceFrom_before x o new : forall u k v,
  allBytes (otherThan x) o = true -> k <= len u ->
  ReplaceFrom (String x o) new k (u +:+ String x v) =
  ReplaceFrom (String x o) new k u +:+
  ReplaceFrom (String x o) new 0 (String x v).
Proof.
  induction u as [|d u IH]; intros k v Hx Hk.
  - simpl in Hk. now replace k with 0 by lia.
  - change (String d u +:+ String x v) with (String d (u +:+ String x v)).
    destruct k as [|k].
    + rewrite (ReplaceFrom_here _ _ d u), (ReplaceFrom_here _ _ d (u +:+ _)).
      rewrite !prefix_cons.
      destruct (Ascii.eqb x d) eqn:Exd; cbn [andb].
      * destruct (String.prefix o (u +:+ String x v)) eqn:E.
        -- pose proof (prefix_before x o u v Hx E) as E'. rewrite E'.
           apply prefix_length in E'. rewrite IH; auto.
           ++ now rewrite append_assoc.
           ++ simpl. lia.
        -- destruct (String.prefix o u) eqn:E'.
           ++ now rewrite (prefix_weaken _ _ _ E') in E.
           ++ rewrite IH; auto. simpl. lia.
      * rewrite IH; auto. simpl. lia.
    + rewrite !ReplaceFrom_skip. apply IH; auto. simpl in Hk. lia.
Qed.

(** The replacement works on the two sides of an occurrence of [old], when
    the first byte of [old] occurs once in it. *)
Lemma Replace_around x o new u v :
  allBytes (otherThan x) o = true ->
  Replace (u +:+ String x o +:+ v) (String x o) new =
  Replace u (String x o) new +:+ new +:+ Replace v (String x o) new.
Proof.
  intros Hx. unfold Replace.
  change (String x o +:+ v) with (String x (o +:+ v)).
  rewrite ReplaceFrom_before by (auto; lia).
  change (String x (o +:+ v)) with (String x o +:+ v).
  now rewrite ReplaceFrom_hit.
Qed.

(** The same before a text that starts like [old] and is no occurrence. *)
Lemma Replace_before x o new u v :
  allBytes (otherThan x) o = true ->
  Replace (u +:+ String x v) (String x o) new =
  Replace u (String x o) new +:+ Replace (String x v) (String x o) new.
Proof. intros Hx. unfold Replace. apply ReplaceFrom_before; auto. lia. Qed.

(** ** Unescaping around an escape *)

Lemma PathUnescape_cons c s :
  Ascii.eqb c "%" = false ->
  PathUnescape (String c s) = option_map (String c) (PathUnescape s).
Proof. intros H. cbn [PathUnescape]. now rewrite H. Qed.

Lemma PathUnescape_escape h1 h2 s :
  PathUnescape (String "%" (String h1 (String h2 s))) =
  match unhex h1, unhex h2 with
  | Some a, Some b =>
      option_map (String (ascii_of_nat (16 * a + b))) (PathUnescape s)
  | _, _ => None
  end.
Proof. reflexivity. Qed.

(** The text [t] cannot complete an escape that [s] leaves open: it is
    empty, or its first byte is a percent sign or no hexadecimal digit.
    The two texts are then unescaped one after the other. *)
Lemma PathUnescape_append n : forall s t,
  len s <= n ->
  (forall c t', t = String c t' -> unhex c = None) ->
  PathUnescape (s +:+ t) =
  match PathUnescape s with
  | Some u => option_map (String.append u) (PathUnescape t)
  | None => None
  end.
Proof.
  induction n as [|n IH]; intros s t Hn Ht.
  { destruct s; [|simpl in Hn; lia]. cbn. now destruct (PathUnescape t). }
  destruct s as [|c s]; [cbn; now destruct (PathUnescape t)|].
  simpl in Hn.
  change (String c s +:+ t) with (String c (s +:+ t)).
  destruct (Ascii.eqb c "%") eqn:Ec.
  - apply Ascii.eqb_eq in Ec. subst c.
    destruct s as [|h1 [|h2 s]].
    + change ("" +:+ t) with t.
      destruct t as [|c0 [|c1 t']]; try reflexivity.
      cbn [PathUnescape Ascii.eqb Bool.eqb]. now rewrite (Ht c0 _ eq_refl).
    + change (String h1 "" +:+ t) with (String h1 t).
      destruct t as [|c0 t']; [reflexivity|].
      rewrite PathUnescape_escape, (Ht c0 _ eq_refl).
      now destruct (unhex h1).
    + change (String h1 (String h2 s) +:+ t)
        with (String h1 (String h2 (s +:+ t))).
      rewrite !PathUnescape_escape.
      destruct (unhex h1) as [a|]; [|reflexivity].
      destruct (unhex h2) as [b|]; [|reflexivity].
      rewrite (IH s t) by (auto; simpl in Hn; lia).
      destruct (PathUnescape s) as [u|]; [|reflexivity].
      cbn [option_map]. now destruct (PathUnescape t).
  - rewrite !PathUnescape_cons by assumption.
    rewrite (IH s t) by (auto; lia).
    destruct (PathUnescape s) as [u|]; [|reflexivity].
    cbn [option_map]. now destruct (PathUnescape t).
Qed.

Lemma PathUnescape_before s c t :
  unhex c = None ->
  PathUnescape (s +:+ String c t) =
  match PathUnescape s with
  | Some u => option_map (String.append u) (PathUnescape (String c t))
  | None => None
  end.
Proof.
  intros Hc. apply (PathUnescape_append (len s)); [lia|].
  now intros c' t' [= <- <-].
Qed.

(** Only the empty text is unescaped to the empty text. *)
Lemma PathUnescape_empty s : PathUnescape s = Some "" -> s = "".
Proof.
  destruct s as [|c s]; [reflexivity|].
  destruct (Ascii.eqb c "%") eqn:Ec.
  - apply Ascii.eqb_eq in Ec. subst c.
    destruct s as [|h1 [|h2 s]]; try discriminate.
    rewrite PathUnescape_escape.
    destruct (unhex h1); [|discriminate]. destruct (unhex h2); [|discriminate].
    now destruct (PathUnescape s).
  - rewrite PathUnescape_cons by assumption.
    now destruct (PathUnescape s).
Qed.

Lemma unhex_bound c n : unhex c = Some n -> n < 16.
Proof.
  unfold unhex.
  repeat match goal with
         | |- context [if ?b then _ else _] => destruct b eqn:?
         end; intros [= <-];
    repeat match goal with
           | H : (_ && _)%bool = true |- _ => apply andb_true_iff in H as [? ?]
           | H : (_ <=? _)%nat = true |- _ => apply Nat.leb_le in H
           end; lia.
Qed.

Lemma unhex_2 c : unhex c = Some 2 -> c = "2"%char.
Proof. destruct c as [[] [] [] [] [] [] [] []]; now intros [=]. Qed.

Lemma unhex_4 c : unhex c = Some 4 -> c = "4"%char.
Proof. destruct c as [[] [] [] [] [] [] [] []]; now intros [=]. Qed.

(** The escape of the dollar is [%24]. *)
Lemma unhex_dollar h1 h2 a b :
  unhex h1 = Some a -> unhex h2 = Some b ->
  ascii_of_nat (16 * a + b) = "$"%char -> h1 = "2"%char /\ h2 = "4"%char.
Proof.
  intros H1 H2 E.
  pose proof (unhex_bound _ _ H1). pose proof (unhex_bound _ _ H2).
  apply (f_equal nat_of_ascii) in E.
  rewrite nat_ascii_embedding in E by lia.
  change (nat_of_ascii "$") with 36 in E.
  assert (a = 2) by lia. assert (b = 4) by lia. subst.
  split; [now apply unhex_2 | now apply unhex_4].
Qed.

Lemma HasSuffix_cons c s w :
  HasSuffix s w = true -> HasSuffix (String c s) w = true.
Proof.
  rewrite !HasSuffix_iff. intros (pre & ->). now exists (String c pre).
Qed.

Lemma HasSuffix_cons_inv c s w :
  HasSuffix (String c s) w = true ->
  HasSuffix s w = true \/ w = String c s.
Proof.
  rewrite !HasSuffix_iff. intros ([|d pre] & H).
  - right. now simpl in H.
  - left. injection H as _ ->. now exists pre.
Qed.

(** A text that is unescaped to a text with a final dollar ends with a
    dollar or with its escape. *)
Lemma PathUnescape_dollar_end n : forall s u,
  len s <= n ->
  PathUnescape s = Some u -> HasSuffix u "$" = true ->
  HasSuffix s "$" = true \/ HasSuffix s "%24" = true.
Proof.
  induction n as [|n IH]; intros s u Hn Hs Hu.
  { destruct s; [|simpl in Hn; lia]. injection Hs as <-. discriminate. }
  destruct s as [|c s]; [injection Hs as <-; discriminate|].
  simpl in Hn. destruct (Ascii.eqb c "%") eqn:Ec.
  - apply Ascii.eqb_eq in Ec. subst c.
    destruct s as [|h1 [|h2 s]]; try discriminate.
    rewrite PathUnescape_escape in Hs.
    destruct (unhex h1) as [a|] eqn:E1; [|discriminate].
    destruct (unhex h2) as [b|] eqn:E2; [|discriminate].
    destruct (PathUnescape s) as [u'|] eqn:E; [|discriminate].
    injection Hs as <-.
    apply HasSuffix_cons_inv in Hu as [Hu|Hu].
    + destruct (IH s u' ltac:(simpl in Hn; lia) E Hu) as [H|H];
        [left|right]; now repeat apply HasSuffix_cons.
    + injection Hu as Hx Hu'. subst u'.
      apply PathUnescape_empty in E. subst s.
      symmetry in Hx.
      destruct (unhex_dollar _ _ _ _ E1 E2 Hx) as [-> ->]. now right.
  - rewrite PathUnescape_cons in Hs by assumption.
    destruct (PathUnescape s) as [u'|] eqn:E; [|discriminate].
    injection Hs as <-.
    apply HasSuffix_cons_inv in Hu as [Hu|Hu].
    + destruct (IH s u' ltac:(lia) E Hu) as [H|H];
        [left|right]; now apply HasSuffix_cons.
    + injection Hu as <- Hu'. subst u'.
      apply PathUnescape_empty in E. subst s. now left.
Qed.

(** Protecting the escaped asterisks keeps a valid encoding valid. *)
Lemma PathUnescape_protect n : forall s,
  len s <= n ->
  PathUnescape s <> None ->
  PathUnescape (Replace s "%2A" "%252A") <> None.
Proof.
  unfold Replace.
  induction n as [|n IH]; intros s Hn Hs.
  { destruct s; [|simpl in Hn; lia]. discriminate. }
  destruct s as [|c s]; [discriminate|].
  simpl in Hn. destruct (Ascii.eqb c "%") eqn:Ec.
  - apply Ascii.eqb_eq in Ec. subst c.
    destruct s as [|h1 [|h2 s]]; try (now contradiction Hs).
    rewrite PathUnescape_escape in Hs.
    destruct (unhex h1) as [a|] eqn:E1; [|congruence].
    destruct (unhex h2) as [b|] eqn:E2; [|congruence].
    assert (Hs' : PathUnescape s <> None)
      by (destruct (PathUnescape s); [discriminate|now contradiction Hs]).
    specialize (IH s ltac:(simpl in Hn; lia) Hs').
    assert (N1 : Ascii.eqb "%" h1 = false).
    { apply Ascii.eqb_neq. intros <-. discriminate. }
    assert (N2 : Ascii.eqb "%" h2 = false).
    { apply Ascii.eqb_neq. intros <-. discriminate. }
    rewrite ReplaceFrom_here, !prefix_cons, prefix_nil, Ascii.eqb_refl.
    cbn [andb]. rewrite andb_true_r.
    destruct (Ascii.eqb "2" h1 && Ascii.eqb "A" h2) eqn:E.
    + change (len "%2A" - 1) with 2. rewrite !ReplaceFrom_skip.
      change ("%252A" +:+ ReplaceFrom "%2A" "%252A" 0 s)
        with (String "%" (String "2" (String "5"
                (String "2" (String "A" (ReplaceFrom "%2A" "%252A" 0 s)))))).
      rewrite PathUnescape_escape. cbn [unhex nat_of_ascii]. cbn.
      destruct (PathUnescape (ReplaceFrom "%2A" "%252A" 0 s)); [discriminate|congruence].
    + rewrite (ReplaceFrom_here _ _ h1), prefix_cons, N1. cbn [andb].
      rewrite (ReplaceFrom_here _ _ h2), prefix_cons, N2. cbn [andb].
      rewrite PathUnescape_escape, E1, E2.
      destruct (PathUnescape (ReplaceFrom "%2A" "%252A" 0 s)); [discriminate|congruence].
  - rewrite PathUnescape_cons in Hs by assumption.
    assert (Hs' : PathUnescape s <> None)
      by (destruct (PathUnescape s); [discriminate|now contradiction Hs]).
    specialize (IH s ltac:(lia) Hs').
    rewrite ReplaceFrom_here, prefix_cons, Ascii.eqb_sym, Ec. cbn [andb].
    rewrite PathUnescape_cons by assumption.
    destruct (PathUnescape (ReplaceFrom "%2A" "%252A" 0 s)); [discriminate|congruence].
Qed.

(** ** The end of a replaced text *)

Lemma allBytes_last z s :
  lastChar s = Some z -> allBytes (otherThan z) s = false.
Proof.
  intros H. apply HasSuffix_byte in H. apply HasSuffix_inv in H as (pre & ->).
  rewrite allBytes_app. simpl. unfold otherThan. rewrite Ascii.eqb_refl.
  apply andb_false_r.
Qed.

(** A replaced text without the last byte of [new] has no replacement. *)
Lemma ReplaceFrom_same old new z : forall s,
  lastChar new = Some z ->
  allBytes (otherThan z) (ReplaceFrom old new 0 s) = true ->
  ReplaceFrom old new 0 s = s.
Proof.
  intros s Hz. induction s as [|c s IH]; [reflexivity|].
  rewrite ReplaceFrom_here. destruct (String.prefix old (String c s)).
  - rewrite allBytes_app, (allBytes_last z new Hz). discriminate.
  - simpl. intros [_ H]%andb_true_iff. now rewrite IH.
Qed.

(** A suffix without the last byte of [new] was there before the
    replacement. *)
Lemma HasSuffix_ReplaceFrom old new z w : forall s k,
  lastChar new = Some z -> allBytes (otherThan z) w = true -> w <> "" ->
  HasSuffix (ReplaceFrom old new k s) w = true -> HasSuffix s w = true.
Proof.
  intros s k Hz Hw Hne. revert k. induction s as [|c s IH]; intros k H.
  - destruct w; [congruence|]. destruct k; discriminate.
  - destruct k as [|k].
    + rewrite ReplaceFrom_here in H.
      destruct (String.prefix old (String c s)).
      * apply HasSuffix_byte in Hz. apply HasSuffix_inv in Hz as (pre & ->).
        rewrite append_assoc in H.
        change (String z "" +:+ ReplaceFrom old (pre +:+ String z "") (len old - 1) s)
          with (String z (ReplaceFrom old (pre +:+ String z "") (len old - 1) s)) in H.
        rewrite HasSuffix_past in H by assumption.
        apply HasSuffix_cons. now apply (IH _ H).
      * apply HasSuffix_cons_inv in H as [H|H].
        -- apply HasSuffix_cons. now apply (IH _ H).
        -- assert (E : ReplaceFrom old new 0 s = s).
           { apply (ReplaceFrom_same old new z s Hz).
             rewrite H in Hw. simpl in Hw.
             now apply andb_true_iff in Hw as [_ Hw]. }
           rewrite E in H. rewrite H. apply (HasSuffix_append "").
    + rewrite ReplaceFrom_skip in H. apply HasSuffix_cons. now apply (IH _ H).
Qed.

Lemma HasSuffix_Replace s old new z w :
  lastChar new = Some z -> allBytes (otherThan z) w = true -> w <> "" ->
  HasSuffix s w = false -> HasSuffix (Replace s old new) w = false.
Proof.
  intros Hz Hw Hne H. destruct (HasSuffix (Replace s old new) w) eqn:E;
    [|reflexivity].
  apply (HasSuffix_ReplaceFrom old new z w s 0 Hz Hw Hne) in E. congruence.
Qed.

(** ** The prepared path around an escape *)

Lemma replaceSuffix_behind m c a b old new :
  allBytes (otherThan c) old = true ->
  replaceSuffix (a +:+ m +:+ String c b) old new =
  a +:+ m +:+ String c (replaceSuffix b old new).
Proof.
  intros H. rewrite <- !append_assoc. now apply replaceSuffix_past.
Qed.

Lemma Replace_nonempty s old new :
  s <> "" -> new <> "" -> Replace s old new <> "".
Proof.
  intros Hs Hn. destruct s as [|c s]; [congruence|].
  unfold Replace. rewrite ReplaceFrom_here.
  destruct (String.prefix old (String c s)); [|discriminate].
  destruct new; [congruence|discriminate].
Qed.

Lemma replaceSuffix_nonempty s old new :
  s <> "" -> new <> "" -> replaceSuffix s old new <> "".
Proof.
  intros Hs Hn. unfold replaceSuffix. destruct (HasSuffix s old); [|exact Hs].
  intros H. apply (f_equal String.length) in H. rewrite length_append in H.
  destruct new; [congruence|]. simpl in H. lia.
Qed.

(** The escape of the dollar is not touched by the protection of the
    escaped asterisks. *)
Lemma Replace_protect_dollar a b :
  Replace (a +:+ "%24" +:+ b) "%2A" "%252A" =
  Replace a "%2A" "%252A" +:+ "%24" +:+ Replace b "%2A" "%252A".
Proof.
  change ("%24" +:+ b) with (String "%" ("24" +:+ b)).
  now rewrite Replace_before.
Qed.

Lemma Replace_protect_star a b :
  Replace (a +:+ "%2A" +:+ b) "%2A" "%252A" =
  Replace a "%2A" "%252A" +:+ "%252A" +:+ Replace b "%2A" "%252A".
Proof. now rewrite (Replace_around "%" "2A"). Qed.

Lemma Replace_restore_star a b :
  Replace (a +:+ "%252A" +:+ b) "%252A" "%2A" =
  Replace a "%252A" "%2A" +:+ "%2A" +:+ Replace b "%252A" "%2A".
Proof. now rewrite (Replace_around "%" "252A"). Qed.

Lemma PathUnescape_at_dollar s t :
  PathUnescape (s +:+ "%24" +:+ t) =
  match PathUnescape s, PathUnescape t with
  | Some u, Some v => Some (u +:+ "$" +:+ v)
  | _, _ => None
  end.
Proof.
  change ("%24" +:+ t) with (String "%" ("24" +:+ t)).
  rewrite PathUnescape_before by reflexivity.
  change (String "%" ("24" +:+ t)) with ("%24" +:+ t).
  rewrite PathUnescape_pct24.
  destruct (PathUnescape s); [|reflexivity]. now destruct (PathUnescape t).
Qed.

Lemma PathUnescape_at_star s t :
  PathUnescape (s +:+ "*" +:+ t) =
  match PathUnescape s, PathUnescape t with
  | Some u, Some v => Some (u +:+ "*" +:+ v)
  | _, _ => None
  end.
Proof.
  change ("*" +:+ t) with (String "*" t).
  rewrite PathUnescape_before by reflexivity.
  rewrite PathUnescape_cons by reflexivity.
  destruct (PathUnescape s); [|reflexivity]. now destruct (PathUnescape t).
Qed.

Lemma PathUnescape_at_protected s t :
  PathUnescape (s +:+ "%252A" +:+ t) =
  match PathUnescape s, PathUnescape t with
  | Some u, Some v => Some (u +:+ "%2A" +:+ v)
  | _, _ => None
  end.
Proof.
  change ("%252A" +:+ t) with (String "%" ("252A" +:+ t)).
  rewrite PathUnescape_before by reflexivity.
  change (String "%" ("252A" +:+ t)) with ("%25" +:+ String "2" (String "A" t)).
  rewrite PathUnescape_pct25, !PathUnescape_cons by reflexivity.
  destruct (PathUnescape s); [|reflexivity]. now destruct (PathUnescape t).
Qed.

Lemma PathUnescape_at_end s t u :
  PathUnescape t = Some u ->
  (forall c t', t = String c t' -> unhex c = None) ->
  PathUnescape (s +:+ t) = option_map (fun v => v +:+ u) (PathUnescape s).
Proof.
  intros Ht Hc. rewrite (PathUnescape_append (len s)) by auto.
  rewrite Ht. now destruct (PathUnescape s).
Qed.

(** Protecting a final escaped dollar keeps a valid encoding valid. *)
Lemma PathUnescape_protect_end b :
  PathUnescape b <> None ->
  PathUnescape (replaceSuffix b "%24" "%2524") <> None.
Proof.
  intros H. unfold replaceSuffix. destruct (HasSuffix b "%24") eqn:E; [|exact H].
  apply HasSuffix_inv in E as (q & ->).
  rewrite length_append.
  replace (len q + len "%24" - len "%24") with (len q) by lia.
  rewrite sliceTo_append.
  rewrite (PathUnescape_at_end q "%24" "$") in H
    by (reflexivity || now intros c t' [= <- <-]).
  rewrite (PathUnescape_at_end q "%2524" "%24")
    by (reflexivity || now intros c t' [= <- <-]).
  now destruct (PathUnescape q).
Qed.

(** A pattern path with an escaped asterisk and the path with an asterisk
    in its place are prepared alike. *)
Lemma preparePath_star a b :
  isPattern (a +:+ "%2A" +:+ b) = true ->
  exists P Q,
    preparePath (a +:+ "%2A" +:+ b) = P +:+ "%2A" +:+ Q /\
    preparePath (a +:+ "*" +:+ b) = P +:+ "*" +:+ Q.
Proof.
  intros Hp. unfold preparePath. rewrite Hp, isPattern_wild.
  change ("%2A" +:+ b) with ("%2" +:+ String "A" b).
  rewrite (replaceSuffix_behind "%2" "A") by reflexivity.
  change ("*" +:+ b) with ("" +:+ String "*" b).
  rewrite (replaceSuffix_behind "" "*") by reflexivity.
  set (b' := replaceSuffix b "%24" "%2524").
  change ("%2" +:+ String "A" b') with ("%2A" +:+ b').
  change ("" +:+ String "*" b') with ("*" +:+ b').
  rewrite Replace_protect_star.
  change ("*" +:+ b') with (String "*" b').
  rewrite (Replace_past "*") by (discriminate || reflexivity).
  change (String "*" (Replace b' "%2A" "%252A"))
    with ("*" +:+ Replace b' "%2A" "%252A").
  rewrite PathUnescape_at_protected, PathUnescape_at_star.
  destruct (PathUnescape (Replace a "%2A" "%252A")) as [ua|].
  - destruct (PathUnescape (Replace b' "%2A" "%252A")) as [ub|].
    + now exists ua, ub.
    + rewrite Replace_restore_star.
      change ("*" +:+ Replace b' "%2A" "%252A")
        with (String "*" (Replace b' "%2A" "%252A")).
      rewrite (Replace_past "*") by (discriminate || reflexivity).
      now eexists _, _.
  - rewrite Replace_restore_star.
    change ("*" +:+ Replace b' "%2A" "%252A")
      with (String "*" (Replace b' "%2A" "%252A")).
    rewrite (Replace_past "*") by (discriminate || reflexivity).
    now eexists _, _.
Qed.

Lemma PathUnescape_valid_parts a b :
  PathUnescape (a +:+ "%24" +:+ b) <> None ->
  PathUnescape a <> None /\ PathUnescape b <> None.
Proof.
  rewrite PathUnescape_at_dollar.
  destruct (PathUnescape a); [|congruence].
  destruct (PathUnescape b); [|congruence]. now split.
Qed.

(** A pattern path with an escaped dollar whose encoding is valid, and the
    path with an asterisk in its place: a final [%24] is kept as the three
    bytes, another one is unescaped. *)
Lemma preparePath_escaped_dollar a b :
  isPattern (a +:+ "%24" +:+ b) = true ->
  PathUnescape (a +:+ "%24" +:+ b) <> None ->
  exists P Q,
    preparePath (a +:+ "*" +:+ b) = P +:+ "*" +:+ Q /\
    (b <> "" /\ Q <> "" /\ preparePath (a +:+ "%24" +:+ b) = P +:+ "$" +:+ Q \/
     b = "" /\ Q = "" /\ preparePath (a +:+ "%24" +:+ b) = P +:+ "%24").
Proof.
  intros Hp Hv. destruct (PathUnescape_valid_parts a b Hv) as [Ha Hb].
  pose proof (PathUnescape_protect (len a) a (le_n _) Ha) as Ha'.
  pose proof (PathUnescape_protect _ _ (le_n _)
                (PathUnescape_protect_end b Hb)) as Hb'.
  unfold preparePath. rewrite Hp, isPattern_wild.
  change ("*" +:+ b) with ("" +:+ String "*" b).
  rewrite (replaceSuffix_behind "" "*") by reflexivity.
  set (b' := replaceSuffix b "%24" "%2524") in *.
  change ("" +:+ String "*" b') with (String "*" b').
  rewrite (Replace_past "*") by (discriminate || reflexivity).
  change (String "*" (Replace b' "%2A" "%252A"))
    with ("*" +:+ Replace b' "%2A" "%252A").
  rewrite PathUnescape_at_star.
  destruct (PathUnescape (Replace a "%2A" "%252A")) as [ua|] eqn:Ea;
    [|congruence].
  destruct (PathUnescape (Replace b' "%2A" "%252A")) as [ub|] eqn:Eb;
    [|congruence].
  exists ua, ub. split; [reflexivity|].
  destruct b as [|c b0].
  - right. split; [reflexivity|]. split.
    + now injection Eb as <-.
    + change ("%24" +:+ "") with "%24". rewrite replaceSuffix_append.
      change "%2524" with (String "%" "2524").
      rewrite (Replace_before "%" "2A") by reflexivity.
      change (Replace (String "%" "2524") "%2A" "%252A") with "%2524".
      rewrite (PathUnescape_at_end _ "%2524" "%24")
        by (reflexivity || now intros c t' [= <- <-]).
      now rewrite Ea.
  - left. split; [discriminate|]. split.
    + intros ->. apply PathUnescape_empty in Eb.
      apply (Replace_nonempty b' "%2A" "%252A"); [|discriminate|exact Eb].
      apply replaceSuffix_nonempty; discriminate.
    + rewrite (replaceSuffix_after_self "%" "24") by (reflexivity || discriminate).
      fold b'. rewrite Replace_protect_dollar, PathUnescape_at_dollar.
      now rewrite Ea, Eb.
Qed.

(** A literal path with an escaped dollar whose parts have a valid
    encoding. *)
Lemma preparePath_literal_escaped_dollar a b ua ub :
  isPattern (a +:+ "%24" +:+ b) = false ->
  PathUnescape (Replace a "%2A" "%252A") = Some ua ->
  PathUnescape (Replace b "%2A" "%252A") = Some ub ->
  preparePath (a +:+ "%24" +:+ b) = ua +:+ "$" +:+ ub.
Proof.
  intros Hp Ha Hb. unfold preparePath. rewrite Hp.
  now rewrite Replace_protect_dollar, PathUnescape_at_dollar, Ha, Hb.
Qed.

(** The prepared form of a pattern path ends with a dollar exactly when the
    path does. *)
Lemma preparePath_dollar_end p :
  isPattern p = true ->
  HasSuffix (preparePath p) "$" = HasSuffix p "$".
Proof.
  intros Hp. unfold preparePath. rewrite Hp.
  destruct (HasSuffix p "$") eqn:E.
  - apply HasSuffix_inv in E as (q & ->).
    change (q +:+ "$") with (q +:+ String "$" "").
    rewrite (replaceSuffix_past "$") by reflexivity.
    change (replaceSuffix "" "%24" "%2524") with "".
    rewrite (Replace_past "$") by (discriminate || reflexivity).
    change (Replace "" "%2A" "%252A") with "".
    rewrite (PathUnescape_at_end _ "$" "$")
      by (reflexivity || now intros c t' [= <- <-]).
    destruct (PathUnescape (Replace q "%2A" "%252A")) as [u|].
    + apply HasSuffix_append.
    + rewrite (Replace_past "$") by (discriminate || reflexivity).
      apply (HasSuffix_append _ "$").
  - assert (H1 : HasSuffix (replaceSuffix p "%24" "%2524") "$" = false /\
                 HasSuffix (replaceSuffix p "%24" "%2524") "%24" = false).
    { unfold replaceSuffix. destruct (HasSuffix p "%24") eqn:E4; [|now split].
      set (q := sliceTo (len p - len "%24") p). split.
      - change (q +:+ "%2524") with (q +:+ "%252" +:+ String "4" "").
        rewrite <- append_assoc. now rewrite (HasSuffix_past "4").
      - change (q +:+ "%2524") with (q +:+ "%2" +:+ String "5" "24").
        rewrite <- append_assoc. now rewrite (HasSuffix_past "5"). }
    destruct H1 as [H1 H2].
    set (path1 := replaceSuffix p "%24" "%2524") in *.
    pose proof (HasSuffix_Replace path1 "%2A" "%252A" "A" "$" eq_refl eq_refl
                  ltac:(discriminate) H1) as H3.
    pose proof (HasSuffix_Replace path1 "%2A" "%252A" "A" "%24" eq_refl eq_refl
                  ltac:(discriminate) H2) as H4.
    destruct (PathUnescape (Replace path1 "%2A" "%252A")) as [u|] eqn:Eu.
    + destruct (HasSuffix u "$") eqn:Hu; [|reflexivity].
      destruct (PathUnescape_dollar_end _ _ _ (le_n _) Eu Hu); congruence.
    + now apply (HasSuffix_Replace _ "%252A" "%2A" "A" "$").
Qed.

(** ** The expression around an escape *)

Lemma quoteToks_app a b : quoteToks (a +:+ b) = quoteToks a ++ quoteToks b.
Proof. unfold quoteToks. now rewrite list_of_append, map_app. Qed.

Lemma render_nil ts : render ts = "" -> ts = [].
Proof. destruct ts as [|[c|c| |] ts]; [reflexivity| | | |]; discriminate. Qed.

(** The replacement works on the two sides of a text that has no byte of
    [old]. *)
Lemma Replace_past_text old new m : forall c u v,
  old <> "" ->
  allBytes (fun d => allBytes (otherThan d) old) (String c m) = true ->
  Replace (u +:+ String c m +:+ v) old new =
  Replace u old new +:+ String c m +:+ Replace v old new.
Proof.
  induction m as [|c' m IH]; intros c u v Hne H;
    simpl in H; apply andb_true_iff in H as [Hc H].
  - change (String c "" +:+ v) with (String c v).
    now rewrite Replace_past.
  - change (String c (String c' m) +:+ v) with (String c (String c' m +:+ v)).
    rewrite Replace_past by assumption.
    change (String c' m +:+ v) with ("" +:+ String c' m +:+ v).
    now rewrite (IH c' "" v Hne H).
Qed.

Lemma patternSource_stages p :
  patternSource p =
  Replace (stages (render (map wildTok (quoteToks p)))) "%2A" "\*".
Proof.
  unfold patternSource, stages. rewrite QuoteMeta_render.
  destruct (quoteToks_ok p) as [Hok Hq].
  now rewrite (Replace_wild _ Hok Hq).
Qed.

Lemma stages_past c z y :
  allBytes (otherThan c) "\$" = true ->
  allBytes (otherThan c) "%2524" = true ->
  stages (z +:+ String c y) = z +:+ String c (stages y).
Proof.
  intros H1 H2. unfold stages.
  rewrite (replaceSuffix_past c _ _ "\$") by assumption.
  rewrite (replaceSuffix_past c _ _ "%24").
  - now rewrite (replaceSuffix_past c _ _ "%2524") by assumption.
  - simpl in *. unfold otherThan in *.
    repeat match goal with
           | H : (_ && _)%bool = true |- _ => apply andb_true_iff in H as [? ?]
           end.
    repeat (apply andb_true_intro; split); auto.
Qed.

(** The suffix replacements keep the text that of well-formed pieces. *)
Lemma stages_pieces ts :
  forallb okTok ts = true -> forallb notEnd ts = true ->
  exists ts', stages (render ts) = render ts' /\ forallb okTok ts' = true.
Proof.
  intros Hok Hne. unfold stages.
  destruct (replaceSuffix_keeps ts [TEsc "$"] [TEnd]) as (ts3 & E3 & Hok3 & _);
    try discriminate; try reflexivity; try exact Hok.
  { intros pre H. now apply render_snoc_esc_dollar. }
  change (render [TEsc "$"]) with "\$" in E3.
  change (render [TEnd]) with "$" in E3. rewrite E3.
  destruct (replaceSuffix_keeps ts3 (byteToks (list_ascii_of_string "%24"))
              [TEsc "$"]) as (ts4 & E4 & Hok4 & _);
    try discriminate; try reflexivity; try exact Hok3.
  { intros pre H. apply render_snoc_word; auto. }
  change (render (byteToks (list_ascii_of_string "%24"))) with "%24" in E4.
  change (render [TEsc "$"]) with "\$" in E4. rewrite E4.
  destruct (replaceSuffix_keeps ts4 (byteToks (list_ascii_of_string "%2524"))
              (byteToks (list_ascii_of_string "%24")))
    as (ts5 & E5 & Hok5 & _);
    try discriminate; try reflexivity; try exact Hok4.
  { intros pre H. apply render_snoc_word; auto. }
  change (render (byteToks (list_ascii_of_string "%2524"))) with "%2524" in E5.
  change (render (byteToks (list_ascii_of_string "%24"))) with "%24" in E5.
  rewrite E5. now exists ts5.
Qed.

Lemma Replace_star_render ts :
  forallb okTok ts = true ->
  Replace (render ts) "%2A" "\*" = render (starToks ts) /\
  forallb okTok (starToks ts) = true.
Proof.
  intros Hok.
  destruct (Replace_star_keeps (length ts) ts (le_n _) Hok) as (E & H & _).
  now split.
Qed.

(** The pieces of the text before an escape. *)
Lemma wild_pieces p :
  forallb okTok (map wildTok (quoteToks p)) = true /\
  forallb notEnd (map wildTok (quoteToks p)) = true.
Proof. destruct (quoteToks_ok p) as [Hok Hq]. now apply wildToks_ok. Qed.

(** The expression of a path, cut at an escaped asterisk, at an asterisk or
    at a dollar that is not the last byte: the pieces before and after are
    the same in the three cases. *)
Lemma patternSource_around P Q :
  exists Y, forallb okTok Y = true /\ (Q = "" -> Y = []) /\
    patternSource (P +:+ "%2A" +:+ Q) =
      render (starToks (map wildTok (quoteToks P)) ++ TEsc "*" :: Y) /\
    patternSource (P +:+ "*" +:+ Q) =
      render (starToks (map wildTok (quoteToks P)) ++ TWild :: Y) /\
    (Q <> "" ->
     patternSource (P +:+ "$" +:+ Q) =
       render (starToks (map wildTok (quoteToks P)) ++ TEsc "$" :: Y)).
Proof.
  destruct (wild_pieces P) as [OP NP]. destruct (wild_pieces Q) as [OQ NQ].
  set (wP := map wildTok (quoteToks P)) in *.
  set (wQ := map wildTok (quoteToks Q)) in *.
  destruct (stages_pieces wQ OQ NQ) as (Y0 & EY & OY).
  destruct (Replace_star_render wP OP) as [EX OX].
  destruct (Replace_star_render Y0 OY) as [EY' OY'].
  exists (starToks Y0). split; [exact OY'|]. split; [|split; [|split]].
  - intros ->. change wQ with (@nil tok) in EY.
    change (stages (render [])) with "" in EY. symmetry in EY.
    apply render_nil in EY. now subst Y0.
  - rewrite patternSource_stages, !quoteToks_app, !map_app. fold wP wQ.
    change (map wildTok (quoteToks "%2A"))
      with [TByte "%"; TByte "2"; TByte "A"]%char.
    rewrite !render_app.
    change (render [TByte "%"; TByte "2"; TByte "A"]%char +:+ render wQ)
      with ("%2" +:+ String "A" (render wQ)).
    rewrite <- append_assoc, stages_past by reflexivity.
    rewrite EY, append_assoc.
    change ("%2" +:+ String "A" (render Y0)) with ("%2A" +:+ render Y0).
    rewrite (Replace_around "%" "2A") by reflexivity.
    rewrite EX, EY'.
    change (TEsc "*" :: starToks Y0) with ([TEsc "*"] ++ starToks Y0).
    now rewrite !render_app.
  - rewrite patternSource_stages, !quoteToks_app, !map_app. fold wP wQ.
    change (map wildTok (quoteToks "*")) with [TWild].
    rewrite !render_app.
    change (render [TWild] +:+ render wQ)
      with ("(?:.*" +:+ String ")" (render wQ)).
    rewrite <- append_assoc, stages_past by reflexivity.
    rewrite EY, append_assoc.
    change ("(?:.*" +:+ String ")" (render Y0))
      with (String "(" "?:.*)" +:+ render Y0).
    rewrite Replace_past_text by (discriminate || reflexivity).
    rewrite EX, EY'.
    change (TWild :: starToks Y0) with ([TWild] ++ starToks Y0).
    now rewrite !render_app.
  - intros HQ.
    rewrite patternSource_stages, !quoteToks_app, !map_app. fold wP wQ.
    change (map wildTok (quoteToks "$")) with [TEsc "$"].
    rewrite !render_app.
    change (render [TEsc "$"]) with (String "\" "$").
    assert (HwQ : render wQ <> "").
    { intros E. apply render_nil in E. unfold wQ in E.
      apply map_eq_nil in E. unfold quoteToks in E. apply map_eq_nil in E.
      destruct Q; [congruence|discriminate]. }
    unfold stages at 1.
    rewrite (replaceSuffix_after_self "\" "$") by (reflexivity || assumption).
    change (String "\" "$" +:+ replaceSuffix (render wQ) "\$" "$")
      with ("\" +:+ String "$" (replaceSuffix (render wQ) "\$" "$")).
    rewrite <- append_assoc.
    rewrite (replaceSuffix_past "$" _ _ "%24") by reflexivity.
    rewrite (replaceSuffix_past "$" _ _ "%2524") by reflexivity.
    fold (stages (render wQ)). rewrite EY, append_assoc.
    change ("\" +:+ String "$" (render Y0)) with (String "\" "$" +:+ render Y0).
    rewrite Replace_past_text by (discriminate || reflexivity).
    rewrite EX, EY'.
    change (TEsc "$" :: starToks Y0) with ([TEsc "$"] ++ starToks Y0).
    now rewrite !render_app.
Qed.

(** The expression of a path that ends with the three bytes [%24], which
    stand for a protected final escape. *)
Lemma patternSource_final_escape P :
  patternSource (P +:+ "%24") =
  render (starToks (map wildTok (quoteToks P)) ++ [TEsc "$"]).
Proof.
  destruct (wild_pieces P) as [OP NP].
  rewrite patternSource_stages, !quoteToks_app, !map_app.
  set (wP := map wildTok (quoteToks P)) in *.
  destruct (Replace_star_render wP OP) as [EX OX].
  change (map wildTok (quoteToks "%24"))
    with [TByte "%"; TByte "2"; TByte "4"]%char.
  rewrite render_app.
  change (render [TByte "%"; TByte "2"; TByte "4"]%char) with "%24".
  unfold stages.
  change (render wP +:+ "%24") with (render wP +:+ "%2" +:+ String "4" "").
  rewrite <- append_assoc.
  rewrite (replaceSuffix_past "4" _ _ "\$") by reflexivity.
  change (replaceSuffix "" "\$" "$") with "".
  rewrite append_assoc. change ("%2" +:+ String "4" "") with "%24".
  rewrite replaceSuffix_append.
  change (render wP +:+ "\$") with (render wP +:+ "\" +:+ String "$" "").
  rewrite <- append_assoc.
  rewrite (replaceSuffix_past "$" _ _ "%2524") by reflexivity.
  change (replaceSuffix "" "%2524" "%24") with "".
  rewrite append_assoc.
  change ("\" +:+ String "$" "") with (String "\" "$" +:+ "").
  rewrite Replace_past_text by (discriminate || reflexivity).
  rewrite EX. change (Replace "" "%2A" "\*") with "".
  now rewrite render_app.
Qed.

Lemma prefix_pieces_ok P :
  forallb okTok (starToks (map wildTok (quoteToks P))) = true.
Proof.
  destruct (wild_pieces P) as [OP _].
  now destruct (Replace_star_render _ OP).
Qed.

(** ** The end anchor *)

Lemma replaceSuffix_keeps_notEnd ts old new :
  (forall pre, render ts = pre +:+ render old ->
     exists ts', ts = ts' ++ old /\ render ts' = pre) ->
  forallb okTok ts = true -> forallb okTok new = true ->
  forallb notEnd ts = true -> forallb notEnd new = true ->
  exists ts', replaceSuffix (render ts) (render old) (render new) = render ts' /\
    forallb okTok ts' = true /\ forallb notEnd ts' = true.
Proof.
  intros Hcut Hok Hnew Hne Hnn.
  destruct (HasSuffix (render ts) (render old)) eqn:E.
  - destruct (HasSuffix_inv _ _ E) as (pre & Hpre).
    destruct (Hcut pre Hpre) as (ts' & -> & <-).
    rewrite render_app, replaceSuffix_append, <- render_app.
    exists (ts' ++ new). split; [reflexivity|].
    rewrite !forallb_app in *.
    apply andb_true_iff in Hok as [-> _]. apply andb_true_iff in Hne as [-> _].
    now rewrite Hnew, Hnn.
  - rewrite (replaceSuffix_none _ _ _ E). now exists ts.
Qed.

Lemma starToks_notEnd n : forall ts,
  length ts <= n -> forallb notEnd ts = true ->
  forallb notEnd (starToks ts) = true.
Proof.
  induction n as [|n IH]; intros ts Hlen Hne.
  { destruct ts; [reflexivity|simpl in Hlen; lia]. }
  destruct ts as [|t ts]; [reflexivity|].
  destruct (isStar (t :: ts)) eqn:E.
  - destruct (isStar_true _ E) as (rest & Hts & ->). rewrite Hts in *.
    simpl in Hlen. simpl in Hne. simpl. apply IH; [lia|exact Hne].
  - rewrite (isStar_false _ _ E). simpl in Hlen.
    apply andb_true_iff in Hne as [Ht Hne]. simpl. rewrite Ht.
    apply IH; [lia|exact Hne].
Qed.

(** The pieces of a path end with an escaped dollar only when the path ends
    with a dollar. *)
Lemma wild_last_dollar P ts :
  map wildTok (quoteToks P) = ts ++ [TEsc "$"] -> HasSuffix P "$" = true.
Proof.
  unfold quoteToks. rewrite map_map. intros H.
  apply map_eq_app in H as (l1 & l2 & E & _ & H2).
  destruct l2 as [|c [|d l2]]; try discriminate.
  injection H2 as H2.
  assert (c = "$"%char) as ->.
  { unfold quoteTok in H2. destruct (special c); simpl in H2.
    - destruct (Ascii.eqb c "*"); [discriminate|]. now injection H2.
    - discriminate. }
  rewrite <- (string_of_list_ascii_of_string P), E, string_of_list_app.
  apply HasSuffix_append.
Qed.

(** The expression of a path has the end anchor as its last piece when the
    path ends with a dollar, and has no end anchor otherwise. *)
Lemma patternSource_anchor P :
  exists ts, patternSource P = render ts /\ forallb okTok ts = true /\
    (HasSuffix P "$" = true /\
       (exists X, ts = X ++ [TEnd] /\ forallb notEnd X = true) \/
     HasSuffix P "$" = false /\ forallb notEnd ts = true).
Proof.
  destruct (HasSuffix P "$") eqn:E.
  - apply HasSuffix_inv in E as (P' & ->).
    destruct (wild_pieces P') as [OP NP].
    rewrite patternSource_stages, !quoteToks_app, !map_app.
    set (wP := map wildTok (quoteToks P')) in *.
    destruct (Replace_star_render wP OP) as [EX OX].
    change (map wildTok (quoteToks "$")) with [TEsc "$"].
    rewrite render_app. change (render [TEsc "$"]) with "\$".
    unfold stages. rewrite replaceSuffix_append.
    change (render wP +:+ "$") with (render wP +:+ String "$" "").
    rewrite (replaceSuffix_past "$" _ _ "%24") by reflexivity.
    rewrite (replaceSuffix_past "$" _ _ "%2524") by reflexivity.
    change (replaceSuffix "" "%24" "\$") with "".
    change (replaceSuffix "" "%2524" "%24") with "".
    rewrite Replace_past by (discriminate || reflexivity).
    rewrite EX. change (Replace "" "%2A" "\*") with "".
    exists (starToks wP ++ [TEnd]). split; [now rewrite render_app|]. split.
    + now rewrite forallb_app, OX.
    + left. split; [reflexivity|]. exists (starToks wP).
      split; [reflexivity|]. now apply (starToks_notEnd (length wP)).
  - destruct (wild_pieces P) as [OP NP].
    rewrite patternSource_stages.
    set (wP := map wildTok (quoteToks P)) in *.
    unfold stages.
    assert (E3 : HasSuffix (render wP) "\$" = false).
    { destruct (HasSuffix (render wP) "\$") eqn:H; [|reflexivity].
      apply HasSuffix_inv in H as (pre & H).
      apply render_snoc_esc_dollar in H as (ts' & H & _); auto.
      apply wild_last_dollar in H. congruence. }
    rewrite (replaceSuffix_none _ _ _ E3).
    destruct (replaceSuffix_keeps_notEnd wP
                (byteToks (list_ascii_of_string "%24")) [TEsc "$"])
      as (ts4 & E4 & Hok4 & Hne4); auto.
    { intros pre H. apply render_snoc_word; auto. }
    change (render (byteToks (list_ascii_of_string "%24"))) with "%24" in E4.
    change (render [TEsc "$"]) with "\$" in E4. rewrite E4.
    destruct (replaceSuffix_keeps_notEnd ts4
                (byteToks (list_ascii_of_string "%2524"))
                (byteToks (list_ascii_of_string "%24")))
      as (ts5 & E5 & Hok5 & Hne5); auto.
    { intros pre H. apply render_snoc_word; auto. }
    change (render (byteToks (list_ascii_of_string "%2524"))) with "%2524" in E5.
    change (render (byteToks (list_ascii_of_string "%24"))) with "%24" in E5.
    rewrite E5.
    destruct (Replace_star_render ts5 Hok5) as [E6 Hok6]. rewrite E6.
    exists (starToks ts5). split; [reflexivity|]. split; [exact Hok6|].
    right. split; [reflexivity|]. now apply (starToks_notEnd (length ts5)).
Qed.

Lemma instOf_notEnd ts :
  forallb notEnd ts = true -> ~ In EndText (map instOf ts).
Proof.
  induction ts as [|t ts IH]; [intros _ []|].
  simpl. intros [Ht Hts]%andb_true_iff [H|H]; [|now apply IH].
  now destruct t.
Qed.

Lemma last_occurrence {A} (x : A) l pre post :
  l ++ [x] = pre ++ x :: post -> ~ In x l -> post = [].
Proof.
  intros H Hn. destruct post as [|y post] using rev_ind; [reflexivity|].
  exfalso. apply Hn.
  change (pre ++ x :: post ++ [y]) with (pre ++ (x :: post) ++ [y]) in H.
  rewrite app_assoc in H. apply app_inj_tail in H as [-> _].
  apply in_or_app. right. now left.
Qed.

(** ** What a literal instruction asks of the path *)

(** A text matched by an expression with a literal has the byte of the
    literal. *)
Lemma matchHere_literal c rb : forall ra s,
  matchHere (ra ++ Lit c :: rb) s = true -> exists u v, s = u +:+ String c v.
Proof.
  induction ra as [|i ra IH]; intros s H.
  - destruct s as [|d s']; [discriminate|]. simpl in H.
    apply andb_true_iff in H as [E _]. apply Ascii.eqb_eq in E. subst d.
    now exists "", s'.
  - destruct i as [e| |].
    + destruct s as [|d s']; [discriminate|]. simpl in H.
      apply andb_true_iff in H as [_ H].
      destruct (IH _ H) as (u & v & ->). now exists (String d u), v.
    + change ((fix star (t : string) : bool :=
                 matchHere (ra ++ Lit c :: rb) t ||
                 match t with
                 | String d t' => negb (isNewline d) && star t'
                 | "" => false
                 end) s = true) in H.
      induction s as [|d s' IHs].
      * rewrite orb_false_r in H. now apply IH.
      * apply orb_true_iff in H as [H|H]; [now apply IH|].
        apply andb_true_iff in H as [_ H].
        destruct (IHs H) as (u & v & ->). now exists (String d u), v.
    + destruct s as [|d s']; [|discriminate]. simpl in H. now apply IH.
Qed.

(** A path matched by a rule with a literal has the byte of the literal. *)
Lemma MatchString_literal ra c rb x :
  MatchString (ra ++ Lit c :: rb) x = true -> (IndexRune x c >? -1)%Z = true.
Proof.
  intros (pre & t & -> & H)%MatchString_iff.
  apply matchHere_literal in H as (u & v & ->).
  rewrite <- append_assoc. apply IndexRune_found.
Qed.

(** ** Compiled rules *)

Section Escapes.

Variable tooLarge : string -> bool.

Local Abbreviation compilePattern' := (Generic.compilePattern tooLarge).
Local Abbreviation makeRule' := (Generic.makeRule tooLarge).

(** A compiled expression has one instruction for each piece. *)
Lemma compilePattern_pieces_lib s ts re :
  patternSource s = render ts -> forallb okTok ts = true ->
  compilePattern' s = inl re -> re = map instOf ts.
Proof.
  unfold Generic.compilePattern, Generic.regexpCompile. intros E Hok.
  rewrite E. destruct (tooLarge _); [discriminate|].
  rewrite parseRegexp_Top, (parseRegexp_render ts Hok [] eq_refl).
  destruct (validToks [] ts); [now intros [= <-]|discriminate].
Qed.

Lemma makeRule_pattern_lib p allowed r :
  isPattern p = true -> makeRule' p allowed = Some r ->
  exists re, compilePattern' (preparePath p) = inl re /\
    r = {| isAllowed := allowed; path := ""; pattern := Some re |}.
Proof.
  unfold Generic.makeRule. intros ->.
  destruct (compilePattern' (preparePath p)) as [re|]; [|discriminate].
  intros [= <-]. now exists re.
Qed.

Lemma makeRule_compiled_lib p allowed r re :
  makeRule' p allowed = Some r -> pattern r = Some re ->
  isPattern p = true /\ compilePattern' (preparePath p) = inl re.
Proof.
  intros H Hre. destruct (isPattern p) eqn:Hp.
  - destruct (makeRule_pattern_lib p allowed r Hp H) as (re' & E & ->).
    simpl in Hre. injection Hre as <-. now split.
  - unfold Generic.makeRule in H. rewrite Hp in H. injection H as <-.
    discriminate.
Qed.

(** C3, as amended.  For all texts [a] and [b]:
    (1) when the pattern path [a%2Ab] compiles, its expression has the
    literal asterisk at the place where the expression of the path [a*b]
    has the wildcard, and the two agree before and after it; every request
    path the rule matches has an asterisk;
    (2) in the expression of a compiled rule the end anchor can only be the
    last instruction, and it is there exactly when the directive path ends
    with a dollar: an escaped dollar never gives it;
    (3) when the pattern path [a%24b], whose percent-encoding is valid,
    compiles, its expression has the literal dollar at the place where the
    expression of [a*b] has the wildcard, whether the escape is the last
    token ([b] is empty) or not; every request path the rule matches has a
    dollar;
    (4) the literal path [a%24b], whose percent-encoding is valid, is stored
    with a dollar between the unescaped forms of [a] and [b] (in which an
    escaped asterisk is kept as [%2A]). *)
Theorem C3_escaped_asterisk_and_dollar (a b : string) (allowed : bool) :
  (isPattern (a +:+ "%2A" +:+ b) = true ->
   forall r, makeRule' (a +:+ "%2A" +:+ b) allowed = Some r ->
     exists ra rb, pattern r = Some (ra ++ Lit "*" :: rb) /\
       (forall x, MatchString (ra ++ Lit "*" :: rb) x = true ->
          (IndexRune x "*" >? -1)%Z = true) /\
       forall r', makeRule' (a +:+ "*" +:+ b) allowed = Some r' ->
         pattern r' = Some (ra ++ AnyStar :: rb)) /\
  (forall p r re, makeRule' p allowed = Some r -> pattern r = Some re ->
     (forall pre post, re = pre ++ EndText :: post ->
        post = [] /\ HasSuffix p "$" = true) /\
     (HasSuffix p "$" = true -> exists pre, re = pre ++ [EndText])) /\
  (isPattern (a +:+ "%24" +:+ b) = true ->
   PathUnescape (a +:+ "%24" +:+ b) <> None ->
   forall r, makeRule' (a +:+ "%24" +:+ b) allowed = Some r ->
     exists ra rb, pattern r = Some (ra ++ Lit "$" :: rb) /\
       (forall x, MatchString (ra ++ Lit "$" :: rb) x = true ->
          (IndexRune x "$" >? -1)%Z = true) /\
       (b = "" -> rb = []) /\
       forall r', makeRule' (a +:+ "*" +:+ b) allowed = Some r' ->
         pattern r' = Some (ra ++ AnyStar :: rb)) /\
  (isPattern (a +:+ "%24" +:+ b) = false ->
   PathUnescape (a +:+ "%24" +:+ b) <> None ->
   exists ua ub,
     PathUnescape (Replace a "%2A" "%252A") = Some ua /\
     PathUnescape (Replace b "%2A" "%252A") = Some ub /\
     makeRule' (a +:+ "%24" +:+ b) allowed =
     Some {| isAllowed := allowed; path := ua +:+ "$" +:+ ub;
             pattern := None |}).
Proof.
  split; [|split; [|split]].
  - intros Hp r Hr.
    destruct (preparePath_star a b Hp) as (P & Q & E1 & E2).
    destruct (patternSource_around P Q) as (Y & OY & _ & S1 & S2 & _).
    pose proof (prefix_pieces_ok P) as OX.
    set (X := starToks (map wildTok (quoteToks P))) in *.
    destruct (makeRule_pattern_lib _ _ _ Hp Hr) as (re & Hre & ->).
    rewrite E1 in Hre.
    apply (compilePattern_pieces_lib _ _ _ S1) in Hre;
      [|now rewrite forallb_app; simpl; rewrite OX, OY].
    exists (map instOf X), (map instOf Y). split; [|split].
    + simpl. now rewrite Hre, map_app.
    + intros x. apply MatchString_literal.
    + intros r' Hr'.
      destruct (makeRule_pattern_lib _ _ _ (isPattern_wild a b) Hr')
        as (re' & Hre' & ->).
      rewrite E2 in Hre'.
      apply (compilePattern_pieces_lib _ _ _ S2) in Hre';
        [|now rewrite forallb_app; simpl; rewrite OX, OY].
      simpl. now rewrite Hre', map_app.
  - intros p r re Hr Hre.
    destruct (makeRule_compiled_lib _ _ _ _ Hr Hre) as [Hp Hc].
    destruct (patternSource_anchor (preparePath p)) as (ts & E & Hok & H).
    apply (compilePattern_pieces_lib _ _ _ E Hok) in Hc. subst re.
    rewrite (preparePath_dollar_end p Hp) in H.
    destruct H as [(Hd & X & -> & HX)|(Hd & Hne)].
    + rewrite map_app. simpl. split.
      * intros pre post H. split; [|exact Hd].
        apply (last_occurrence _ _ _ _ H). now apply instOf_notEnd.
      * intros _. now exists (map instOf X).
    + split.
      * intros pre post H. exfalso. apply (instOf_notEnd ts Hne).
        rewrite H. apply in_or_app. right. now left.
      * congruence.
  - intros Hp Hv r Hr.
    destruct (preparePath_escaped_dollar a b Hp Hv) as (P & Q & E2 & H).
    destruct (patternSource_around P Q) as (Y & OY & HY & _ & S2 & S3).
    pose proof (prefix_pieces_ok P) as OX.
    pose proof (patternSource_final_escape P) as S4.
    set (X := starToks (map wildTok (quoteToks P))) in *.
    destruct (makeRule_pattern_lib _ _ _ Hp Hr) as (re & Hre & ->).
    exists (map instOf X), (map instOf Y).
    assert (T : forall r', makeRule' (a +:+ "*" +:+ b) allowed = Some r' ->
                  pattern r' = Some (map instOf X ++ AnyStar :: map instOf Y)).
    { intros r' Hr'.
      destruct (makeRule_pattern_lib _ _ _ (isPattern_wild a b) Hr')
        as (re' & Hre' & ->).
      rewrite E2 in Hre'.
      apply (compilePattern_pieces_lib _ _ _ S2) in Hre';
        [|now rewrite forallb_app; simpl; rewrite OX, OY].
      simpl. now rewrite Hre', map_app. }
    destruct H as [(Hb & HQ & E3)|(Hb & HQ & E3)].
    + rewrite E3 in Hre.
      apply (compilePattern_pieces_lib _ _ _ (S3 HQ)) in Hre;
        [|now rewrite forallb_app; simpl; rewrite OX, OY].
      split; [simpl; now rewrite Hre, map_app|].
      split; [intros x; apply MatchString_literal|].
      split; [congruence|exact T].
    + rewrite E3 in Hre. rewrite (HY HQ) in *.
      apply (compilePattern_pieces_lib _ _ _ S4) in Hre;
        [|now rewrite forallb_app; simpl; rewrite OX].
      split; [simpl; now rewrite Hre, map_app|].
      split; [intros x; apply MatchString_literal|].
      split; [reflexivity|exact T].
  - intros Hp Hv. destruct (PathUnescape_valid_parts a b Hv) as [Ha Hb].
    pose proof (PathUnescape_protect _ a (le_n _) Ha) as Ha'.
    pose proof (PathUnescape_protect _ b (le_n _) Hb) as Hb'.
    destruct (PathUnescape (Replace a "%2A" "%252A")) as [ua|] eqn:Ea;
      [|congruence].
    destruct (PathUnescape (Replace b "%2A" "%252A")) as [ub|] eqn:Eb;
      [|congruence].
    exists ua, ub. split; [reflexivity|]. split; [reflexivity|].
    unfold Generic.makeRule. rewrite Hp.
    now rewrite (preparePath_literal_escaped_dollar a b ua ub Hp Ea Eb).
Qed.

End Escapes.

(** * Scenarios of the properties over the libraries *)

(** A line with an empty key after a [disallow] line can be deleted. *)
Lemma C4_witness :
  Reading.Parse
    (joinLines (["User-agent: *"; "Disallow: /fish/"]
                ++ ":::::another invalid line:::::"
                   :: ["User-agent: b"; "Disallow: /test.html"]))
    exampleURL =
  Reading.Parse
    (joinLines (["User-agent: *"; "Disallow: /fish/"]
                ++ ["User-agent: b"; "Disallow: /test.html"]))
    exampleURL.
Proof.
  apply (C4_deleting_an_ignored_line ToLower TrimSpace Reading.tooLarge
           Reading.ParseFloat Reading.overflow Ref.urlParse Ref.idnaToASCII).
  - repeat constructor.
  - reflexivity.
  - right. left. vm_compute. discriminate.
Defined.

(** C6, as stated, fails for a comment that holds a colon.  The line
    [# see: the notes] is an ignored line, so that the directive before
    [User-agent: b] is [User-agent: a], and the claim has the two agents in
    one group.  In the code the comment is a line with the unknown key
    [# see]: it sets [isNoneUserAgentState], the list is cleared, and the
    rule of [Disallow: /] is attached to [b] alone: the agent [a] has no
    rule set and every path is allowed for it. *)
Lemma C6_counterexample :
  Generic.ignoredLine ToLower TrimSpace "# see: the notes" = true /\
  startsWithHash "# see: the notes" = true /\
  exists r,
    Reading.parsed (joinLines commentBetweenAgents) exampleURL = Some r /\
    groups r !! "a" = None /\
    groups r !! "b" =
      Some {| rules := [ {| isAllowed := false; path := "/";
                            pattern := None |} ];
              crawlDelay := 0 |} /\
    Reading.IsAllowed r "a" "http://www.example.com/page" = (true, None) /\
    Reading.IsAllowed r "b" "http://www.example.com/page" = (false, None).
Proof.
  split; [reflexivity|]. split; [reflexivity|].
  eexists. split; [vm_compute; reflexivity|]. vm_compute. now repeat split.
Qed.

(** A comment with a colon between two agents: the list is started anew
    with the second agent. *)
Lemma C6_witness :
  userAgents
    (Reading.parseLines
       ["User-agent: a"; "# see: the notes"; "User-agent: b"]
       (Reading.stateAfter [])) = ["b"].
Proof.
  exact (proj1 (proj2 (proj2
           (C6_rules_attach_to_active_group ToLower TrimSpace
              Reading.tooLarge Reading.ParseFloat Reading.overflow)))
           (Reading.parseLine (Reading.stateAfter []) "User-agent: a")
           "# see: the notes" "# see" "the notes" [] "User-agent: b" "b"
           eq_refl ltac:(discriminate) (List.Forall_nil _) eq_refl).
Defined.

(** C8, as stated, fails in one word: a negative value parses and is stored,
    so the crawl delay of [a] is minus one second. *)
Lemma C8_counterexample :
  exists r,
    Reading.parsed (joinLines ["User-agent: a"; "Crawl-delay: -1"]) exampleURL
      = Some r /\
    Reading.CrawlDelay r "a" = (-1000000000)%Z /\
    (Reading.CrawlDelay r "a" < 0)%Z.
Proof.
  eexists. split; [vm_compute; reflexivity|]. vm_compute. now split.
Qed.

(** A delay of one second and a half for the two active agents. *)
Lemma C8_witness :
  groups (robotsTxt
            (Reading.parseLine
               (Reading.stateAfter ["user-agent: c"; "user-agent: d"])
               "crawl-delay: 1.5")) !! "d" =
  Some {| rules := []; crawlDelay := 1500000000 |}.
Proof.
  destruct (C8_crawl_delay_directive ToLower TrimSpace Reading.tooLarge
              Reading.ParseFloat Reading.overflow Ref.urlParse Ref.idnaToASCII
              (Reading.stateAfter ["user-agent: c"; "user-agent: d"])
              "crawl-delay: 1.5" "1.5" eq_refl) as (_ & H & _).
  specialize (H "d" ltac:(vm_compute; repeat constructor)).
  unfold Reading.parseLine. vm_compute in H |- *. exact H.
Defined.

(** The rule [Disallow: /%20D/%2Atest$] of the tests: the escaped asterisk
    is a literal where the rule [/%20D/*test$] has the wildcard. *)
Lemma C3_witness :
  exists ra rb,
    Some (lits "/ D/*test" ++ [EndText]) = Some (ra ++ Lit "*" :: rb) /\
    (forall x, MatchString (ra ++ Lit "*" :: rb) x = true ->
       (IndexRune x "*" >? -1)%Z = true) /\
    forall r', Reading.makeRule ("/%20D/" +:+ "*" +:+ "test$") false = Some r' ->
      pattern r' = Some (ra ++ AnyStar :: rb).
Proof.
  exact (proj1 (C3_escaped_asterisk_and_dollar Reading.tooLarge
                  "/%20D/" "test$" false) eq_refl
           {| isAllowed := false; path := "";
              pattern := Some (lits "/ D/*test" ++ [EndText]) |} eq_refl).
Defined.

(** The file without a [user-agent] line: its [Disallow] line is attached to
    no agent. *)
Lemma no_agent_or_no_rule_no_groups_witness :
  groups sitemapFile = ∅ /\
  Reading.CrawlDelay sitemapFile "bot" = 0%Z /\
  Reading.IsAllowed sitemapFile "bot" "http://www.example.com/private/x" =
  (true, None).
Proof.
  destruct (no_agent_or_no_rule_no_groups ToLower TrimSpace Reading.tooLarge
              Reading.ParseFloat Reading.overflow Ref.urlParse Ref.idnaToASCII
              sitemapText exampleURL sitemapFile)
    as (H1 & H2 & H3).
  - vm_compute. reflexivity.
  - left. vm_compute. repeat constructor.
  - split; [exact H1|]. split; [apply H2|].
    apply (H3 "bot" "http://www.example.com/private/x"
             {| URL.Scheme := "http"; URL.Host := "www.example.com";
                URL.Path := "/private/x" |}); reflexivity.
Defined.

(** The two sitemaps of the file without a [user-agent] line; the blank
    [sitemap] line adds none. *)
Lemma Sitemaps_of_file_witness :
  Sitemaps sitemapFile = ["http://www.example.com/a.xml"; "/b.xml"].
Proof.
  rewrite (Sitemaps_of_file ToLower TrimSpace Reading.tooLarge
             Reading.ParseFloat Reading.overflow Ref.urlParse Ref.idnaToASCII
             sitemapText exampleURL sitemapFile); [|vm_compute; reflexivity].
  vm_compute. reflexivity.
Defined.

(** The host of the same file: the last value that is not empty. *)
Lemma Host_of_file_witness : Host sitemapFile = "www.example.com".
Proof.
  rewrite (Host_of_file ToLower TrimSpace Reading.tooLarge
             Reading.ParseFloat Reading.overflow Ref.urlParse Ref.idnaToASCII
             sitemapText exampleURL sitemapFile); [|vm_compute; reflexivity].
  vm_compute. reflexivity.
Defined.

(** The file of [Disallow: /fish/] and a URL under [/fish/]. *)
Lemma disallow_blocks_the_prefix_witness :
  Reading.IsAllowed fishFile "bot" "http://www.example.com/fish/cod" =
  (negb (HasPrefix "/fish/cod" "/fish/"), None).
Proof.
  apply (disallow_blocks_the_prefix ToLower TrimSpace Reading.tooLarge
           Reading.ParseFloat Reading.overflow Ref.urlParse Ref.idnaToASCII
           "User-agent: *" "Disallow: /fish/" "*" "/fish/" exampleURL fishFile
           eq_refl eq_refl eq_refl eq_refl eq_refl eq_refl eq_refl)
    with (u := {| URL.Scheme := "http"; URL.Host := "www.example.com";
                  URL.Path := "/fish/cod" |}).
  - vm_compute. reflexivity.
  - reflexivity.
  - reflexivity.
  - reflexivity.
Defined.
